(** * pyscf/tdscf/uks.py: TDDFTNoHybrid

    A shallow embedding of the unrestricted Kohn-Sham linear-response
    solver for non-hybrid functionals,

      (A-B)(A+B)(X+Y) = (X+Y) w^2

    and the properties of its setup ([get_vind]), of the matrix-free
    operator it returns ([vind]) and of the driver ([kernel]).

    Conventions of the embedding.
    - numpy arrays of doubles are lists ([vec]) and lists of rows ([mat]);
      arithmetic is taken through the interface [Arith], instantiated below
      with IEEE binary64 ([spec_float] at precision 53, as numpy computes)
      and with the real numbers (for statements in exact arithmetic);
    - Python exceptions are the [Err] outcomes of [result];
    - objects that are shared, captured by the closure or updated in place
      live in a heap of [obj]ects addressed by [loc]; expression
      temporaries are plain values;
    - code of other modules (davidson1, the response evaluator, the AO to
      MO transform, ...) is a Section variable. *)

From Stdlib Require Import ZArith List Lia Bool String Sorted Reals Lra SpecFloat.
From stdpp Require Import base list gmap strings.

Set Default Proof Using "Type*".

(** ** Outcomes *)

Inductive exn :=
| RuntimeError | IndexError | ValueError | NameError | TypeError | OSError.

Inductive result (A : Type) :=
| Ok (a : A)
| Err (e : exn).
Arguments Ok {A} a.
Arguments Err {A} e.

Definition rbind {A B} (m : result A) (k : A → result B) : result B :=
  match m with
  | Ok a => k a
  | Err e => Err e
  end.

Notation "'let?' x := m 'in' k" := (rbind m (fun x => k))
  (at level 10, x pattern, m at level 100, k at level 200,
   format "'let?'  x  :=  m  'in' '//' k").

Fixpoint mapR {A B} (f : A → result B) (l : list A) : result (list B) :=
  match l with
  | [] => Ok []
  | a :: r => let? b := f a in let? bs := mapR f r in Ok (b :: bs)
  end.

(** ** The arithmetic of array elements *)

Class Arith (F : Type) := {
  fzero : F;                 (* the literal 0 *)
  fone : F;                  (* the literal 1 *)
  fhalf : F;                 (* the literal .5 *)
  fadd : F → F → F;
  fsub : F → F → F;
  fmul : F → F → F;
  fdiv : F → F → F;
  fsqrt : F → F;             (* numpy.sqrt *)
  fltb : F → F → bool;       (* a < b *)
  feqb : F → F → bool;       (* a == b *)
}.

(** 1-D arrays of doubles, and 2-D arrays as lists of rows. *)
Abbreviation vec F := (list F) (only parsing).
Abbreviation mat F := (list (list F)) (only parsing).

Section Arrays.
Context {F : Type} `{Arith F}.

(** [x ** 2] *)
Definition fsq (x : F) : F := fmul x x.

(** *** numpy.where(cond)[0]: the indices at which [p] holds, ascending *)
Fixpoint where_from {A} (p : A → bool) (i : nat) (xs : list A) : list nat :=
  match xs with
  | [] => []
  | x :: r => if p x then i :: where_from p (S i) r
              else where_from p (S i) r
  end.
Definition np_where {A} (p : A → bool) (xs : list A) : list nat :=
  where_from p 0 xs.

(** [numpy.where(mo_occ > 0)[0]] and [numpy.where(mo_occ == 0)[0]] *)
Definition occidx (mo_occ : vec F) : list nat := np_where (fun o => fltb fzero o) mo_occ.
Definition viridx (mo_occ : vec F) : list nat := np_where (fun o => feqb o fzero) mo_occ.

(** *** Indexing *)

(** [a[idx]] with an integer index array: IndexError out of bounds. *)
Definition take_idx {A} (a : list A) (idx : list nat) : result (list A) :=
  mapR (fun i => match a !! i with Some x => Ok x | None => Err IndexError end) idx.

(** [m[:, idx]] *)
Definition take_cols (m : mat F) (idx : list nat) : result (mat F) :=
  mapR (fun row => take_idx row idx) m.

(** [zs[i]] *)
Definition row {A} (i : nat) (m : list A) : result A :=
  match m !! i with Some r => Ok r | None => Err IndexError end.

(** *** Elementwise operations on 1-D arrays, with numpy's broadcasting:
    equal lengths, or one operand of length 1; ValueError otherwise. *)
Definition bcast2 (f : F → F → F) (a b : vec F) : result (vec F) :=
  if Nat.eqb (length a) (length b) then Ok (zip_with f a b)
  else match a, b with
       | [x], _ => Ok (map (f x) b)
       | _, [y] => Ok (map (fun x => f x y) a)
       | _, _ => Err ValueError
       end.

(** In-place [a op= b]: [b] is broadcast to the shape of [a]. *)
Definition inplace2 (f : F → F → F) (a b : vec F) : result (vec F) :=
  if Nat.eqb (length b) (length a) then Ok (zip_with f a b)
  else match b with
       | [y] => Ok (map (fun x => f x y) a)
       | _ => Err ValueError
       end.

(** [v.reshape(-1,1) op u], flattened row-major by [reshape(-1)] or
    [ravel()]: the entry of row [a], column [i] is at [a * len u + i]. *)
Definition outer_flat {A B} (f : A → A → B) (v u : list A) : list B :=
  concat (map (fun x => map (fun y => f x y) u) v).

(** *** Reshaping *)

(** Consecutive rows of [c] entries. *)
Fixpoint chunks (r c : nat) (v : vec F) : mat F :=
  match r with
  | O => []
  | S r' => take c v :: chunks r' c (drop c v)
  end.

(** [v.reshape(r, c)]: ValueError unless [v] has [r * c] entries. *)
Definition reshape2 (r c : nat) (v : vec F) : result (mat F) :=
  if Nat.eqb (length v) (r * c) then Ok (chunks r c v) else Err ValueError.

(** [a.reshape(nz, -1)] on the [s] entries of [a]: numpy refuses to infer
    the missing dimension when [nz = 0] or [nz] does not divide [s]. *)
Definition reshape_rows (nz : nat) (v : vec F) : result (mat F) :=
  match nz with
  | O => Err ValueError
  | S _ => if Nat.eqb (length v mod nz) 0
           then Ok (chunks nz (length v / nz) v)
           else Err ValueError
  end.

(** [numpy.hstack((a, b))] of two 2-D arrays: rows are joined; the row
    counts must agree. *)
Definition hstack2 (a b : mat F) : result (mat F) :=
  if Nat.eqb (length a) (length b) then Ok (zip_with app a b)
  else Err ValueError.

(** *** Dense products, with the shapes given as numpy knows them.
    Sums are accumulated from the left, starting at 0. *)
Definition mget (m : mat F) (i j : nat) : F :=
  match m !! i with
  | Some r => match r !! j with Some x => x | None => fzero end
  | None => fzero
  end.

Definition tabulate {A} (n : nat) (f : nat → A) : list A := map f (seq 0 n).

Definition dotsum (k : nat) (f : nat → F) : F :=
  fold_left (fun acc l => fadd acc (f l)) (seq 0 k) fzero.

(** [numpy.dot(a, b)] for [a] of shape (n,k) and [b] of shape (k,m) *)
Definition matmul (n k m : nat) (a b : mat F) : mat F :=
  tabulate n (fun i => tabulate m (fun j =>
    dotsum k (fun l => fmul (mget a i l) (mget b l j)))).

(** [b.T] for [b] of shape (n,m) *)
Definition transpose (n m : nat) (b : mat F) : mat F :=
  tabulate m (fun j => tabulate n (fun i => mget b i j)).

(** [dm + dm.T] for a square [dm] of order [n] *)
Definition symmetrize (n : nat) (dm : mat F) : mat F :=
  tabulate n (fun i => tabulate n (fun j => fadd (mget dm i j) (mget dm j i))).

(** [lib.norm(x)] is numpy.linalg.norm: sqrt(dot(x, x)). *)
Definition norm (x : vec F) : F :=
  fsqrt (fold_left (fun acc v => fadd acc (fmul v v)) x fzero).

(** *** Boolean masks *)

(** [a[mask] = 0] for a 1-D array: the mask must have the length of [a]. *)
Definition zero_where (mask : list bool) (a : vec F) : result (vec F) :=
  if Nat.eqb (length mask) (length a)
  then Ok (zip_with (fun (b : bool) x => if b then fzero else x) mask a)
  else Err IndexError.

(** [numpy.copy(zs)] of a list of vectors: the 2-D array of its rows.
    Rows of different lengths are refused with a ValueError (numpy 1.24
    and later); the copy of the empty list is a 1-D array of length 0,
    written [[]] here as well. *)
Definition np_copy (zs : mat F) : result (mat F) :=
  match zs with
  | [] => Ok []
  | z :: r =>
      if forallb (fun z' => Nat.eqb (length z') (length z)) r then Ok zs
      else Err ValueError
  end.

(** [zs[:, mask] = 0] on such a copy: two indices are too many for the
    1-D copy of an empty list (IndexError); otherwise the mask must have
    the length of the rows. *)
Definition zero_cols (mask : list bool) (zs : mat F) : result (mat F) :=
  match zs with
  | [] => Err IndexError
  | _ :: _ => mapR (zero_where mask) zs
  end.

End Arrays.


(** ** The heap, the solver object and the state monad *)

Abbreviation loc := nat (only parsing).

Section Model.
Context {F : Type} `{Arith F}.

(** Arrays on the heap.  All of them hold doubles, so the assertion
    [mo_coeff[0].dtype == numpy.double] of [get_vind] holds of every
    [OMat] and is not modelled further. *)
Inductive obj :=
| OVec (v : vec F)                    (* 1-D array *)
| OMat (m : mat F)                    (* 2-D array, or a batch of vectors *)
| OMask (b : list bool)               (* 1-D boolean array *)
| OTens (t : list (list (mat F))).    (* 4-D array, shape (2,nz,nao,nao) *)

(** The mean-field object [mf]: the attributes this module reads. *)
Record scf := Scf {
  mol_symmetry : bool;                (* mf.mol.symmetry *)
  xc : string;                        (* mf.xc *)
  mo_coeff : loc * loc;               (* mf.mo_coeff[0], mf.mo_coeff[1] *)
  mo_energy : loc * loc;
  mo_occ : loc * loc;
}.

(** One amplitude pair ((X_alpha, X_beta), (Y_alpha, Y_beta)). *)
Definition xyT : Type := (mat F * mat F) * (mat F * mat F).

(** The solver object [self]. *)
Record solver := Solver {
  t_scf : scf;                        (* self._scf *)
  t_wfnsym : option Z;
  t_nstates : nat;
  t_conv_tol : F;
  t_lindep : F;
  t_max_space : nat;
  t_verbose : nat;
  t_converged : option bool;
  t_e : option (vec F);
  t_xy : option (list xyT);
}.

(** What the checkpoint file holds under a key. *)
Inductive chkval :=
| ChkE (e : vec F)
| ChkXY (xy : list xyT).

(** Calls that leave this module, in the order they are made. *)
Inductive event :=
| EvIsHybridXc (x : string)
| EvCheckSanity
| EvDumpFlags
| EvGetOrbsym
| EvGenResponse
| EvGetPrecond
| EvInitGuess
| EvDavidson
| EvChkSave (key : string).

Record state := State {
  heap : list obj;
  td : solver;
  chkfile : gmap string chkval;
  trace : list event;
}.

Definition M (A : Type) : Type := state → result A * state.

Definition ret {A} (a : A) : M A := fun s => (Ok a, s).
Definition raise {A} (e : exn) : M A := fun s => (Err e, s).
Definition bind {A B} (m : M A) (k : A → M B) : M B :=
  fun s => match m s with
           | (Ok a, s') => k a s'
           | (Err e, s') => (Err e, s')
           end.
Definition lift {A} (r : result A) : M A := fun s => (r, s).

Definition set_heap (h : list obj) (s : state) : state :=
  State h (td s) (chkfile s) (trace s).
Definition set_td (t : solver) (s : state) : state :=
  State (heap s) t (chkfile s) (trace s).

(** A new array object. *)
Definition alloc (o : obj) : M loc :=
  fun s => (Ok (length (heap s)), set_heap (heap s ++ [o]) s).
Definition load (l : loc) : M obj :=
  fun s => match heap s !! l with
           | Some o => (Ok o, s)
           | None => (Err NameError, s)
           end.
(** In-place update of the array at [l]. *)
Definition store (l : loc) (o : obj) : M unit :=
  fun s => if decide (l < length (heap s))
           then (Ok tt, set_heap (<[l := o]> (heap s)) s)
           else (Err NameError, s).

Definition get_td : M solver := fun s => (Ok (td s), s).
Definition put_td (t : solver) : M unit := fun s => (Ok tt, set_td t s).
Definition log (e : event) : M unit :=
  fun s => (Ok tt, State (heap s) (td s) (chkfile s) (trace s ++ [e])).
End Model.

Arguments obj F : clear implicits.
Arguments solver F : clear implicits.
Arguments chkval F : clear implicits.
Arguments state F : clear implicits.
Arguments xyT F : clear implicits.
Arguments M F A : clear implicits.

Notation "x <- m ;; k" := (bind m (fun x => k))
  (at level 100, m at next level, right associativity,
   format "x  <-  m  ;; '//' k").
Notation "m ;; k" := (bind m (fun _ => k))
  (at level 100, right associativity, format "m  ;; '//' k").

(** ** Typed loads and loops *)

Section Loads.
Context {F : Type} `{Arith F}.

Definition load_vec (l : loc) : M F (vec F) :=
  o <- load l ;;
  match o with OVec v => ret v | _ => raise TypeError end.
Definition load_mat (l : loc) : M F (mat F) :=
  o <- load l ;;
  match o with OMat m => ret m | _ => raise TypeError end.
Definition load_mask (l : loc) : M F (list bool) :=
  o <- load l ;;
  match o with OMask b => ret b | _ => raise TypeError end.
Definition load_tens (l : loc) : M F (list (list (mat F))) :=
  o <- load l ;;
  match o with OTens t => ret t | _ => raise TypeError end.

(** [for a in xs: body(a)] *)
Fixpoint forM {A} (xs : list A) (body : A → M F unit) : M F unit :=
  match xs with
  | [] => ret tt
  | a :: r => body a ;; forM r body
  end.

(** [enumerate(xs)] *)
Definition enumerate {A} (xs : list A) : list (nat * A) := imap pair xs.

(** [numpy.empty((2,nz,nao,nao))]: the initial contents are unspecified
    (zeros here); every block is assigned before it is read. *)
Definition empty4 (nz nao : nat) : list (list (mat F)) :=
  replicate 2 (replicate nz (replicate nao (replicate nao fzero))).

(** The value [dm + dm.T] of order [nb], broadcast to a block of order
    [nao]: the orders agree, or the value is 1 x 1. *)
Definition bcast_block (nao nb : nat) (m : mat F) : result (mat F) :=
  if Nat.eqb nb nao then Ok m
  else if Nat.eqb nb 1 then Ok (replicate nao (replicate nao (mget m 0 0)))
  else Err ValueError.

(** [dmvo[sp, i] = m] *)
Definition set_block (l : loc) (sp i : nat) (nao nb : nat) (m : mat F) : M F unit :=
  t <- load_tens l ;;
  blk <- lift (bcast_block nao nb m) ;;
  batch <- lift (row sp t) ;;
  if decide (i < length batch)
  then store l (OTens (<[sp := <[i := blk]> batch]> t))
  else raise IndexError.

(** [hx[i] op= b] *)
Definition update_row (l : loc) (i : nat) (f : F → F → F) (b : vec F) : M F unit :=
  hx <- load_mat l ;;
  hxi <- lift (row i hx) ;;
  r <- lift (inplace2 f hxi b) ;;
  store l (OMat (<[i := r]> hx)).
End Loads.

(** ** The program *)

Section Program.
Context {F : Type} `{Arith F}.

(** The diagonal preconditioner handed to the solver, opaque here. *)
Context {Precond : Type}.

(** *** Code of other modules *)
(** [mf._numint.libxc.is_hybrid_xc] *)
Variable is_hybrid_xc : string → bool.
(** [uhf_symm.get_orbsym(mol, mo_coeff)]: the irrep ids of the orbitals *)
Variable get_orbsym : mat F * mat F → list Z * list Z.
(** [_gen_uhf_response(mf, mo_coeff, mo_occ, hermi=1)]: the response
    evaluator, from densities (2,nz,nao,nao) to potentials, per spin *)
Variable gen_uhf_response :
  mat F * mat F → vec F * vec F → list (list (mat F)) → list (mat F) * list (mat F).
(** [_ao2mo.nr_e2(v, mo_coeff, (i0,i1,j0,j1))]: the entries of the
    transformed blocks, in storage order *)
Variable nr_e2 : list (mat F) → mat F → nat * nat * nat * nat → vec F.
(** [self.get_precond(hdiag)] *)
Variable get_precond : vec F → Precond.
(** [self.init_guess(mf, nstates)], from the orbital energies and
    occupations *)
Variable init_guess : vec F * vec F → vec F * vec F → nat → mat F.
(** [lib.davidson1(aop, x0, precond, tol, nroots, lindep, max_space,
    verbose)]: (converged, eigenvalues, eigenvectors); an exception of
    [aop] is an exception of the call *)
Variable davidson1 :
  (mat F → result (mat F)) → mat F → Precond → F → nat → F → nat → nat →
  result (bool * vec F * mat F).
(** The checkpoint store, when it fails to write [value] under [key]
    into a file of the given contents: the exception it raises and what
    it leaves under the key (the old entry is deleted before the new one
    is written) *)
Variable chk_fault :
  gmap string (chkval F) → string → chkval F → option (exn * option (chkval F)).

(** [lib.chkfile.save(self.chkfile, key, value)]: the value replaces what
    the file held under the key; the other keys are not touched, also
    when the write fails. *)
Definition chk_save (key : string) (v : chkval F) : M F unit :=
  fun s =>
    match chk_fault (chkfile s) key v with
    | None => (Ok tt, State (heap s) (td s) (<[key := v]> (chkfile s))
                        (trace s ++ [EvChkSave key]))
    | Some (e, kept) =>
        (Err e, State (heap s) (td s)
                  (partial_alter (fun _ => kept) key (chkfile s))
                  (trace s ++ [EvChkSave key]))
    end.

(** *** The closure [vind]: the variables of [get_vind] it refers to *)
Record closure := Closure {
  c_wfnsym : option Z;
  c_symmetry : bool;                  (* mol.symmetry *)
  c_sym_forbid : option loc;          (* bound only when the filter is on *)
  c_dai : loc;
  c_edai : loc;
  c_orboa : loc; c_orbob : loc;
  c_orbva : loc; c_orbvb : loc;
  c_mo_coeff : loc * loc;
  c_nao : nat; c_nmo : nat;
  c_nocca : nat; c_noccb : nat;
  c_nvira : nat; c_nvirb : nat;
  c_vresp : list (list (mat F)) → list (mat F) * list (mat F);
}.

(** [wfnsym is not None and mol.symmetry] *)
Definition filter_on (wfnsym : option Z) (symmetry : bool) : bool :=
  match wfnsym with Some _ => symmetry | None => false end.

(** [(orbsym[vir].reshape(-1,1) ^ orbsym[occ]) != wfnsym], ravelled *)
Definition forbidden (wfnsym : Z) (sym_vir sym_occ : list Z) : list bool :=
  outer_flat (fun v o => negb (Z.eqb (Z.lxor v o) wfnsym)) sym_vir sym_occ.

(** [mo_energy[vir].reshape(-1,1) - mo_energy[occ]], flattened *)
Definition e_ai_spin (mo_energy mo_occ : vec F) : result (vec F) :=
  let? ev := take_idx mo_energy (viridx mo_occ) in
  let? eo := take_idx mo_energy (occidx mo_occ) in
  Ok (outer_flat fsub ev eo).

(** The transition density of one spin for the trial block [z]:
    [reduce(numpy.dot, (orbv, z, orbo.T))], then [dm + dm.T]. *)
Definition trans_density (nb nvir nocc : nat) (orbv z orbo : mat F) : mat F :=
  let dm := matmul nb nocc nb (matmul nb nvir nocc orbv z) (transpose nb nocc orbo) in
  symmetrize nb dm.

Definition get_vind (mf : scf) : M F (closure * loc) :=
  self <- get_td ;;
  let wfnsym := t_wfnsym self in
  ca <- load_mat (fst (mo_coeff mf)) ;;
  cb <- load_mat (snd (mo_coeff mf)) ;;
  ea <- load_vec (fst (mo_energy mf)) ;;
  eb <- load_vec (snd (mo_energy mf)) ;;
  oa <- load_vec (fst (mo_occ mf)) ;;
  ob <- load_vec (snd (mo_occ mf)) ;;
  let nao := length ca in
  let nmo := length (hd [] ca) in
  let occidxa := occidx oa in
  let occidxb := occidx ob in
  let viridxa := viridx oa in
  let viridxb := viridx ob in
  let nocca := length occidxa in
  let noccb := length occidxb in
  let nvira := length viridxa in
  let nvirb := length viridxb in
  orboa <- lift (take_cols ca occidxa) ;;
  orbob <- lift (take_cols cb occidxb) ;;
  orbva <- lift (take_cols ca viridxa) ;;
  orbvb <- lift (take_cols cb viridxb) ;;
  l_orboa <- alloc (OMat orboa) ;;
  l_orbob <- alloc (OMat orbob) ;;
  l_orbva <- alloc (OMat orbva) ;;
  l_orbvb <- alloc (OMat orbvb) ;;
  l_forbid <-
    (if filter_on wfnsym (mol_symmetry mf) then
       log EvGetOrbsym ;;
       let (orbsyma, orbsymb) := get_orbsym (ca, cb) in
       sva <- lift (take_idx orbsyma viridxa) ;;
       soa <- lift (take_idx orbsyma occidxa) ;;
       svb <- lift (take_idx orbsymb viridxb) ;;
       sob <- lift (take_idx orbsymb occidxb) ;;
       let w := default 0%Z wfnsym in
       l <- alloc (OMask (forbidden w sva soa ++ forbidden w svb sob)) ;;
       ret (Some l)
     else ret None) ;;
  e_ai_a <- lift (e_ai_spin ea oa) ;;
  e_ai_b <- lift (e_ai_spin eb ob) ;;
  l_e_ai <- alloc (OVec (e_ai_a ++ e_ai_b)) ;;
  (if filter_on wfnsym (mol_symmetry mf) then
     match l_forbid with
     | Some lm =>
         sym_forbid <- load_mask lm ;;
         e_ai <- load_vec l_e_ai ;;
         e_ai' <- lift (zero_where sym_forbid e_ai) ;;
         store l_e_ai (OVec e_ai')
     | None => raise NameError
     end
   else ret tt) ;;
  e_ai <- load_vec l_e_ai ;;
  l_dai <- alloc (OVec (map fsqrt e_ai)) ;;
  e_ai <- load_vec l_e_ai ;;
  dai <- load_vec l_dai ;;
  l_edai <- alloc (OVec (zip_with fmul e_ai dai)) ;;
  e_ai <- load_vec l_e_ai ;;
  l_hdiag <- alloc (OVec (map fsq e_ai)) ;;
  log EvGenResponse ;;
  let vresp := gen_uhf_response (ca, cb) (oa, ob) in
  ret (Closure wfnsym (mol_symmetry mf) l_forbid l_dai l_edai
         l_orboa l_orbob l_orbva l_orbvb (mo_coeff mf)
         nao nmo nocca noccb nvira nvirb vresp,
       l_hdiag).

(** The first loop of [vind]: the transition densities of trial vector [i]. *)
Definition vind_density (c : closure) (l_zs l_dmvo : loc) (i : nat) : M F unit :=
  dai <- load_vec (c_dai c) ;;
  zs <- load_mat l_zs ;;
  zi <- lift (row i zs) ;;
  z <- lift (bcast2 fmul dai zi) ;;
  za <- lift (reshape2 (c_nvira c) (c_nocca c) (take (c_nocca c * c_nvira c) z)) ;;
  zb <- lift (reshape2 (c_nvirb c) (c_noccb c) (drop (c_nocca c * c_nvira c) z)) ;;
  orbva <- load_mat (c_orbva c) ;;
  orboa <- load_mat (c_orboa c) ;;
  set_block l_dmvo 0 i (c_nao c) (length orbva)
    (trans_density (length orbva) (c_nvira c) (c_nocca c) orbva za orboa) ;;
  orbvb <- load_mat (c_orbvb c) ;;
  orbob <- load_mat (c_orbob c) ;;
  set_block l_dmvo 1 i (c_nao c) (length orbvb)
    (trans_density (length orbvb) (c_nvirb c) (c_noccb c) orbvb zb orbob).

(** The second loop of [vind]: the diagonal term and the final rescale. *)
Definition vind_diag (c : closure) (l_hx : loc) (iz : nat * vec F) : M F unit :=
  edai <- load_vec (c_edai c) ;;
  t <- lift (bcast2 fmul edai (snd iz)) ;;
  update_row l_hx (fst iz) fadd t ;;
  dai <- load_vec (c_dai c) ;;
  update_row l_hx (fst iz) fmul dai.

(** The symmetry filter of [vind]: the batch the rest of the call reads. *)
Definition vind_mask (c : closure) (l_zs : loc) : M F loc :=
  if filter_on (c_wfnsym c) (c_symmetry c) then
    zs <- load_mat l_zs ;;
    rows <- lift (np_copy zs) ;;                      (* numpy.copy(zs) *)
    l <- alloc (OMat rows) ;;
    match c_sym_forbid c with
    | Some lm =>
        sym_forbid <- load_mask lm ;;
        rows <- load_mat l ;;
        rows' <- lift (zero_cols sym_forbid rows) ;;
        store l (OMat rows') ;;                       (* zs[:,sym_forbid] = 0 *)
        ret l
    | None => raise NameError
    end
  else ret l_zs.

(** Everything of [vind] after the filter, on the batch at [l_zs]. *)
Definition vind_body (c : closure) (nz : nat) (l_zs : loc) : M F loc :=
  l_dmvo <- alloc (OTens (empty4 nz (c_nao c))) ;;
  forM (seq 0 nz) (vind_density c l_zs l_dmvo) ;;
  dmvo <- load_tens l_dmvo ;;
  let v1ao := c_vresp c dmvo in
  mo_a <- load_mat (fst (c_mo_coeff c)) ;;
  let v1a := nr_e2 (fst v1ao) mo_a (c_nocca c, c_nmo c, 0, c_nocca c) in
  mo_b <- load_mat (snd (c_mo_coeff c)) ;;
  let v1b := nr_e2 (snd v1ao) mo_b (c_noccb c, c_nmo c, 0, c_noccb c) in
  ra <- lift (reshape_rows nz v1a) ;;
  rb <- lift (reshape_rows nz v1b) ;;
  hx <- lift (hstack2 ra rb) ;;
  l_hx <- alloc (OMat hx) ;;
  zs <- load_mat l_zs ;;
  forM (enumerate zs) (vind_diag c l_hx) ;;
  ret l_hx.

Definition vind (c : closure) (l_zs : loc) : M F loc :=
  zs <- load_mat l_zs ;;
  let nz := length zs in
  l_zs' <- vind_mask c l_zs ;;
  vind_body c nz l_zs'.

(** *** The eigenpair reconstruction of [kernel] *)

(** [numpy.sqrt(numpy.hstack((e_ai_a.reshape(-1), e_ai_b.reshape(-1))))]:
    from the raw orbital-energy differences; no symmetry mask here. *)
Definition kernel_eai (ea eb oa ob : vec F) : result (vec F) :=
  let? e_ai_a := e_ai_spin ea oa in
  let? e_ai_b := e_ai_spin eb ob in
  Ok (map fsqrt (e_ai_a ++ e_ai_b)).

(** [zp = eai * z; zm = w/eai * z; x = (zp + zm) * .5; y = (zp - zm) * .5] *)
Definition amplitudes (eai : vec F) (w : F) (z : vec F) : result (vec F * vec F) :=
  let? zp := bcast2 fmul eai z in
  let? zm := bcast2 fmul (map (fun d => fdiv w d) eai) z in
  let? s := bcast2 fadd zp zm in
  let? d := bcast2 fsub zp zm in
  Ok (map (fun v => fmul v fhalf) s, map (fun v => fmul v fhalf) d).

(** [lib.norm(x)**2 - lib.norm(y)**2] *)
Definition xy_norm (x y : vec F) : F := fsub (fsq (norm x)) (fsq (norm y)).

(** [v[:nocca*nvira].reshape(nvira,nocca) * nrm] and
    [v[nocca*nvira:].reshape(nvirb,noccb) * nrm] *)
Definition scale (nrm : F) (m : mat F) : mat F := map (map (fun v => fmul v nrm)) m.
Definition split_scaled (nocca nvira noccb nvirb : nat) (nrm : F) (v : vec F)
  : result (mat F * mat F) :=
  let? a := reshape2 nvira nocca (take (nocca * nvira) v) in
  let? b := reshape2 nvirb noccb (drop (nocca * nvira) v) in
  Ok (scale nrm a, scale nrm b).

(** The end of the loop body, from [norm = ...] on: [None] when the
    pair is dropped, the energy and the scaled blocks otherwise. *)
Definition recon_accept (nocca nvira noccb nvirb : nat) (w : F) (x y : vec F)
  : result (option (F * xyT F)) :=
  let nrm := xy_norm x y in
  if fltb fzero nrm then
    let nrm := fdiv fone (fsqrt nrm) in
    let? xs := split_scaled nocca nvira noccb nvirb nrm x in
    let? ys := split_scaled nocca nvira noccb nvirb nrm y in
    Ok (Some (w, (xs, ys)))
  else Ok None.

(** The body of the loop for one eigenvalue and its vector. *)
Definition recon_one (eai : vec F) (nocca nvira noccb nvirb : nat)
    (w2i : F) (z : vec F) : result (option (F * xyT F)) :=
  if fltb w2i fzero then Ok None
  else
    let w := fsqrt w2i in
    let? xy := amplitudes eai w z in
    recon_accept nocca nvira noccb nvirb w (fst xy) (snd xy).

(** [for i, z in enumerate(x1): ...] with the lists [e] and [xy] *)
Fixpoint recon_loop (eai : vec F) (nocca nvira noccb nvirb : nat) (w2 : vec F)
    (izs : list (nat * vec F)) (e : vec F) (xy : list (xyT F))
  : result (vec F * list (xyT F)) :=
  match izs with
  | [] => Ok (e, xy)
  | (i, z) :: rest =>
      let? w2i := row i w2 in
      let? o := recon_one eai nocca nvira noccb nvirb w2i z in
      match o with
      | None => recon_loop eai nocca nvira noccb nvirb w2 rest e xy
      | Some (w, p) =>
          recon_loop eai nocca nvira noccb nvirb w2 rest (e ++ [w]) (xy ++ [p])
      end
  end.

Definition reconstruct (ea eb oa ob : vec F) (w2 : vec F) (x1 : mat F)
  : result (vec F * list (xyT F)) :=
  let nocca := length (occidx oa) in
  let noccb := length (occidx ob) in
  let nvira := length (viridx oa) in
  let nvirb := length (viridx ob) in
  let? eai := kernel_eai ea eb oa ob in
  recon_loop eai nocca nvira noccb nvirb w2 (enumerate x1) [] [].

(** The operator as the solver sees it: a batch in, a batch out. *)
Definition vind_apply (c : closure) (s : state F) (zs : mat F) : result (mat F) :=
  match alloc (OMat zs) s with
  | (Ok l, s1) =>
      match vind c l s1 with
      | (Ok l_hx, s2) =>
          match heap s2 !! l_hx with
          | Some (OMat hx) => Ok hx
          | _ => Err TypeError
          end
      | (Err e, _) => Err e
      end
  | (Err e, _) => Err e
  end.
(** *** The driver *)

Definition get_state : M F (state F) := fun s => (Ok s, s).

Definition set_nstates (n : nat) (t : solver F) : solver F :=
  Solver (t_scf t) (t_wfnsym t) n (t_conv_tol t) (t_lindep t) (t_max_space t)
    (t_verbose t) (t_converged t) (t_e t) (t_xy t).
Definition set_converged (c : bool) (t : solver F) : solver F :=
  Solver (t_scf t) (t_wfnsym t) (t_nstates t) (t_conv_tol t) (t_lindep t)
    (t_max_space t) (t_verbose t) (Some c) (t_e t) (t_xy t).
Definition set_e (e : vec F) (t : solver F) : solver F :=
  Solver (t_scf t) (t_wfnsym t) (t_nstates t) (t_conv_tol t) (t_lindep t)
    (t_max_space t) (t_verbose t) (t_converged t) (Some e) (t_xy t).
Definition set_xy (xy : list (xyT F)) (t : solver F) : solver F :=
  Solver (t_scf t) (t_wfnsym t) (t_nstates t) (t_conv_tol t) (t_lindep t)
    (t_max_space t) (t_verbose t) (t_converged t) (t_e t) (Some xy).
Definition modify_td (f : solver F → solver F) : M F unit :=
  self <- get_td ;; put_td (f self).

(** [kernel] up to the call of the solver: the operator, the
    preconditioner, the initial guess and the number of roots. *)
Definition kernel_setup (x0 : option (mat F)) (nstates : option nat)
  : M F (closure * Precond * mat F * nat) :=
  self <- get_td ;;
  let mf := t_scf self in
  log (EvIsHybridXc (xc mf)) ;;
  if is_hybrid_xc (xc mf) then raise RuntimeError
  else
    log EvCheckSanity ;;
    log EvDumpFlags ;;
    nstates <- match nstates with
               | None => ret (t_nstates self)
               | Some n => modify_td (set_nstates n) ;; ret n
               end ;;
    r <- get_vind mf ;;
    hdiag <- load_vec (snd r) ;;
    log EvGetPrecond ;;
    let precond := get_precond hdiag in
    x0 <- match x0 with
          | Some x => ret x
          | None =>
              self <- get_td ;;
              ea <- load_vec (fst (mo_energy mf)) ;;
              eb <- load_vec (snd (mo_energy mf)) ;;
              oa <- load_vec (fst (mo_occ mf)) ;;
              ob <- load_vec (snd (mo_occ mf)) ;;
              log EvInitGuess ;;
              ret (init_guess (ea, eb) (oa, ob) (t_nstates self))
          end ;;
    ret (fst r, precond, x0, nstates).

(** [kernel] after the solver has returned [(conv, w2, x1)]. *)
Definition kernel_finish (conv : bool) (w2 : vec F) (x1 : mat F)
  : M F (vec F * list (xyT F)) :=
  modify_td (set_converged conv) ;;
  self <- get_td ;;
  let mf := t_scf self in
  ea <- load_vec (fst (mo_energy mf)) ;;
  eb <- load_vec (snd (mo_energy mf)) ;;
  oa <- load_vec (fst (mo_occ mf)) ;;
  ob <- load_vec (snd (mo_occ mf)) ;;
  r <- lift (reconstruct ea eb oa ob w2 x1) ;;
  modify_td (set_e (fst r)) ;;
  modify_td (set_xy (snd r)) ;;
  chk_save "tddft/e" (ChkE (fst r)) ;;
  chk_save "tddft/xy" (ChkXY (snd r)) ;;
  ret r.

(** The call [lib.davidson1(vind, x0, precond, tol=..., ...)]. *)
Definition call_davidson (a : closure * Precond * mat F * nat)
  : M F (bool * vec F * mat F) :=
  let '(c, precond, x0, nstates) := a in
  self <- get_td ;;
  s <- get_state ;;
  log EvDavidson ;;
  lift (davidson1 (vind_apply c s) x0 precond (t_conv_tol self) nstates
          (t_lindep self) (t_max_space self) (t_verbose self)).

Definition kernel (x0 : option (mat F)) (nstates : option nat)
  : M F (vec F * list (xyT F)) :=
  a <- kernel_setup x0 nstates ;;
  r <- call_davidson a ;;
  kernel_finish (fst (fst r)) (snd (fst r)) (snd r).
End Program.

Arguments closure F : clear implicits.

(** ** The two arithmetics *)

(** IEEE binary64, round to nearest even: numpy's float64. *)
Definition b64_one : spec_float := S754_finite false 4503599627370496 (-52).
Definition b64_half : spec_float := S754_finite false 4503599627370496 (-53).

#[export] Instance binary64 : Arith spec_float := {|
  fzero := S754_zero false;
  fone := b64_one;
  fhalf := b64_half;
  fadd := SFadd 53 1024;
  fsub := SFsub 53 1024;
  fmul := SFmul 53 1024;
  fdiv := SFdiv 53 1024;
  fsqrt := SFsqrt 53 1024;
  fltb := SFltb;
  feqb := SFeqb;
|}.

(** Exact real arithmetic, for the normalisation identity.  [sqrt] and [/]
    are the total functions of the library ([sqrt] of a negative number and
    a quotient by 0 are 0); the identity uses them at a positive norm only,
    and holds for whatever amplitudes enter the rescale. *)
Definition Rltb (a b : R) : bool := if Rlt_dec a b then true else false.
Definition Reqb (a b : R) : bool := if Req_dec_T a b then true else false.

#[export] Instance real_arith : Arith R := {|
  fzero := 0%R;
  fone := 1%R;
  fhalf := (/ 2)%R;
  fadd := Rplus;
  fsub := Rminus;
  fmul := Rmult;
  fdiv := Rdiv;
  fsqrt := sqrt;
  fltb := Rltb;
  feqb := Reqb;
|}.

(** ** Vocabulary of the statements *)

(** What a run of the reconstruction loop appends: the outcomes of the
    loop body in order, the skipped ones left out. *)
Fixpoint collect {F : Type} (outs : list (option (F * xyT F)))
  : vec F * list (xyT F) :=
  match outs with
  | [] => ([], [])
  | None :: r => collect r
  | Some (w, p) :: r => (w :: fst (collect r), p :: snd (collect r))
  end.

(** Classes of binary64 values. *)
Definition is_zero_or_nan (v : spec_float) : bool :=
  match v with S754_zero _ | S754_nan => true | _ => false end.
Definition is_nonfinite (v : spec_float) : bool :=
  match v with S754_infinity _ | S754_nan => true | _ => false end.

Definition has_sign_or_nan (s : bool) (v : spec_float) : bool :=
  match v with
  | S754_zero s' | S754_infinity s' | S754_finite s' _ _ => Bool.eqb s s'
  | S754_nan => true
  end.
Definition is_posinf_or_nan (v : spec_float) : bool :=
  match v with S754_infinity false | S754_nan => true | _ => false end.
(** A binary64 datum: a finite one has a canonical mantissa and exponent. *)
Definition is_binary64 (v : spec_float) : bool := valid_binary 53 1024 v.

(** [frame n0 s s']: the state [s'] differs from [s] at most in heap
    objects at the locations from [n0] on; the solver object and the
    checkpoint file are those of [s]. *)
Definition frame {F : Type} (n0 : nat) (s s' : state F) : Prop :=
  n0 ≤ length (heap s') ∧
  take n0 (heap s') = take n0 (heap s) ∧
  td s' = td s ∧
  chkfile s' = chkfile s.

(** [safe q n0 m Q]: run in a state with at least [n0] objects, [m] keeps
    the frame at [n0], whatever its outcome; it makes no call that leaves
    the module when [q] is set; and the value it returns satisfies [Q]. *)
Definition safe {F A : Type} (q : bool) (n0 : nat) (m : M F A) (Q : A → Prop) : Prop :=
  ∀ s, n0 ≤ length (heap s) →
    frame n0 s (snd (m s)) ∧
    (if q then trace (snd (m s)) = trace s else True) ∧
    ∀ a, fst (m s) = Ok a → Q a.

(** [agree lz s1 s2]: the two states are the same except, possibly, for
    the object at [lz]. *)
Definition agree {F : Type} (lz : nat) (s1 s2 : state F) : Prop :=
  length (heap s1) = length (heap s2) ∧
  (∀ l, l ≠ lz → heap s1 !! l = heap s2 !! l) ∧
  td s1 = td s2 ∧ chkfile s1 = chkfile s2 ∧ trace s1 = trace s2.

(** [blind lz m Q]: [m] does not look at the object at [lz].  Run in two
    states that agree except at [lz], it has the same outcome in both and
    leaves states that agree except at [lz]; the value it returns
    satisfies [Q]. *)
Definition blind {F A : Type} (lz : nat) (m : M F A) (Q : A → Prop) : Prop :=
  ∀ s1 s2, lz < length (heap s1) → agree lz s1 s2 →
    fst (m s1) = fst (m s2) ∧
    agree lz (snd (m s1)) (snd (m s2)) ∧
    lz < length (heap (snd (m s1))) ∧
    ∀ a, fst (m s1) = Ok a → Q a.

(** The arrays captured by the closure are not the object at [lz]. *)
Definition closure_avoids {F : Type} (c : closure F) (lz : nat) : Prop :=
  c_dai c ≠ lz ∧ c_edai c ≠ lz ∧
  c_orboa c ≠ lz ∧ c_orbob c ≠ lz ∧ c_orbva c ≠ lz ∧ c_orbvb c ≠ lz ∧
  fst (c_mo_coeff c) ≠ lz ∧ snd (c_mo_coeff c) ≠ lz.


(** The sum of the squares of the entries, in exact arithmetic, and the
    quantity [sum(X^2) - sum(Y^2)] of an amplitude pair, summed over both
    spin blocks. *)
Definition sumsq (v : list R) : R := fold_right (fun a acc => (a * a + acc)%R) 0%R v.
Definition mat_sumsq (m : list (list R)) : R := sumsq (concat m).
Definition normalization (p : xyT R) : R :=
  ((mat_sumsq (fst (fst p)) + mat_sumsq (snd (fst p)))
   - (mat_sumsq (fst (snd p)) + mat_sumsq (snd (snd p))))%R.

(** A 2-D array of [r] rows and [c] columns. *)
Definition has_shape {F : Type} (r c : nat) (m : mat F) : Prop :=
  length m = r ∧ Forall (fun row => length row = c) m.

(** The four blocks of an amplitude pair have the shapes of the two
    excitation spaces, (nvir, nocc) per spin. *)
Definition xy_shaped {F : Type} (nocca nvira noccb nvirb : nat) (p : xyT F) : Prop :=
  has_shape nvira nocca (fst (fst p)) ∧ has_shape nvirb noccb (snd (fst p)) ∧
  has_shape nvira nocca (fst (snd p)) ∧ has_shape nvirb noccb (snd (snd p)).

(** A matrix equal to its transpose, entry by entry. *)
Definition is_symmetric {F : Type} `{Arith F} (m : mat F) : Prop :=
  ∀ i j, mget m i j = mget m j i.

(** More classes of binary64 values: below zero or NaN; above zero and
    finite. *)
Definition is_negative_or_nan (v : spec_float) : bool :=
  match v with
  | S754_infinity true | S754_finite true _ _ | S754_nan => true
  | _ => false
  end.
Definition is_pos_finite (v : spec_float) : bool :=
  match v with S754_finite false _ _ => true | _ => false end.

(** Every entry of [row] is a product with the entry of [d] at its place. *)
Definition scaled_by {F : Type} `{Arith F} (dai row : vec F) : Prop :=
  ∀ k dk x, dai !! k = Some dk → row !! k = Some x → ∃ u, x = fmul u dk.

(** The state in which [kernel] calls [get_vind]: the hybrid test,
    [check_sanity] and [dump_flags] have been called and [nstates], when
    given, has been stored. *)
Definition before_get_vind {F : Type} (nstates : option nat) (s : state F) : state F :=
  State (heap s)
    (match nstates with Some n => set_nstates n (td s) | None => td s end)
    (chkfile s)
    (trace s ++ [EvIsHybridXc (xc (t_scf (td s))); EvCheckSanity; EvDumpFlags]).

(** [blk] holds the columns [idx] of [m], in the order of [idx]. *)
Definition columns_of {F : Type} (m : mat F) (idx : list nat) (blk : mat F) : Prop :=
  has_shape (length m) (length idx) blk ∧
  ∀ r row k j, m !! r = Some row → idx !! k = Some j →
    ∃ x brow, row !! j = Some x ∧ blk !! r = Some brow ∧ brow !! k = Some x.

(** [z = dai * zs[i]], split and reshaped per spin, and the two transition
    densities as they are written to [dmvo[0,i]] and [dmvo[1,i]]. *)
Definition density_blocks {F : Type} `{Arith F} (c : closure F) (dai : vec F)
    (orbva orboa orbvb orbob : mat F) (zi : vec F) (blka blkb : mat F) : Prop :=
  ∃ z za zb,
    bcast2 fmul dai zi = Ok z ∧
    reshape2 (c_nvira c) (c_nocca c) (take (c_nocca c * c_nvira c) z) = Ok za ∧
    reshape2 (c_nvirb c) (c_noccb c) (drop (c_nocca c * c_nvira c) z) = Ok zb ∧
    bcast_block (c_nao c) (length orbva)
      (trans_density (length orbva) (c_nvira c) (c_nocca c) orbva za orboa)
    = Ok blka ∧
    bcast_block (c_nao c) (length orbvb)
      (trans_density (length orbvb) (c_nvirb c) (c_noccb c) orbvb zb orbob)
    = Ok blkb.

(** [hx[i] += edai * z; hx[i] *= dai], from the row [v] to the row [r]. *)
Definition diagonal_row {F : Type} `{Arith F} (dai edai v z r : vec F) : Prop :=
  ∃ t r1,
    bcast2 fmul edai z = Ok t ∧ inplace2 fadd v t = Ok r1 ∧
    inplace2 fmul r1 dai = Ok r.

(** The batch the operator works on: the caller's batch or, with the
    symmetry filter on, its copy with the forbidden places set to 0. *)
Definition masked_batch {F : Type} `{Arith F} (c : closure F) (h : list (obj F))
    (zs zs' : mat F) : Prop :=
  if filter_on (c_wfnsym c) (c_symmetry c)
  then ∃ lm mask, c_sym_forbid c = Some lm ∧ h !! lm = Some (OMask mask) ∧
                  zero_cols mask zs = Ok zs'
  else zs' = zs.

(** [raw] holds the virtual-minus-occupied differences of the orbital
    energies, the alpha block then the beta block; in each block the
    entry of the [ka]-th virtual and the [ki]-th occupied orbital is at
    [ka * nocc + ki]. *)
Definition energy_differences {F : Type} `{Arith F} (ea eb oa ob raw : vec F) : Prop :=
  let nocca := length (occidx oa) in
  let noccb := length (occidx ob) in
  let nvira := length (viridx oa) in
  let nvirb := length (viridx ob) in
  length raw = nvira * nocca + nvirb * noccb ∧
  (∀ ka ki a i, viridx oa !! ka = Some a → occidx oa !! ki = Some i →
     ∃ ev eo, ea !! a = Some ev ∧ ea !! i = Some eo ∧
       raw !! (ka * nocca + ki) = Some (fsub ev eo)) ∧
  (∀ kb ki b i, viridx ob !! kb = Some b → occidx ob !! ki = Some i →
     ∃ ev eo, eb !! b = Some ev ∧ eb !! i = Some eo ∧
       raw !! (nvira * nocca + (kb * noccb + ki)) = Some (fsub ev eo)).

(** The two blocks made of [v]: the entries of [v[:nocca*nvira]] and of
    [v[nocca*nvira:]], each times [nrm], laid out row by row in the
    shapes (nvira, nocca) and (nvirb, noccb). *)
Definition amplitude_blocks {F : Type} `{Arith F} (nocca nvira noccb nvirb : nat)
    (nrm : F) (v : vec F) (blk : mat F * mat F) : Prop :=
  has_shape nvira nocca (fst blk) ∧ has_shape nvirb noccb (snd blk) ∧
  concat (fst blk) = map (fun u => fmul u nrm) (take (nocca * nvira) v) ∧
  concat (snd blk) = map (fun u => fmul u nrm) (drop (nocca * nvira) v).

(** The amplitudes of one eigenvector [z]: with [w = sqrt(w2i)],
    [zp = sqrt(raw) * z] and [zm = w / sqrt(raw) * z] entry by entry, [x]
    and [y] hold the halves of [zp + zm] and of [zp - zm]. *)
Definition amplitudes_of {F : Type} `{Arith F} (raw : vec F) (w2i : F)
    (z x y : vec F) : Prop :=
  length x = length raw ∧ length y = length raw ∧
  ∀ k r zk, raw !! k = Some r → z !! k = Some zk →
    let w := fsqrt w2i in
    let zp := fmul (fsqrt r) zk in
    let zm := fmul (fdiv w (fsqrt r)) zk in
    x !! k = Some (fmul (fadd zp zm) fhalf) ∧
    y !! k = Some (fmul (fsub zp zm) fhalf).

(** What one pass of the reconstruction loop yields for the eigenvalue
    [w2i] and the eigenvector [z]: nothing when [w2i < 0] or when the norm
    [|x|^2 - |y|^2] of the amplitudes is not above 0; otherwise the energy
    [sqrt(w2i)] and the blocks of [x] and [y] times [1/sqrt(norm)]. *)
Definition pair_outcome {F : Type} `{Arith F} (raw : vec F)
    (nocca nvira noccb nvirb : nat) (w2i : F) (z : vec F)
    (o : option (F * xyT F)) : Prop :=
  if fltb w2i fzero then o = None
  else
    ∃ x y, amplitudes_of raw w2i z x y ∧
      let nrm := xy_norm x y in
      if fltb fzero nrm then
        ∃ xs ys,
          amplitude_blocks nocca nvira noccb nvirb (fdiv fone (fsqrt nrm)) x xs ∧
          amplitude_blocks nocca nvira noccb nvirb (fdiv fone (fsqrt nrm)) y ys ∧
          o = Some (fsqrt w2i, (xs, ys))
      else o = None.

(** ** A two-orbital system, for evaluating the model *)

Module Toy.
(** binary64 constants *)
Definition f0 : spec_float := S754_zero false.
Definition f1 : spec_float := b64_one.
Definition fh : spec_float := b64_half.
Definition fmh : spec_float := S754_finite true 4503599627370496 (-53).   (* -0.5 *)
Definition fm1 : spec_float := S754_finite true 4503599627370496 (-52).   (* -1 *)
Definition f4 : spec_float := S754_finite false 4503599627370496 (-50).   (* 4 *)

(** Per spin: one occupied orbital at -0.5 and one virtual orbital at the
    energy [ev]; identity coefficients. *)
Definition heap0 (ev : spec_float) : list (obj spec_float) :=
  [OMat [[f1; f0]; [f0; f1]]; OMat [[f1; f0]; [f0; f1]];
   OVec [fmh; ev]; OVec [fmh; ev]; OVec [f1; f0]; OVec [f1; f0]].
Definition mf (symmetry : bool) (xc : string) : scf :=
  Scf symmetry xc (0, 1) (2, 3) (4, 5).
Definition self (symmetry : bool) (xc : string) (wfnsym : option Z) : solver spec_float :=
  Solver (mf symmetry xc) wfnsym 3 f1 f1 50 0 None None None.
Definition st (symmetry : bool) (xc : string) (wfnsym : option Z) : state spec_float :=
  State (heap0 fh) (self symmetry xc wfnsym) ∅ [].

(** Stand-ins for the code of other modules. *)
Definition is_hybrid (xc : string) : bool := String.eqb xc "b3lyp".
Definition orbsym (_ : mat spec_float * mat spec_float) : list Z * list Z :=
  ([0; 1], [0; 0])%Z.
Definition resp (_ : mat spec_float * mat spec_float) (_ : vec spec_float * vec spec_float)
    (dm : list (list (mat spec_float))) : list (mat spec_float) * list (mat spec_float) :=
  (default [] (dm !! 0), default [] (dm !! 1)).
Definition e2 (v : list (mat spec_float)) (_ : mat spec_float)
    (_ : nat * nat * nat * nat) : vec spec_float :=
  map (fun m => mget m 1 0) v.
Definition precond (hdiag : vec spec_float) : vec spec_float := hdiag.
Definition guess (_ _ : vec spec_float * vec spec_float) (_ : nat) : mat spec_float :=
  [[f1; f0]; [f0; f1]].
(** A solver that applies the operator once and gives up: three
    eigenvalues 4, -1, 0 with three vectors, not converged. *)
Definition w2 : vec spec_float := [f4; fm1; f0].
Definition x1 : mat spec_float := [[f1; f0]; [f0; f1]; [f1; f1]].
Definition davidson (aop : mat spec_float → result (mat spec_float)) (x0 : mat spec_float)
    (_ : vec spec_float) (_ : spec_float) (_ : nat) (_ : spec_float) (_ _ : nat)
  : result (bool * vec spec_float * mat spec_float) :=
  match aop x0 with
  | Ok _ => Ok (false, w2, x1)
  | Err e => Err e
  end.

(** A checkpoint store that takes every write, and one that takes none. *)
Definition chk_ok (_ : gmap string (chkval spec_float)) (_ : string)
    (_ : chkval spec_float) : option (exn * option (chkval spec_float)) := None.
Definition chk_full (_ : gmap string (chkval spec_float)) (_ : string)
    (_ : chkval spec_float) : option (exn * option (chkval spec_float)) :=
  Some (OSError, None).

Definition run_kernel := kernel is_hybrid orbsym resp e2 precond guess davidson chk_ok.
Definition run_setup := kernel_setup is_hybrid orbsym resp precond guess.
Definition run_get_vind := get_vind orbsym resp.

(** The orbital energies and occupations of the system. *)
Definition ea : vec spec_float := [fmh; fh].
Definition oa : vec spec_float := [f1; f0].

(** What the model computes. *)
Definition recon := Eval vm_compute in reconstruct ea ea oa oa w2 x1.
Definition e_out : vec spec_float :=
  Eval vm_compute in match recon with Ok r => fst r | Err _ => [] end.
Definition xy_out : list (xyT spec_float) :=
  Eval vm_compute in match recon with Ok r => snd r | Err _ => [] end.
End Toy.

(** * Properties *)

(** ** The excitation space *)

Section ExcitationSpace.
Context {F : Type} `{Arith F}.

Lemma where_from_elem {A} (p : A → bool) (xs : list A) (k i : nat) :
  i ∈ where_from p k xs ↔
  ∃ j x, i = k + j ∧ xs !! j = Some x ∧ p x = true.
Proof.
  revert k. induction xs as [|x xs IH]; intros k; simpl.
  - split.
    + intros Hin. inversion Hin.
    + intros (j & x & _ & Hl & _). discriminate.
  - destruct (p x) eqn:Hp.
    + rewrite elem_of_cons, IH. split.
      * intros [-> | (j & y & -> & Hl & Hy)].
        -- exists 0, x. split; [lia | auto].
        -- exists (S j), y. split; [lia | auto].
      * intros (j & y & -> & Hl & Hy). destruct j as [|j]; simpl in Hl.
        -- left. lia.
        -- right. exists j, y. split; [lia | auto].
    + rewrite IH. split.
      * intros (j & y & -> & Hl & Hy). exists (S j), y. split; [lia | auto].
      * intros (j & y & -> & Hl & Hy). destruct j as [|j]; simpl in Hl.
        -- congruence.
        -- exists j, y. split; [lia | auto].
Qed.

Lemma where_from_sorted {A} (p : A → bool) (xs : list A) (k : nat) :
  StronglySorted lt (where_from p k xs).
Proof.
  revert k. induction xs as [|x xs IH]; intros k; simpl.
  - constructor.
  - destruct (p x); [|apply IH].
    constructor; [apply IH|].
    apply Forall_forall. intros i Hi.
    apply where_from_elem in Hi as (j & y & -> & _). lia.
Qed.

Lemma where_from_bound {A} (p : A → bool) (xs : list A) (k i : nat) :
  i ∈ where_from p k xs → i < k + length xs.
Proof.
  intros (j & x & -> & Hl & _)%where_from_elem.
  apply lookup_lt_Some in Hl. lia.
Qed.

(** C7.  The occupied list holds exactly the orbitals whose occupation
    is greater than 0 and the virtual list exactly those whose
    occupation equals 0; both are in ascending orbital order.  The two
    functions are total: there is no failing outcome. *)
Theorem excitation_space_partition (mo_occ : vec F) :
  (∀ i, i ∈ occidx mo_occ ↔ ∃ o, mo_occ !! i = Some o ∧ fltb fzero o = true) ∧
  (∀ i, i ∈ viridx mo_occ ↔ ∃ o, mo_occ !! i = Some o ∧ feqb o fzero = true) ∧
  StronglySorted lt (occidx mo_occ) ∧
  StronglySorted lt (viridx mo_occ).
Proof.
  unfold occidx, viridx, np_where.
  repeat split; try apply where_from_sorted.
  - intros (j & x & -> & Hl & Hp)%where_from_elem. eauto.
  - intros (o & Hl & Hp). apply where_from_elem. exists i, o. auto.
  - intros (j & x & -> & Hl & Hp)%where_from_elem. eauto.
  - intros (o & Hl & Hp). apply where_from_elem. exists i, o. auto.
Qed.
End ExcitationSpace.

(** ** The eigenpair reconstruction *)

Section Reconstruction.
Context {F : Type} `{Arith F}.

Lemma map_fmap {A B} (f : A → B) (l : list A) : map f l = f <$> l.
Proof. reflexivity. Qed.

Lemma bcast2_same (f : F → F → F) (a b : vec F) :
  length a = length b → bcast2 f a b = Ok (zip_with f a b).
Proof. intros E. unfold bcast2. rewrite E, Nat.eqb_refl. reflexivity. Qed.

Lemma amplitudes_same_length (eai : vec F) (w : F) (z : vec F) :
  length z = length eai →
  amplitudes eai w z =
  Ok (map (fun v => fmul v fhalf)
        (zip_with fadd (zip_with fmul eai z)
           (zip_with fmul (map (fun d => fdiv w d) eai) z)),
      map (fun v => fmul v fhalf)
        (zip_with fsub (zip_with fmul eai z)
           (zip_with fmul (map (fun d => fdiv w d) eai) z))).
Proof.
  intros E. unfold amplitudes.
  rewrite (bcast2_same fmul eai z) by congruence. simpl.
  rewrite (bcast2_same fmul _ z) by (rewrite length_map; congruence). simpl.
  rewrite !bcast2_same; [reflexivity | |];
    rewrite !length_zip_with, length_map; lia.
Qed.

End Reconstruction.


(** *** The loop and its body *)

Section ReconLoop.
Context {F : Type} `{Arith F}.

Lemma recon_loop_outs (eai : vec F) (a b c d : nat) (w2 : vec F)
    (izs : list (nat * vec F)) (e0 : vec F) (xy0 : list (xyT F))
    (e : vec F) (xy : list (xyT F)) :
  recon_loop eai a b c d w2 izs e0 xy0 = Ok (e, xy) →
  ∃ outs,
    Forall2 (fun iz o => ∃ w2i, w2 !! fst iz = Some w2i ∧
                                recon_one eai a b c d w2i (snd iz) = Ok o)
            izs outs ∧
    e = e0 ++ fst (collect outs) ∧ xy = xy0 ++ snd (collect outs).
Proof.
  revert e0 xy0. induction izs as [|[i z] izs IH]; intros e0 xy0; simpl.
  - intros [= <- <-]. exists []. rewrite !app_nil_r. repeat split. constructor.
  - unfold row. destruct (w2 !! i) as [w2i|] eqn:Hw; simpl; [|discriminate].
    destruct (recon_one eai a b c d w2i z) as [o|] eqn:Ho; simpl; [|discriminate].
    destruct o as [[w p]|]; intros Hl; apply IH in Hl as (outs & Hf & -> & ->).
    + exists (Some (w, p) :: outs). simpl. rewrite <- !app_assoc.
      repeat split. constructor; eauto.
    + exists (None :: outs). simpl. repeat split. constructor; eauto.
Qed.

Lemma collect_length (outs : list (option (F * xyT F))) :
  length (snd (collect outs)) = length (fst (collect outs)) ∧
  length (fst (collect outs)) ≤ length outs.
Proof.
  induction outs as [|[[w p]|] outs [IH1 IH2]]; simpl; split; lia.
Qed.

Lemma collect_elem (outs : list (option (F * xyT F))) (p : xyT F) :
  p ∈ snd (collect outs) → ∃ w, Some (w, p) ∈ outs.
Proof.
  induction outs as [|[[w q]|] outs IH]; simpl.
  - intros Hin. inversion Hin.
  - rewrite elem_of_cons. intros [-> | Hin].
    + exists w. left.
    + destruct (IH Hin) as [w' Hw']. exists w'. right. exact Hw'.
  - intros Hin. destruct (IH Hin) as [w' Hw']. exists w'. right. exact Hw'.
Qed.

Lemma fold_sq_map (x : vec F) (a : F) :
  fold_left (fun acc v => fadd acc (fmul v v)) x a
  = fold_left fadd (map fsq x) a.
Proof. revert a. induction x as [|v x IH]; intros a; simpl; [reflexivity|apply IH]. Qed.

Lemma norm_squares (x y : vec F) : map fsq x = map fsq y → norm x = norm y.
Proof. intros E. unfold norm. rewrite !fold_sq_map, E. reflexivity. Qed.

Lemma bcast2_Forall (P Q : F → Prop) (f : F → F → F) (a b r : vec F) :
  (∀ u v, Q u → P (f u v)) → Forall Q a → bcast2 f a b = Ok r → Forall P r.
Proof.
  intros Hf Ha. unfold bcast2.
  destruct (Nat.eqb (length a) (length b)).
  - intros [= <-]. revert b. induction Ha as [|u a Hu Ha IH]; intros [|v b];
      simpl; constructor; auto.
  - destruct a as [|u [|u' a]].
    + destruct b as [|v [|v' b]]; [discriminate| |discriminate].
      intros [= <-]. constructor.
    + intros [= <-]. inversion Ha; subst.
      induction b; simpl; constructor; auto.
    + destruct b as [|v [|v' b]]; [discriminate| |discriminate].
      revert Ha. generalize (u :: u' :: a). intros l Ha [= <-].
      induction Ha; simpl; constructor; auto.
Qed.

Lemma bcast2_Forall2 (P : F → Prop) (R : F → F → Prop) (f g : F → F → F)
    (a b r1 r2 : vec F) :
  (∀ u v, P v → R (f u v) (g u v)) → Forall P b →
  bcast2 f a b = Ok r1 → bcast2 g a b = Ok r2 → Forall2 R r1 r2.
Proof.
  intros Hf Hb. unfold bcast2.
  destruct (Nat.eqb (length a) (length b)).
  - intros [= <-] [= <-]. revert a. induction Hb as [|v b Hv Hb IH]; intros [|u a];
      simpl; constructor; auto.
  - destruct a as [|u [|u' a]].
    + destruct b as [|v [|v' b]]; [discriminate| |discriminate].
      intros [= <-] [= <-]. constructor.
    + intros [= <-] [= <-]. induction Hb; simpl; constructor; auto.
    + destruct b as [|v [|v' b]]; [discriminate| |discriminate].
      inversion Hb; subst. generalize (u :: u' :: a). intros l [= <-] [= <-].
      induction l; simpl; constructor; auto.
Qed.
End ReconLoop.

(** *** binary64: pairs whose eigenvalue is not positive are dropped *)

Section Binary64Discard.

Lemma zn_div (w e : spec_float) :
  is_zero_or_nan w = true → is_zero_or_nan (fdiv w e) = true.
Proof. destruct w as [sw|sw| |sw mw ew], e as [se|se| |se me ee]; try discriminate; reflexivity. Qed.

Lemma zn_mul (a b : spec_float) :
  is_zero_or_nan a = true → is_zero_or_nan (fmul a b) = true.
Proof. destruct a as [sa|sa| |sa ma ea], b as [sb|sb| |sb mb eb]; try discriminate; reflexivity. Qed.

Lemma zn_sqrt (a : spec_float) :
  is_zero_or_nan a = true → is_zero_or_nan (fsqrt a) = true.
Proof. destruct a as [sa|sa| |sa ma ea]; try discriminate; reflexivity. Qed.

Lemma zn_not_positive (v : spec_float) :
  is_zero_or_nan v = true → fltb fzero v = false.
Proof. destruct v as [s|s| |s m e]; try discriminate; reflexivity. Qed.

Lemma not_lt_not_gt_zn (v : spec_float) :
  fltb v fzero = false → fltb fzero v = false → is_zero_or_nan v = true.
Proof. destruct v as [s|[]| |[] m e]; try discriminate; reflexivity. Qed.

Lemma sub_diag_zn (n : spec_float) : is_zero_or_nan (fsub n n) = true.
Proof.
  destruct n as [[]|[]| |s m e]; try reflexivity.
  cbn [fsub binary64]. cbv [SFsub]. rewrite Z.sub_diag. reflexivity.
Qed.

(** Adding or subtracting a zero or a NaN: the halves have equal squares. *)
Lemma half_sq_pm (p m : spec_float) :
  is_zero_or_nan m = true →
  fsq (fmul (fadd p m) fhalf) = fsq (fmul (fsub p m) fhalf).
Proof.
  destruct m as [[]|sm| |sm mm em]; try discriminate; intros _;
    destruct p as [[]|[]| |sp mp ep]; reflexivity.
Qed.

Lemma amplitudes_squares (eai : vec spec_float) (w : spec_float)
    (z x y : vec spec_float) :
  is_zero_or_nan w = true →
  amplitudes eai w z = Ok (x, y) →
  map fsq x = map fsq y.
Proof.
  intros Hw. unfold amplitudes.
  destruct (bcast2 fmul eai z) as [zp|] eqn:Hzp; cbn [rbind]; [|discriminate].
  destruct (bcast2 fmul (map (fun d => fdiv w d) eai) z) as [zm|] eqn:Hzm;
    cbn [rbind]; [|discriminate].
  destruct (bcast2 fadd zp zm) as [s|] eqn:Hs; cbn [rbind]; [|discriminate].
  destruct (bcast2 fsub zp zm) as [d|] eqn:Hd; cbn [rbind]; [|discriminate].
  intros [= <- <-].
  assert (Hzn : Forall (fun v => is_zero_or_nan v = true) zm).
  { eapply (bcast2_Forall _ (fun v => is_zero_or_nan v = true)); [| |exact Hzm].
    - intros u v Hu. apply zn_mul, Hu.
    - apply Forall_forall. intros v Hv. rewrite map_fmap in Hv.
      apply list_elem_of_fmap in Hv as (e & -> & _). apply zn_div, Hw. }
  assert (HR : Forall2 (fun u v => fsq (fmul u fhalf) = fsq (fmul v fhalf)) s d).
  { eapply (bcast2_Forall2 (fun v => is_zero_or_nan v = true)); [|exact Hzn|exact Hs|exact Hd].
    intros u v Hv. apply half_sq_pm, Hv. }
  clear Hs Hd.
  induction HR as [|u v s d Huv HR IH]; simpl; [reflexivity|].
  f_equal; [exact Huv|exact IH].
Qed.

Lemma xy_norm_same_squares (x y : vec spec_float) :
  map fsq x = map fsq y → fltb fzero (xy_norm x y) = false.
Proof.
  intros E. unfold xy_norm. rewrite (norm_squares x y E).
  apply zn_not_positive, sub_diag_zn.
Qed.

Lemma recon_one_nonpositive (eai : vec spec_float) (a b c d : nat)
    (w2i : spec_float) (z : vec spec_float) (o : option (spec_float * xyT spec_float)) :
  recon_one eai a b c d w2i z = Ok o →
  fltb fzero w2i = false →
  o = None.
Proof.
  unfold recon_one. destruct (fltb w2i fzero) eqn:Hlt; [congruence|].
  intros Hr Hgt.
  destruct (amplitudes eai (fsqrt w2i) z) as [[x y]|] eqn:Ha; simpl in Hr;
    [|discriminate].
  unfold recon_accept in Hr.
  rewrite xy_norm_same_squares in Hr; [congruence|].
  eapply amplitudes_squares; [|exact Ha].
  apply zn_sqrt, not_lt_not_gt_zn; assumption.
Qed.
End Binary64Discard.

(** ** The layout of the excitation vectors *)

Section Layout.
Context {F : Type} `{Arith F}.

Lemma mapR_lookup {A B} (f : A → result B) (l : list A) (r : list B) :
  mapR f l = Ok r →
  length r = length l ∧
  ∀ j a, l !! j = Some a → ∃ b, f a = Ok b ∧ r !! j = Some b.
Proof.
  revert r. induction l as [|a l IH]; intros r; simpl.
  - intros [= <-]. split; [reflexivity|]. intros j a Hj. discriminate.
  - destruct (f a) as [b|] eqn:Hb; cbn [rbind]; [|discriminate].
    destruct (mapR f l) as [bs|]; cbn [rbind]; [|discriminate].
    intros [= <-]. destruct (IH bs eq_refl) as [Hlen Hall].
    split; [simpl; lia|].
    intros [|j] a' Hj; simpl in Hj.
    + injection Hj as <-. exists b. auto.
    + apply Hall, Hj.
Qed.

Lemma take_idx_lookup {A} (a : list A) (idx : list nat) (l : list A) :
  take_idx a idx = Ok l →
  length l = length idx ∧
  ∀ j i, idx !! j = Some i → ∃ x, a !! i = Some x ∧ l !! j = Some x.
Proof.
  intros [Hlen Hall]%mapR_lookup. split; [exact Hlen|].
  intros j i Hj. destruct (Hall j i Hj) as (x & Hx & Hl).
  destruct (a !! i) as [x'|]; [|discriminate].
  injection Hx as ->. eauto.
Qed.

Lemma outer_flat_length {A B} (f : A → A → B) (v u : list A) :
  length (outer_flat f v u) = length v * length u.
Proof.
  unfold outer_flat. induction v as [|x v IH]; simpl; [reflexivity|].
  rewrite length_app, length_map, IH. reflexivity.
Qed.

(** Row [a], column [i] of [v.reshape(-1,1) op u] is entry
    [a * len(u) + i] of the flattened array. *)
Lemma outer_flat_lookup {A B} (f : A → A → B) (v u : list A) (a i : nat) (x y : A) :
  v !! a = Some x → u !! i = Some y →
  outer_flat f v u !! (a * length u + i) = Some (f x y).
Proof.
  unfold outer_flat. revert a. induction v as [|x' v IH]; intros a Ha Hi;
    [discriminate|].
  simpl. destruct a as [|a]; simpl in Ha.
  - injection Ha as ->. simpl. rewrite lookup_app_l.
    + rewrite map_fmap, list_lookup_fmap, Hi. reflexivity.
    + rewrite length_map. eapply lookup_lt_Some, Hi.
  - rewrite lookup_app_r; rewrite length_map; [|lia].
    replace (S a * length u + i - length u) with (a * length u + i) by lia.
    apply IH; assumption.
Qed.

Lemma e_ai_spin_entry (e o raw : vec F) (a i : nat) (ev eo : F) :
  e_ai_spin e o = Ok raw →
  a ∈ viridx o → i ∈ occidx o →
  e !! a = Some ev → e !! i = Some eo →
  length raw = length (viridx o) * length (occidx o) ∧
  ∃ ka ki, viridx o !! ka = Some a ∧ occidx o !! ki = Some i ∧
           raw !! (ka * length (occidx o) + ki) = Some (fsub ev eo).
Proof.
  unfold e_ai_spin.
  destruct (take_idx e (viridx o)) as [evs|] eqn:Hv; cbn [rbind]; [|discriminate].
  destruct (take_idx e (occidx o)) as [eos|] eqn:Ho; cbn [rbind]; [|discriminate].
  intros [= <-] Ha Hi Hev Heo.
  apply take_idx_lookup in Hv as [Hlv Hv], Ho as [Hlo Ho].
  split; [rewrite outer_flat_length; congruence|].
  apply list_elem_of_lookup in Ha as [ka Hka], Hi as [ki Hki].
  exists ka, ki. split; [exact Hka|]. split; [exact Hki|].
  destruct (Hv ka a Hka) as (x & Hx & Hlx).
  destruct (Ho ki i Hki) as (y & Hy & Hly).
  rewrite <- Hlo. rewrite Hev in Hx. rewrite Heo in Hy.
  injection Hx as <-. injection Hy as <-.
  apply outer_flat_lookup; assumption.
Qed.

Lemma zero_cols_rows (mask : list bool) (zs zs' : mat F) :
  zero_cols mask zs = Ok zs' → zs ≠ [] ∧ mapR (zero_where mask) zs = Ok zs'.
Proof. unfold zero_cols. destruct zs; [discriminate|]. intros Hz. split; [discriminate|exact Hz]. Qed.

Lemma np_copy_inv (zs rows : mat F) : np_copy zs = Ok rows → rows = zs.
Proof.
  unfold np_copy. destruct zs as [|z r]; [congruence|].
  destruct (forallb _ r); [congruence|discriminate].
Qed.

Lemma np_copy_same_length (zs : mat F) (n : nat) :
  Forall (fun z => length z = n) zs → np_copy zs = Ok zs.
Proof.
  unfold np_copy. destruct zs as [|z r]; [reflexivity|].
  intros Hall. apply Forall_cons in Hall as [Hz Hr].
  replace (forallb _ r) with true; [reflexivity|].
  symmetry. apply forallb_forall. intros z' Hin.
  apply Nat.eqb_eq. rewrite Hz. eapply Forall_forall in Hr; [exact Hr|].
  apply list_elem_of_In, Hin.
Qed.

Lemma zero_cols_np_copy (mask : list bool) (zs zs' : mat F) :
  zero_cols mask zs = Ok zs' → np_copy zs = Ok zs.
Proof.
  intros [_ [_ Hall]%mapR_lookup]%zero_cols_rows.
  apply (np_copy_same_length zs (length mask)), Forall_lookup.
  intros i z Hz. destruct (Hall i z Hz) as (r & Hr & _).
  unfold zero_where in Hr.
  destruct (Nat.eqb (length mask) (length z)) eqn:E; [|discriminate].
  apply Nat.eqb_eq in E. congruence.
Qed.

Lemma np_copy_ragged (zs : mat F) (i j : nat) (zi zj : vec F) :
  zs !! i = Some zi → zs !! j = Some zj → length zi ≠ length zj →
  np_copy zs = Err ValueError.
Proof.
  intros Hi Hj Hne. destruct (np_copy zs) as [rows|e] eqn:Hcp.
  - exfalso. unfold np_copy in Hcp. destruct zs as [|z r]; [discriminate|].
    destruct (forallb _ r) eqn:Hall; [|discriminate].
    assert (Hlen : ∀ k zk, (z :: r) !! k = Some zk → length zk = length z).
    { intros [|k] zk Hk; [injection Hk as <-; reflexivity|].
      cbn in Hk. apply Nat.eqb_eq.
      eapply (proj1 (forallb_forall _ r) Hall), list_elem_of_In, list_elem_of_lookup_2, Hk. }
    rewrite (Hlen i zi Hi), (Hlen j zj Hj) in Hne. contradiction.
  - unfold np_copy in Hcp. destruct zs as [|z r]; [discriminate|].
    destruct (forallb _ r); [discriminate|congruence].
Qed.

Lemma zero_rows_wrong_length (mask : list bool) (zs : mat F) :
  Exists (fun z => length z ≠ length mask) zs →
  mapR (zero_where mask) zs = Err IndexError.
Proof.
  induction zs as [|z zs IH]; intros Hex; [inversion Hex|].
  cbn [mapR]. unfold zero_where at 1.
  destruct (Nat.eqb (length mask) (length z)) eqn:E; cbn [rbind]; [|reflexivity].
  apply Nat.eqb_eq in E.
  apply Exists_cons in Hex as [Hz|Hex]; [congruence|].
  rewrite (IH Hex). reflexivity.
Qed.

Lemma zero_cols_wrong_length (mask : list bool) (zs : mat F) :
  Exists (fun z => length z ≠ length mask) zs →
  zero_cols mask zs = Err IndexError.
Proof.
  intros Hex. unfold zero_cols. destruct zs as [|z r]; [reflexivity|].
  apply zero_rows_wrong_length, Hex.
Qed.

Lemma e_ai_spin_entries (e o raw : vec F) :
  e_ai_spin e o = Ok raw →
  length raw = length (viridx o) * length (occidx o) ∧
  ∀ ka ki a i, viridx o !! ka = Some a → occidx o !! ki = Some i →
    ∃ ev eo, e !! a = Some ev ∧ e !! i = Some eo ∧
      raw !! (ka * length (occidx o) + ki) = Some (fsub ev eo).
Proof.
  unfold e_ai_spin.
  destruct (take_idx e (viridx o)) as [evs|] eqn:Hv; cbn [rbind]; [|discriminate].
  destruct (take_idx e (occidx o)) as [eos|] eqn:Ho; cbn [rbind]; [|discriminate].
  intros [= <-].
  apply take_idx_lookup in Hv as [Hlv Hv], Ho as [Hlo Ho].
  split; [rewrite outer_flat_length; congruence|].
  intros ka ki a i Hka Hki.
  destruct (Hv ka a Hka) as (x & Hx & Hlx).
  destruct (Ho ki i Hki) as (y & Hy & Hly).
  exists x, y. split; [exact Hx|]. split; [exact Hy|].
  rewrite <- Hlo. apply outer_flat_lookup; assumption.
Qed.

Lemma energy_differences_app (ea eb oa ob raw_a raw_b : vec F) :
  e_ai_spin ea oa = Ok raw_a → e_ai_spin eb ob = Ok raw_b →
  energy_differences ea eb oa ob (raw_a ++ raw_b).
Proof.
  intros [Hla Ha]%e_ai_spin_entries [Hlb Hb]%e_ai_spin_entries.
  unfold energy_differences. cbn zeta.
  split; [rewrite length_app; congruence|]. split.
  - intros ka ki a i Hka Hki.
    destruct (Ha ka ki a i Hka Hki) as (ev & eo & Hev & Heo & Hr).
    exists ev, eo. split; [exact Hev|]. split; [exact Heo|].
    rewrite lookup_app_l by (eapply lookup_lt_Some, Hr). exact Hr.
  - intros kb ki b i Hkb Hki.
    destruct (Hb kb ki b i Hkb Hki) as (ev & eo & Hev & Heo & Hr).
    exists ev, eo. split; [exact Hev|]. split; [exact Heo|].
    rewrite lookup_app_r by lia. rewrite <- Hla.
    replace (length raw_a + (kb * length (occidx ob) + ki) - length raw_a)
      with (kb * length (occidx ob) + ki) by lia.
    exact Hr.
Qed.
End Layout.

Section ReconstructTotal.
Context {F : Type} `{Arith F}.

Lemma mapR_total {A B} (f : A → result B) (l : list A) :
  Forall (fun a => ∃ b, f a = Ok b) l → ∃ r, mapR f l = Ok r.
Proof.
  induction 1 as [|a l [b Hb] _ [r Hr]]; cbn [mapR]; [eauto|].
  rewrite Hb, Hr. cbn [rbind]. eauto.
Qed.

Lemma take_idx_total {A} (a : list A) (p : F → bool) (xs : vec F) :
  length xs ≤ length a → ∃ r, take_idx a (np_where p xs) = Ok r.
Proof.
  intros Hlen. apply mapR_total, Forall_forall. intros i Hi.
  apply where_from_bound in Hi.
  destruct (lookup_lt_is_Some_2 a i) as [x ->]; [lia|eauto].
Qed.


Lemma e_ai_spin_total (e o : vec F) :
  length e = length o → ∃ raw, e_ai_spin e o = Ok raw.
Proof.
  intros Hlen. unfold e_ai_spin, viridx, occidx.
  destruct (take_idx_total e (fun x => feqb x fzero) o) as [ev ->]; [lia|].
  destruct (take_idx_total e (fun x => fltb fzero x) o) as [eo ->]; [lia|].
  cbn [rbind]. eauto.
Qed.

Lemma split_scaled_total (nocca nvira noccb nvirb : nat) (nrm : F) (v : vec F) :
  length v = nvira * nocca + nvirb * noccb →
  ∃ p, split_scaled nocca nvira noccb nvirb nrm v = Ok p.
Proof.
  intros Hv. unfold split_scaled, reshape2.
  rewrite length_take, length_drop.
  replace (Nat.eqb (Nat.min (nocca * nvira) (length v)) (nvira * nocca)) with true
    by (symmetry; apply Nat.eqb_eq; lia).
  cbn [rbind].
  replace (Nat.eqb (length v - nocca * nvira) (nvirb * noccb)) with true
    by (symmetry; apply Nat.eqb_eq; lia).
  cbn [rbind]. eauto.
Qed.

Lemma amplitudes_lengths (eai : vec F) (w : F) (z x y : vec F) :
  length z = length eai → amplitudes eai w z = Ok (x, y) →
  length x = length eai ∧ length y = length eai.
Proof.
  intros Hz. rewrite amplitudes_same_length by exact Hz. intros [= <- <-].
  rewrite !length_map, !length_zip_with, !length_map. lia.
Qed.

Lemma recon_one_total (eai : vec F) (nocca nvira noccb nvirb : nat) (w2i : F) (z : vec F) :
  length eai = nvira * nocca + nvirb * noccb →
  length z = length eai →
  ∃ o, recon_one eai nocca nvira noccb nvirb w2i z = Ok o.
Proof.
  intros He Hz. unfold recon_one. destruct (fltb w2i fzero); [eauto|].
  destruct (amplitudes eai (fsqrt w2i) z) as [[x y]|] eqn:Ha.
  - destruct (amplitudes_lengths _ _ _ _ _ Hz Ha) as [Hx Hy].
    cbn [rbind fst snd]. unfold recon_accept.
    destruct (fltb fzero (xy_norm x y)); [|eauto].
    destruct (split_scaled_total nocca nvira noccb nvirb
                (fdiv fone (fsqrt (xy_norm x y))) x) as [xs ->]; [lia|].
    destruct (split_scaled_total nocca nvira noccb nvirb
                (fdiv fone (fsqrt (xy_norm x y))) y) as [ys ->]; [lia|].
    cbn [rbind]. eauto.
  - rewrite amplitudes_same_length in Ha by exact Hz. discriminate.
Qed.

Lemma recon_loop_total (eai : vec F) (nocca nvira noccb nvirb : nat) (w2 : vec F)
    (izs : list (nat * vec F)) (e : vec F) (xy : list (xyT F)) :
  length eai = nvira * nocca + nvirb * noccb →
  Forall (fun iz => fst iz < length w2 ∧ length (snd iz) = length eai) izs →
  ∃ r, recon_loop eai nocca nvira noccb nvirb w2 izs e xy = Ok r.
Proof.
  intros He Hall. revert e xy.
  induction Hall as [|[i z] izs [Hi Hz] Hall IH]; intros e xy; cbn [recon_loop].
  - eauto.
  - cbn [fst snd] in Hi, Hz. unfold row.
    destruct (lookup_lt_is_Some_2 w2 i Hi) as [w2i ->]. cbn [rbind].
    destruct (recon_one_total eai nocca nvira noccb nvirb w2i z He Hz) as [o ->].
    cbn [rbind]. destruct o as [[w p]|]; apply IH.
Qed.

Lemma e_ai_spin_length (e o raw : vec F) :
  e_ai_spin e o = Ok raw → length raw = length (viridx o) * length (occidx o).
Proof.
  unfold e_ai_spin.
  destruct (take_idx e (viridx o)) as [ev|] eqn:Hv; cbn [rbind]; [|discriminate].
  destruct (take_idx e (occidx o)) as [eo|] eqn:Ho; cbn [rbind]; [|discriminate].
  intros [= <-]. apply take_idx_lookup in Hv as [Hv _], Ho as [Ho _].
  rewrite outer_flat_length. congruence.
Qed.

(** The reconstruction returns when the solver kept its contract: an
    eigenvalue for every eigenvector, and eigenvectors of the length of the
    excitation space. *)
Lemma reconstruct_total (ea eb oa ob raw_a raw_b w2 : vec F) (x1 : mat F) :
  e_ai_spin ea oa = Ok raw_a → e_ai_spin eb ob = Ok raw_b →
  length x1 ≤ length w2 →
  Forall (fun z => length z = length (viridx oa) * length (occidx oa)
                           + length (viridx ob) * length (occidx ob)) x1 →
  ∃ r, reconstruct ea eb oa ob w2 x1 = Ok r.
Proof.
  intros Ha Hb Hlen Hall. unfold reconstruct, kernel_eai.
  rewrite Ha, Hb. cbn [rbind].
  assert (He : length (map fsqrt (raw_a ++ raw_b))
               = length (viridx oa) * length (occidx oa)
                 + length (viridx ob) * length (occidx ob)).
  { rewrite length_map, length_app.
    rewrite (e_ai_spin_length _ _ _ Ha), (e_ai_spin_length _ _ _ Hb). reflexivity. }
  apply recon_loop_total; [exact He|].
  apply Forall_lookup. intros i [j z] Hiz. unfold enumerate in Hiz.
  rewrite list_lookup_imap in Hiz.
  destruct (x1 !! i) as [z'|] eqn:Hz; [|discriminate].
  injection Hiz as <- <-. cbn [fst snd]. split.
  - apply lookup_lt_Some in Hz. lia.
  - rewrite He. eapply Forall_lookup_1 in Hall; [exact Hall|exact Hz].
Qed.
End ReconstructTotal.

Section DiscardProperty.

Lemma recon_one_norm {F : Type} `{Arith F} (eai : vec F) (a b c d : nat)
    (w2i : F) (z x y : vec F) (o : option (F * xyT F)) :
  recon_one eai a b c d w2i z = Ok o →
  amplitudes eai (fsqrt w2i) z = Ok (x, y) →
  fltb fzero (xy_norm x y) = false →
  o = None.
Proof.
  unfold recon_one. destruct (fltb w2i fzero); [congruence|].
  intros Hr Ha Hn. rewrite Ha in Hr. cbn [rbind fst snd] in Hr.
  unfold recon_accept in Hr. rewrite Hn in Hr. congruence.
Qed.

Lemma enumerate_outs {F : Type} `{Arith F} (eai : vec F) (a b c d : nat)
    (w2 : vec F) (x1 : mat F) (outs : list (option (F * xyT F))) :
  Forall2 (fun iz o => ∃ w2i, w2 !! fst iz = Some w2i ∧
                              recon_one eai a b c d w2i (snd iz) = Ok o)
          (enumerate x1) outs →
  length outs = length x1 ∧ length x1 ≤ length w2 ∧
  ∀ i z, x1 !! i = Some z →
    ∃ w2i o, w2 !! i = Some w2i ∧ outs !! i = Some o ∧
             recon_one eai a b c d w2i z = Ok o.
Proof.
  intros Hf.
  assert (Hlen : length outs = length x1).
  { apply Forall2_length in Hf. unfold enumerate in Hf.
    rewrite length_imap in Hf. lia. }
  assert (Hall : ∀ i z, x1 !! i = Some z →
            ∃ w2i o, w2 !! i = Some w2i ∧ outs !! i = Some o ∧
                     recon_one eai a b c d w2i z = Ok o).
  { intros i z Hz.
    assert (Hiz : enumerate x1 !! i = Some (i, z)).
    { unfold enumerate. rewrite list_lookup_imap, Hz. reflexivity. }
    destruct (Forall2_lookup_l _ _ _ _ _ Hf Hiz) as (o & Ho & w2i & Hw & Hr).
    exists w2i, o. auto. }
  split; [exact Hlen|]. split; [|exact Hall].
  destruct (decide (length x1 ≤ length w2)) as [|Hgt]; [assumption|].
  destruct (lookup_lt_is_Some_2 x1 (length w2)) as [z Hz]; [lia|].
  destruct (Hall _ _ Hz) as (w2i & o & Hw & _).
  apply lookup_lt_Some in Hw. lia.
Qed.

(** C2.  The reconstruction returns a result set whenever the solver
    kept its contract (an eigenvalue for every eigenvector, eigenvectors
    of the length of the excitation space).  Whenever it returns, its
    result is what the loop body yields for each eigenvector in turn, and
    the body yields nothing, without an error, for an eigenvector whose
    eigenvalue is not positive and for one whose norm [|x|^2 - |y|^2] is
    not positive.  The result has at most as many entries as there are
    eigenvalues. *)
Theorem discard_property (ea eb oa ob w2 : vec spec_float) (x1 : mat spec_float) :
  (∀ raw_a raw_b,
     e_ai_spin ea oa = Ok raw_a → e_ai_spin eb ob = Ok raw_b →
     length x1 ≤ length w2 →
     Forall (fun z => length z = length (viridx oa) * length (occidx oa)
                              + length (viridx ob) * length (occidx ob)) x1 →
     ∃ r, reconstruct ea eb oa ob w2 x1 = Ok r) ∧
  ∀ (e : vec spec_float) (xy : list (xyT spec_float)),
    reconstruct ea eb oa ob w2 x1 = Ok (e, xy) →
    ∃ (eai : vec spec_float) (outs : list (option (spec_float * xyT spec_float))),
      kernel_eai ea eb oa ob = Ok eai ∧
      length outs = length x1 ∧
      (e, xy) = collect outs ∧
      (∀ i z, x1 !! i = Some z →
         ∃ w2i o,
           w2 !! i = Some w2i ∧ outs !! i = Some o ∧
           recon_one eai (length (occidx oa)) (length (viridx oa))
             (length (occidx ob)) (length (viridx ob)) w2i z = Ok o ∧
           (fltb fzero w2i = false → o = None) ∧
           (∀ x y, amplitudes eai (fsqrt w2i) z = Ok (x, y) →
                   fltb fzero (xy_norm x y) = false → o = None)) ∧
      length e ≤ length w2 ∧ length e ≤ length x1 ∧ length xy = length e.
Proof.
  split; [intros raw_a raw_b; apply reconstruct_total|].
  intros e xy. unfold reconstruct.
  destruct (kernel_eai ea eb oa ob) as [eai|] eqn:He; cbn [rbind]; [|discriminate].
  intros Hl. apply recon_loop_outs in Hl as (outs & Hf & -> & ->).
  apply enumerate_outs in Hf as (Hlen & Hle & Hall).
  exists eai, outs. split; [reflexivity|]. split; [exact Hlen|].
  split; [destruct (collect outs); reflexivity|]. split.
  - intros i z Hz. destruct (Hall i z Hz) as (w2i & o & Hw & Ho & Hr).
    exists w2i, o. repeat split; try assumption.
    + intros Hnp. eapply recon_one_nonpositive; eassumption.
    + intros x y Ha Hn. eapply recon_one_norm; eassumption.
  - destruct (collect_length outs) as [E1 E2]. cbn [app]. lia.
Qed.
End DiscardProperty.


(** *** Exact arithmetic: accepted pairs are normalized *)

Section Normalization.

Lemma chunks_concat {F : Type} (r c : nat) (v : vec F) :
  length v = r * c → concat (chunks r c v) = v.
Proof.
  revert v. induction r as [|r IH]; intros v Hv; simpl.
  - destruct v; [reflexivity|discriminate].
  - rewrite IH; [apply take_drop|]. rewrite length_drop. lia.
Qed.

Lemma reshape2_concat {F : Type} (r c : nat) (v : vec F) (m : mat F) :
  reshape2 r c v = Ok m → concat m = v.
Proof.
  unfold reshape2. destruct (Nat.eqb (length v) (r * c)) eqn:E; [|discriminate].
  intros [= <-]. apply chunks_concat, Nat.eqb_eq, E.
Qed.

Lemma sumsq_app (u v : list R) : sumsq (u ++ v) = (sumsq u + sumsq v)%R.
Proof. induction u as [|a u IH]; simpl; [lra|rewrite IH; lra]. Qed.

Lemma sumsq_nonneg (v : list R) : (0 <= sumsq v)%R.
Proof. induction v as [|a v IH]; simpl; [lra|]. pose proof (Rle_0_sqr a) as Ha. unfold Rsqr in Ha. lra. Qed.

Lemma sumsq_scale (c : R) (v : list R) :
  sumsq (map (fun a => fmul a c) v) = (c * c * sumsq v)%R.
Proof.
  induction v as [|a v IH]; [simpl; lra|].
  change (sumsq (map (fun a => fmul a c) (a :: v)))
    with (a * c * (a * c) + sumsq (map (fun a => fmul a c) v))%R.
  rewrite IH. simpl. lra.
Qed.

Lemma concat_scale {F : Type} `{Arith F} (c : F) (m : mat F) :
  concat (scale c m) = map (fun a => fmul a c) (concat m).
Proof.
  unfold scale. induction m as [|r m IH]; simpl; [reflexivity|].
  rewrite IH, map_app. reflexivity.
Qed.

Lemma fold_sumsq (v : list R) (a : R) :
  fold_left (fun acc u => fadd acc (fmul u u)) v a = (a + sumsq v)%R.
Proof.
  revert a. induction v as [|u v IH]; intros a; [simpl; lra|].
  cbn [fold_left]. rewrite IH. simpl. lra.
Qed.

Lemma norm_sq_real (v : list R) : fsq (norm v) = sumsq v.
Proof.
  unfold fsq, norm. rewrite fold_sumsq. simpl.
  rewrite Rplus_0_l. apply sqrt_sqrt, sumsq_nonneg.
Qed.

Lemma xy_norm_real (x y : list R) : xy_norm x y = (sumsq x - sumsq y)%R.
Proof. unfold xy_norm. rewrite !norm_sq_real. reflexivity. Qed.

Lemma split_scaled_sumsq (a b c d : nat) (nrm : R) (v : list R) (ma mb : mat R) :
  split_scaled a b c d nrm v = Ok (ma, mb) →
  (mat_sumsq ma + mat_sumsq mb = nrm * nrm * sumsq v)%R.
Proof.
  unfold split_scaled.
  destruct (reshape2 b a (take (a * b) v)) as [m1|] eqn:E1; cbn [rbind]; [|discriminate].
  destruct (reshape2 d c (drop (a * b) v)) as [m2|] eqn:E2; cbn [rbind]; [|discriminate].
  intros [= <- <-]. unfold mat_sumsq.
  rewrite !concat_scale, !sumsq_scale.
  rewrite (reshape2_concat _ _ _ _ E1), (reshape2_concat _ _ _ _ E2).
  rewrite <- (take_drop (a * b) v) at 3. rewrite sumsq_app. lra.
Qed.

Lemma Rltb_true (a b : R) : Rltb a b = true → (a < b)%R.
Proof. unfold Rltb. destruct (Rlt_dec a b); [auto|discriminate]. Qed.

Lemma recon_accept_normalized (a b c d : nat) (w : R) (x y : list R)
    (w' : R) (p : xyT R) :
  recon_accept a b c d w x y = Ok (Some (w', p)) →
  (0 < sumsq x - sumsq y)%R ∧ normalization p = 1%R.
Proof.
  unfold recon_accept. rewrite xy_norm_real.
  destruct (fltb fzero (sumsq x - sumsq y)%R) eqn:Hpos; [|discriminate].
  apply Rltb_true in Hpos. cbn [fzero real_arith] in Hpos.
  destruct (split_scaled a b c d _ x) as [[xa xb]|] eqn:Ex; cbn [rbind]; [|discriminate].
  destruct (split_scaled a b c d _ y) as [[ya yb]|] eqn:Ey; cbn [rbind]; [|discriminate].
  intros [= <- <-]. split; [exact Hpos|].
  unfold normalization. cbn [fst snd].
  rewrite (split_scaled_sumsq _ _ _ _ _ _ _ _ Ex), (split_scaled_sumsq _ _ _ _ _ _ _ _ Ey).
  set (n := (sumsq x - sumsq y)%R) in *.
  assert (Hs : (sqrt n * sqrt n = n)%R) by (apply sqrt_sqrt; lra).
  assert (Hn0 : sqrt n ≠ 0%R).
  { intros E0. rewrite E0 in Hs. lra. }
  cbn [fdiv fone fsqrt real_arith].
  assert (Hc : (1 / sqrt n * (1 / sqrt n) * n = 1)%R).
  { rewrite <- Hs at 3. field. exact Hn0. }
  transitivity (1 / sqrt n * (1 / sqrt n) * n)%R; [unfold n; ring|exact Hc].
Qed.
End Normalization.

Section NormalizationInvariant.

Lemma recon_one_accept {F : Type} `{Arith F} (eai : vec F) (a b c d : nat)
    (w2i : F) (z : vec F) (w : F) (p : xyT F) :
  recon_one eai a b c d w2i z = Ok (Some (w, p)) →
  fltb w2i fzero = false ∧
  ∃ x y, amplitudes eai (fsqrt w2i) z = Ok (x, y) ∧
         recon_accept a b c d (fsqrt w2i) x y = Ok (Some (w, p)).
Proof.
  unfold recon_one. destruct (fltb w2i fzero); [discriminate|].
  destruct (amplitudes eai (fsqrt w2i) z) as [[x y]|]; cbn [rbind fst snd];
    [|discriminate].
  intros Hr. split; [reflexivity|]. exists x, y. auto.
Qed.

(** C3.  In exact arithmetic every pair of the result set came from
    vectors [x], [y] whose norm [sum x^2 - sum y^2] was positive, and after
    the rescale by [1/sqrt(norm)] the squares of the X amplitudes of both
    spin blocks minus the squares of the Y amplitudes of both spin blocks
    sum to 1. *)
Theorem normalization_invariant (ea eb oa ob w2 : vec R) (x1 : mat R)
    (e : vec R) (xy : list (xyT R)) :
  reconstruct ea eb oa ob w2 x1 = Ok (e, xy) →
  ∀ p, p ∈ xy →
    (∃ (eai : vec R) (i : nat) (w2i : R) (z x y : vec R),
        kernel_eai ea eb oa ob = Ok eai ∧
        w2 !! i = Some w2i ∧ x1 !! i = Some z ∧
        amplitudes eai (fsqrt w2i) z = Ok (x, y) ∧
        (0 < sumsq x - sumsq y)%R) ∧
    normalization p = 1%R.
Proof.
  unfold reconstruct.
  destruct (kernel_eai ea eb oa ob) as [eai|] eqn:He; cbn [rbind]; [|discriminate].
  intros Hl p Hp. apply recon_loop_outs in Hl as (outs & Hf & -> & ->).
  cbn [app] in Hp. apply collect_elem in Hp as [w Hw].
  apply list_elem_of_lookup in Hw as [j Hj].
  destruct (Forall2_lookup_r _ _ _ _ _ Hf Hj) as ([i z] & Hiz & w2i & Hw2 & Hr).
  cbn [fst snd] in Hw2, Hr.
  unfold enumerate in Hiz. rewrite list_lookup_imap in Hiz.
  destruct (x1 !! j) as [z'|] eqn:Hz; [|discriminate].
  injection Hiz as <- <-.
  apply recon_one_accept in Hr as (_ & x & y & Ha & Hacc).
  apply recon_accept_normalized in Hacc as [Hpos Hn].
  split; [|exact Hn].
  exists eai, j, w2i, z', x, y. auto.
Qed.
End NormalizationInvariant.


(** *** binary64: the sign of a difference *)

Section Binary64Sign.
Local Open Scope Z_scope.

Lemma digits2_pos_bounds (m : positive) :
  2 ^ (Zpos (digits2_pos m) - 1) <= Zpos m < 2 ^ Zpos (digits2_pos m).
Proof.
  induction m as [p IH|p IH|]; cbn [digits2_pos].
  - rewrite Pos2Z.inj_succ.
    replace (Z.succ (Zpos (digits2_pos p)) - 1) with (Z.succ (Zpos (digits2_pos p) - 1)) by lia.
    rewrite !Z.pow_succ_r by lia. lia.
  - rewrite Pos2Z.inj_succ.
    replace (Z.succ (Zpos (digits2_pos p)) - 1) with (Z.succ (Zpos (digits2_pos p) - 1)) by lia.
    rewrite !Z.pow_succ_r by lia. lia.
  - simpl. lia.
Qed.

Lemma iter_xO_value (d m : positive) :
  Zpos (Pos.iter xO m d) = Zpos m * 2 ^ Zpos d.
Proof.
  induction d as [|d IH] using Pos.peano_ind.
  - simpl. lia.
  - rewrite Pos.iter_succ, Pos2Z.inj_succ, Z.pow_succ_r by lia.
    rewrite Pos2Z.inj_xO, IH. lia.
Qed.

Lemma shl_align_value (m : positive) (e e' : Z) :
  e' <= e → Zpos (fst (shl_align m e e')) = Zpos m * 2 ^ (e - e').
Proof.
  intros Hle. unfold shl_align. destruct (e' - e) as [|d|d] eqn:Hd.
  - replace (e - e') with 0 by lia. simpl. lia.
  - lia.
  - cbn [fst]. rewrite iter_xO_value. replace (e - e') with (Zpos d) by lia.
    reflexivity.
Qed.

Lemma bounded_canonical (m : positive) (e : Z) :
  bounded 53 1024 m e = true →
  Zpos (digits2_pos m) <= 53 ∧ -1074 <= e ∧
  (e = -1074 ∨ Zpos (digits2_pos m) = 53).
Proof.
  unfold bounded, canonical_mantissa, fexp, emin.
  intros [Hc _]%andb_prop. apply Z.eqb_eq in Hc. lia.
Qed.

(** A canonical mantissa with the larger exponent is the larger number. *)
Lemma aligned_lt (mx my : positive) (ex ey : Z) :
  bounded 53 1024 mx ex = true → bounded 53 1024 my ey = true →
  ex < ey → Zpos mx < Zpos my * 2 ^ (ey - ex).
Proof.
  intros (Hdx & Hex & _)%bounded_canonical (Hdy & Hey & Hn)%bounded_canonical Hlt.
  destruct Hn as [->|Hn]; [lia|].
  pose proof (digits2_pos_bounds mx) as [_ Hmx].
  pose proof (digits2_pos_bounds my) as [Hmy _].
  rewrite Hn in Hmy.
  assert (H53 : 2 ^ Zpos (digits2_pos mx) <= 2 ^ 53)
    by (apply Z.pow_le_mono_r; lia).
  assert (H2 : 2 ^ 1 <= 2 ^ (ey - ex)) by (apply Z.pow_le_mono_r; lia).
  change (2 ^ 1) with 2 in H2. change (2 ^ (53 - 1)) with 4503599627370496 in Hmy.
  change (2 ^ 53) with 9007199254740992 in H53.
  nia.
Qed.

Lemma sub_sign (sx sy : bool) (mx my : positive) (ex ey : Z) :
  bounded 53 1024 mx ex = true → bounded 53 1024 my ey = true →
  SFleb (S754_finite sx mx ex) (S754_finite sy my ey) = true →
  cond_Zopp sx (Zpos (fst (shl_align mx ex (Z.min ex ey))))
  - cond_Zopp sy (Zpos (fst (shl_align my ey (Z.min ex ey)))) <= 0.
Proof.
  intros Hbx Hby Hle.
  rewrite !shl_align_value by lia.
  unfold SFleb, SFcompare in Hle.
  change (Pos.compare_cont Eq mx my) with (Pos.compare mx my) in Hle.
  assert (Hp : ∀ p : positive, 0 < Zpos p) by (intros; lia).
  assert (Hpw : ∀ a, 0 < 2 ^ (a - Z.min ex ey) ∨ a < Z.min ex ey).
  { intros a. destruct (Z_lt_le_dec a (Z.min ex ey)); [right; lia|left].
    apply Z.pow_pos_nonneg; lia. }
  destruct (Z.compare_spec ex ey) as [E|L|G].
  - subst ey. rewrite Z.min_id, Z.sub_diag. change (2 ^ 0) with 1.
    destruct sx, sy; cbn [cond_Zopp]; try discriminate; try lia;
      destruct (Pos.compare_spec mx my); try discriminate; simpl in *; lia.
  - pose proof (aligned_lt mx my ex ey Hbx Hby L) as Hlt.
    replace (Z.min ex ey) with ex by lia. rewrite Z.sub_diag.
    change (2 ^ 0) with 1.
    destruct sx, sy; cbn [cond_Zopp]; try discriminate; nia.
  - pose proof (aligned_lt my mx ey ex Hby Hbx) as Hlt.
    replace (Z.min ex ey) with ey by lia. rewrite Z.sub_diag.
    change (2 ^ 0) with 1.
    destruct sx, sy; cbn [cond_Zopp]; try discriminate; nia.
Qed.

Lemma binary_round_aux_sign (s : bool) (m e : Z) (l : location) :
  has_sign_or_nan s (binary_round_aux 53 1024 s m e l) = true.
Proof.
  unfold binary_round_aux.
  destruct (shr_fexp 53 1024 m e l) as [mrs e'].
  destruct (shr_fexp 53 1024 _ e' loc_Exact) as [mrs' e''].
  destruct (shr_m mrs'); [|destruct (e'' <=? 1024 - 53)|]; simpl;
    try apply eqb_reflx; reflexivity.
Qed.

Lemma binary_normalize_sign (m e : Z) :
  has_sign_or_nan (m <? 0) (binary_normalize 53 1024 m e false) = true.
Proof.
  destruct m as [|p|p]; simpl; [reflexivity| |];
    unfold binary_round; destruct (shl_align _ _ _); apply binary_round_aux_sign.
Qed.
End Binary64Sign.

(** *** binary64: a vanishing or negative energy difference *)

Section Binary64Nonfinite.

(** [sqrt(ev - eo)] is a zero or a NaN when [ev <= eo]. *)
Lemma sqrt_sub_le_zn (ev eo : spec_float) :
  is_binary64 ev = true → is_binary64 eo = true →
  SFleb ev eo = true →
  is_zero_or_nan (fsqrt (fsub ev eo)) = true.
Proof.
  intros Hv Ho Hle.
  destruct ev as [sv|sv| |sv mv xv], eo as [so|so| |so mo xo];
    try discriminate;
    try (destruct sv; try discriminate; try destruct so; try discriminate; reflexivity);
    try (destruct so; try discriminate; try destruct sv; try discriminate; reflexivity).
  cbn [is_binary64 valid_binary] in Hv, Ho.
  pose proof (sub_sign sv so mv mo xv xo Hv Ho Hle) as Hs.
  cbn [fsub fsqrt binary64]. cbv [SFsub].
  set (D := (cond_Zopp sv (Zpos (fst (shl_align mv xv (Z.min xv xo))))
             - cond_Zopp so (Zpos (fst (shl_align mo xo (Z.min xv xo)))))%Z) in *.
  pose proof (binary_normalize_sign D (Z.min xv xo)) as Hn.
  destruct (Z.ltb_spec D 0) as [Hneg|Hpos].
  - destruct (binary_normalize 53 1024 D (Z.min xv xo) false) as [[]|[]| |[] m e];
      try discriminate; reflexivity.
  - replace D with 0%Z by lia. reflexivity.
Qed.

(** With a zero or a NaN in [eai] and [w > 0], the entries of [x] and [y]
    at that place are infinite or NaN. *)
Lemma amp_nonfinite (d w zk : spec_float) :
  is_zero_or_nan d = true → fltb fzero w = true →
  is_nonfinite (fmul (fadd (fmul d zk) (fmul (fdiv w d) zk)) fhalf) = true ∧
  is_nonfinite (fmul (fsub (fmul d zk) (fmul (fdiv w d) zk)) fhalf) = true.
Proof.
  intros Hd Hw.
  destruct d as [sd|sd| |sd md ed]; try discriminate;
    destruct w as [sw|[]| |[] mw ew]; try discriminate;
    destruct zk as [sz|sz| |sz mz ez]; split;
    try reflexivity; destruct sd, sz; reflexivity.
Qed.

Lemma sq_nonneg (v : spec_float) : has_sign_or_nan false (fmul v v) = true.
Proof.
  destruct v as [[]|[]| |s m e]; try reflexivity.
  cbn [fmul binary64]. cbv [SFmul]. rewrite xorb_nilpotent.
  apply binary_round_aux_sign.
Qed.

Lemma sq_nonfinite (v : spec_float) :
  is_nonfinite v = true → is_posinf_or_nan (fmul v v) = true.
Proof. destruct v as [s|[]| |s m e]; try discriminate; reflexivity. Qed.

Lemma add_nonneg (a b : spec_float) :
  has_sign_or_nan false a = true → has_sign_or_nan false b = true →
  has_sign_or_nan false (fadd a b) = true.
Proof.
  destruct a as [[]|[]| |[] ma ea]; try discriminate;
    destruct b as [[]|[]| |[] mb eb]; try discriminate; try reflexivity.
  intros _ _. cbn [fadd binary64]. cbv [SFadd cond_Zopp].
  apply (binary_normalize_sign (Zpos _ + Zpos _)).
Qed.

Lemma add_posinf_l (a b : spec_float) :
  is_posinf_or_nan a = true → has_sign_or_nan false b = true →
  is_posinf_or_nan (fadd a b) = true.
Proof.
  destruct a as [s|[]| |s ma ea]; try discriminate;
    destruct b as [[]|[]| |[] mb eb]; try discriminate; reflexivity.
Qed.

Lemma add_posinf_r (a b : spec_float) :
  has_sign_or_nan false a = true → is_posinf_or_nan b = true →
  is_posinf_or_nan (fadd a b) = true.
Proof.
  destruct b as [s|[]| |s mb eb]; try discriminate;
    destruct a as [[]|[]| |[] ma ea]; try discriminate; reflexivity.
Qed.

Lemma fold_posinf (x : vec spec_float) (a : spec_float) :
  is_posinf_or_nan a = true →
  is_posinf_or_nan (fold_left (fun acc v => fadd acc (fmul v v)) x a) = true.
Proof.
  revert a. induction x as [|v x IH]; intros a Ha; cbn [fold_left]; [exact Ha|].
  apply IH, add_posinf_l; [exact Ha|apply sq_nonneg].
Qed.

Lemma fold_nonfinite (x : vec spec_float) (a : spec_float) (k : nat) (v : spec_float) :
  has_sign_or_nan false a = true →
  x !! k = Some v → is_nonfinite v = true →
  is_posinf_or_nan (fold_left (fun acc v => fadd acc (fmul v v)) x a) = true.
Proof.
  revert a k. induction x as [|u x IH]; intros a k Ha Hk Hv; [discriminate|].
  cbn [fold_left]. destruct k as [|k]; simpl in Hk.
  - injection Hk as ->. apply fold_posinf, add_posinf_r; [exact Ha|].
    apply sq_nonfinite, Hv.
  - eapply IH; [|exact Hk|exact Hv]. apply add_nonneg; [exact Ha|apply sq_nonneg].
Qed.

Lemma norm_sq_nonfinite (x : vec spec_float) (k : nat) (v : spec_float) :
  x !! k = Some v → is_nonfinite v = true →
  is_posinf_or_nan (fsq (norm x)) = true.
Proof.
  intros Hk Hv. unfold norm.
  pose proof (fold_nonfinite x fzero k v eq_refl Hk Hv) as Hf.
  destruct (fold_left _ x fzero) as [s|[]| |s m e]; try discriminate; reflexivity.
Qed.

Lemma xy_norm_nonfinite (x y : vec spec_float) (k : nat) (xk yk : spec_float) :
  x !! k = Some xk → y !! k = Some yk →
  is_nonfinite xk = true → is_nonfinite yk = true →
  xy_norm x y = S754_nan.
Proof.
  intros Hx Hy Hxk Hyk. unfold xy_norm.
  pose proof (norm_sq_nonfinite x k xk Hx Hxk) as Hnx.
  pose proof (norm_sq_nonfinite y k yk Hy Hyk) as Hny.
  destruct (fsq (norm x)) as [s|[]| |s m e]; try discriminate;
    destruct (fsq (norm y)) as [s'|[]| |s' m' e']; try discriminate; reflexivity.
Qed.

Lemma xy_norm_nonfinite_dropped (x y : vec spec_float) (k : nat) (xk yk : spec_float) :
  x !! k = Some xk → y !! k = Some yk →
  is_nonfinite xk = true → is_nonfinite yk = true →
  fltb fzero (xy_norm x y) = false.
Proof.
  intros Hx Hy Hxk Hyk. rewrite (xy_norm_nonfinite x y k xk yk) by assumption.
  reflexivity.
Qed.
End Binary64Nonfinite.


(** ** The division by [eai] *)

Section UnguardedDivision.

Lemma recon_one_retained {F : Type} `{Arith F} (eai : vec F) (a b c d : nat)
    (w2i : F) (z x y : vec F) :
  fltb w2i fzero = false →
  amplitudes eai (fsqrt w2i) z = Ok (x, y) →
  recon_one eai a b c d w2i z = recon_accept a b c d (fsqrt w2i) x y.
Proof. intros Hw Ha. unfold recon_one. rewrite Hw, Ha. reflexivity. Qed.

Lemma recon_accept_dropped {F : Type} `{Arith F} (a b c d : nat) (w : F) (x y : vec F) :
  fltb fzero (xy_norm x y) = false → recon_accept a b c d w x y = Ok None.
Proof. intros Hn. unfold recon_accept. rewrite Hn. reflexivity. Qed.

Lemma sqrt_positive_retained (w2i : spec_float) :
  fltb fzero (fsqrt w2i) = true → fltb w2i fzero = false.
Proof. destruct w2i as [s|[]| |[] m e]; try discriminate; reflexivity. Qed.

(** C10.  Let a virtual orbital have an energy equal to or below that of
    an occupied orbital of the same spin channel ([sp = false]: alpha,
    [sp = true]: beta).  Then the vector [eai] of the reconstruction has a
    zero or a NaN at the place [k] of that pair, and for every eigenvector
    of the right length whose [w = sqrt(w2)] is positive the loop body
    raises nothing: it computes [x] and [y] whose entries at [k] are
    infinite or NaN.  (The norm of such a pair is NaN, so the body then
    drops it.) *)
Theorem unguarded_division (ea eb oa ob eai : vec spec_float) (sp : bool)
    (a i : nat) (ev eo : spec_float) :
  kernel_eai ea eb oa ob = Ok eai →
  a ∈ viridx (if sp then ob else oa) →
  i ∈ occidx (if sp then ob else oa) →
  (if sp then eb else ea) !! a = Some ev →
  (if sp then eb else ea) !! i = Some eo →
  is_binary64 ev = true → is_binary64 eo = true →
  SFleb ev eo = true →
  ∃ (k : nat) (d : spec_float),
    eai !! k = Some d ∧ is_zero_or_nan d = true ∧
    ∀ (w2i : spec_float) (z : vec spec_float),
      fltb fzero (fsqrt w2i) = true →
      length z = length eai →
      ∃ (x y : vec spec_float) (xk yk : spec_float),
        amplitudes eai (fsqrt w2i) z = Ok (x, y) ∧
        x !! k = Some xk ∧ is_nonfinite xk = true ∧
        y !! k = Some yk ∧ is_nonfinite yk = true ∧
        recon_one eai (length (occidx oa)) (length (viridx oa))
          (length (occidx ob)) (length (viridx ob)) w2i z = Ok None.
Proof.
  unfold kernel_eai.
  destruct (e_ai_spin ea oa) as [raw_a|] eqn:Ha; cbn [rbind]; [|discriminate].
  destruct (e_ai_spin eb ob) as [raw_b|] eqn:Hb; cbn [rbind]; [|discriminate].
  intros [= <-] Hvir Hocc Hev Heo Hbv Hbo Hle.
  assert (Hraw : ∃ k, (raw_a ++ raw_b) !! k = Some (fsub ev eo)).
  { destruct sp.
    - destruct (e_ai_spin_entry _ _ _ _ _ _ _ Hb Hvir Hocc Hev Heo)
        as (_ & ka & ki & _ & _ & Hk).
      eexists. rewrite lookup_app_r; [|apply Nat.le_add_r].
      rewrite Nat.add_comm, Nat.add_sub. exact Hk.
    - destruct (e_ai_spin_entry _ _ _ _ _ _ _ Ha Hvir Hocc Hev Heo)
        as (_ & ka & ki & _ & _ & Hk).
      eexists. rewrite lookup_app_l; [exact Hk|]. eapply lookup_lt_Some, Hk. }
  destruct Hraw as [k Hk].
  exists k, (fsqrt (fsub ev eo)).
  split; [rewrite map_fmap, list_lookup_fmap, Hk; reflexivity|].
  assert (Hzn : is_zero_or_nan (fsqrt (fsub ev eo)) = true)
    by (apply sqrt_sub_le_zn; assumption).
  split; [exact Hzn|].
  intros w2i z Hw Hz.
  destruct (lookup_lt_is_Some_2 z k) as [zk Hzk].
  { rewrite Hz, length_map. eapply lookup_lt_Some, Hk. }
  destruct (amp_nonfinite _ _ zk Hzn Hw) as [Hx Hy].
  assert (Hxk : ∀ g : spec_float → spec_float → spec_float,
    (map (fun v => fmul v fhalf)
       (zip_with g (zip_with fmul (map fsqrt (raw_a ++ raw_b)) z)
          (zip_with fmul (map (fun d => fdiv (fsqrt w2i) d)
                            (map fsqrt (raw_a ++ raw_b))) z))) !! k
    = Some (fmul (g (fmul (fsqrt (fsub ev eo)) zk)
                    (fmul (fdiv (fsqrt w2i) (fsqrt (fsub ev eo))) zk)) fhalf)).
  { intros g. rewrite !map_fmap, !list_lookup_fmap, !lookup_zip_with.
    rewrite !list_lookup_fmap, Hk. cbn [fmap option_fmap option_map mbind option_bind].
    rewrite Hzk. reflexivity. }
  eexists _, _, _, _. split; [apply amplitudes_same_length; exact Hz|].
  split; [apply (Hxk fadd)|]. split; [exact Hx|].
  split; [apply (Hxk fsub)|]. split; [exact Hy|].
  erewrite recon_one_retained;
    [|apply sqrt_positive_retained, Hw|apply amplitudes_same_length; exact Hz].
  apply recon_accept_dropped.
  eapply xy_norm_nonfinite_dropped;
    [apply (Hxk fadd)|apply (Hxk fsub)|exact Hx|exact Hy].
Qed.
End UnguardedDivision.


(** ** Reasoning about runs *)

Section Runs.
Context {F : Type} `{Arith F}.

Lemma bind_inv {A B} (m : M F A) (k : A → M F B) (s s' : state F) (b : B) :
  bind m k s = (Ok b, s') →
  ∃ a s1, m s = (Ok a, s1) ∧ k a s1 = (Ok b, s').
Proof.
  unfold bind. destruct (m s) as [[a|e] s1]; [eauto|discriminate].
Qed.

Lemma bind_ok {A B} (m : M F A) (k : A → M F B) (s s1 : state F) (a : A) :
  m s = (Ok a, s1) → bind m k s = k a s1.
Proof. intros E. unfold bind. rewrite E. reflexivity. Qed.

Lemma bind_err {A B} (m : M F A) (k : A → M F B) (s s1 : state F) (e : exn) :
  m s = (Err e, s1) → bind m k s = (Err e, s1).
Proof. intros E. unfold bind. rewrite E. reflexivity. Qed.

Lemma ret_inv {A} (a b : A) (s s' : state F) :
  ret a s = (Ok b, s') → b = a ∧ s' = s.
Proof. intros [= <- <-]. auto. Qed.

Lemma lift_inv {A} (r : result A) (a : A) (s s' : state F) :
  lift r s = (Ok a, s') → r = Ok a ∧ s' = s.
Proof. intros [= -> <-]. auto. Qed.

Lemma alloc_inv (o : obj F) (l : loc) (s s' : state F) :
  alloc o s = (Ok l, s') →
  l = length (heap s) ∧ s' = set_heap (heap s ++ [o]) s.
Proof. intros [= <- <-]. auto. Qed.

Lemma load_inv (l : loc) (o : obj F) (s s' : state F) :
  load l s = (Ok o, s') → heap s !! l = Some o ∧ s' = s.
Proof.
  unfold load. destruct (heap s !! l); [|discriminate]. intros [= <- <-]. auto.
Qed.

Lemma load_vec_inv (l : loc) (v : vec F) (s s' : state F) :
  load_vec l s = (Ok v, s') → heap s !! l = Some (OVec v) ∧ s' = s.
Proof.
  intros (o & s1 & [Hl ->]%load_inv & Hr)%bind_inv.
  destruct o; try discriminate. apply ret_inv in Hr as [-> ->]. auto.
Qed.

Lemma load_mat_inv (l : loc) (m : mat F) (s s' : state F) :
  load_mat l s = (Ok m, s') → heap s !! l = Some (OMat m) ∧ s' = s.
Proof.
  intros (o & s1 & [Hl ->]%load_inv & Hr)%bind_inv.
  destruct o; try discriminate. apply ret_inv in Hr as [-> ->]. auto.
Qed.

Lemma load_mask_inv (l : loc) (b : list bool) (s s' : state F) :
  load_mask l s = (Ok b, s') → heap s !! l = Some (OMask b) ∧ s' = s.
Proof.
  intros (o & s1 & [Hl ->]%load_inv & Hr)%bind_inv.
  destruct o; try discriminate. apply ret_inv in Hr as [-> ->]. auto.
Qed.

Lemma load_vec_ok (l : loc) (v : vec F) (s : state F) :
  heap s !! l = Some (OVec v) → load_vec l s = (Ok v, s).
Proof. intros E. unfold load_vec, bind, load. rewrite E. reflexivity. Qed.

Lemma load_mat_ok (l : loc) (m : mat F) (s : state F) :
  heap s !! l = Some (OMat m) → load_mat l s = (Ok m, s).
Proof. intros E. unfold load_mat, bind, load. rewrite E. reflexivity. Qed.

Lemma load_mask_ok (l : loc) (b : list bool) (s : state F) :
  heap s !! l = Some (OMask b) → load_mask l s = (Ok b, s).
Proof. intros E. unfold load_mask, bind, load. rewrite E. reflexivity. Qed.

Lemma store_inv (l : loc) (o : obj F) (u : unit) (s s' : state F) :
  store l o s = (Ok u, s') →
  l < length (heap s) ∧ s' = set_heap (<[l := o]> (heap s)) s.
Proof.
  unfold store. destruct (decide (l < length (heap s))); [|discriminate].
  intros [= <-]. auto.
Qed.

Lemma store_ok (l : loc) (o : obj F) (s : state F) :
  l < length (heap s) →
  store l o s = (Ok tt, set_heap (<[l := o]> (heap s)) s).
Proof. intros Hl. unfold store. destruct (decide _); [reflexivity|lia]. Qed.

Lemma get_td_inv (t : solver F) (s s' : state F) :
  get_td s = (Ok t, s') → t = td s ∧ s' = s.
Proof. intros [= <- <-]. auto. Qed.

Lemma put_td_inv (t : solver F) (u : unit) (s s' : state F) :
  put_td t s = (Ok u, s') → s' = set_td t s.
Proof. unfold put_td. intros E. inversion E. reflexivity. Qed.

Lemma get_state_inv (a s s' : state F) :
  get_state s = (Ok a, s') → a = s ∧ s' = s.
Proof. intros [= <- <-]. auto. Qed.

Lemma log_inv (e : event) (u : unit) (s s' : state F) :
  log e s = (Ok u, s') →
  s' = State (heap s) (td s) (chkfile s) (trace s ++ [e]).
Proof. unfold log. intros E. inversion E. reflexivity. Qed.

Lemma lookup_snoc {A} (h : list A) (x : A) : (h ++ [x]) !! length h = Some x.
Proof. apply list_lookup_middle. reflexivity. Qed.

Lemma insert_snoc {A} (h : list A) (x y : A) :
  <[length h := y]> (h ++ [x]) = h ++ [y].
Proof.
  rewrite insert_app_r_alt by lia. rewrite Nat.sub_diag. reflexivity.
Qed.

(** *** Frames *)

Lemma frame_refl (n0 : nat) (s : state F) :
  n0 ≤ length (heap s) → frame n0 s s.
Proof. unfold frame. auto. Qed.

Lemma frame_trans (n0 : nat) (s1 s2 s3 : state F) :
  frame n0 s1 s2 → frame n0 s2 s3 → frame n0 s1 s3.
Proof. unfold frame. intros (? & ? & ? & ?) (? & ? & ? & ?). repeat split; congruence. Qed.

Lemma frame_lookup (n0 : nat) (s s' : state F) (l : loc) :
  frame n0 s s' → l < n0 → heap s' !! l = heap s !! l.
Proof.
  intros (_ & Ht & _) Hl.
  rewrite <- (lookup_take_lt (heap s') n0 l Hl), Ht.
  apply lookup_take_lt, Hl.
Qed.

Lemma safe_ret {A} (q : bool) (n0 : nat) (a : A) (Q : A → Prop) :
  Q a → safe (F:=F) q n0 (ret a) Q.
Proof.
  intros Ha s Hs. simpl. split; [apply frame_refl, Hs|].
  split; [destruct q; reflexivity|]. intros b [= <-]. exact Ha.
Qed.

Lemma safe_raise {A} (q : bool) (n0 : nat) (e : exn) (Q : A → Prop) :
  safe (F:=F) q n0 (raise e) Q.
Proof.
  intros s Hs. simpl. split; [apply frame_refl, Hs|].
  split; [destruct q; reflexivity|]. intros b [=].
Qed.

Lemma safe_lift {A} (q : bool) (n0 : nat) (r : result A) :
  safe (F:=F) q n0 (lift r) (fun a => r = Ok a).
Proof.
  intros s Hs. simpl. split; [apply frame_refl, Hs|].
  split; [destruct q; reflexivity|]. auto.
Qed.

Lemma safe_weaken {A} (q : bool) (n0 : nat) (m : M F A) (P Q : A → Prop) :
  safe q n0 m P → (∀ a, P a → Q a) → safe q n0 m Q.
Proof.
  intros Hm HPQ s Hs. destruct (Hm s Hs) as (Hf & Ht & Ha).
  split; [exact Hf|]. split; [exact Ht|]. auto.
Qed.

Lemma safe_bind {A B} (q : bool) (n0 : nat) (m : M F A) (k : A → M F B)
    (P : A → Prop) (Q : B → Prop) :
  safe q n0 m P → (∀ a, P a → safe q n0 (k a) Q) → safe q n0 (bind m k) Q.
Proof.
  intros Hm Hk s Hs. destruct (Hm s Hs) as (Hf & Ht & Ha).
  unfold bind. destruct (m s) as [[a|e] s1]; cbn [fst snd] in *.
  - destruct (Hk a (Ha a eq_refl) s1 (proj1 Hf)) as (Hf' & Ht' & Ha').
    split; [eapply frame_trans; eassumption|]. split; [|exact Ha'].
    destruct q; [congruence|exact I].
  - split; [exact Hf|]. split; [exact Ht|]. intros b [=].
Qed.

Lemma safe_load (q : bool) (n0 : nat) (l : loc) :
  safe (F:=F) q n0 (load l) (fun _ => True).
Proof.
  intros s Hs. unfold load. destruct (heap s !! l); simpl;
    (split; [apply frame_refl, Hs|]); (split; [destruct q; reflexivity|]); auto.
Qed.

Lemma safe_alloc (q : bool) (n0 : nat) (o : obj F) :
  safe q n0 (alloc o) (fun l => n0 ≤ l).
Proof.
  intros s Hs. unfold alloc. cbn [fst snd]. split; [|split].
  - unfold frame, set_heap. cbn [heap td chkfile].
    rewrite length_app, take_app_le by exact Hs. repeat split. lia.
  - destruct q; reflexivity.
  - intros l [= <-]. exact Hs.
Qed.

Lemma safe_store (q : bool) (n0 : nat) (l : loc) (o : obj F) :
  n0 ≤ l → safe q n0 (store l o) (fun _ => True).
Proof.
  intros Hl s Hs. unfold store. destruct (decide (l < length (heap s))); cbn [fst snd].
  - split; [|split; [destruct q; reflexivity|auto]].
    unfold frame, set_heap. cbn [heap td chkfile].
    rewrite length_insert, take_insert_ge by exact Hl. auto.
  - split; [apply frame_refl, Hs|]. split; [destruct q; reflexivity|auto].
Qed.

Lemma safe_log (n0 : nat) (e : event) :
  safe (F:=F) false n0 (log e) (fun _ => True).
Proof.
  intros s Hs. unfold log. cbn [fst snd]. split; [|auto].
  unfold frame. cbn [heap td chkfile]. auto.
Qed.

Lemma safe_get_td (q : bool) (n0 : nat) :
  safe (F:=F) q n0 get_td (fun _ => True).
Proof.
  intros s Hs. unfold get_td. cbn [fst snd]. split; [apply frame_refl, Hs|].
  split; [destruct q; reflexivity|auto].
Qed.

Lemma safe_forM {A} (q : bool) (n0 : nat) (xs : list A) (body : A → M F unit) :
  (∀ a, safe q n0 (body a) (fun _ => True)) →
  safe q n0 (forM xs body) (fun _ => True).
Proof.
  intros Hb. induction xs as [|a xs IH]; cbn [forM].
  - apply safe_ret. exact I.
  - eapply safe_bind; [apply Hb|]. intros _ _. exact IH.
Qed.
End Runs.

(** Inversion of a successful run, one step at a time. *)
Ltac inv_step :=
  match goal with
  | H : ret _ _ = (Ok _, _) |- _ => apply ret_inv in H as [? ?]; subst
  | H : lift _ _ = (Ok _, _) |- _ => apply lift_inv in H as [? ?]; subst
  | H : alloc _ _ = (Ok _, _) |- _ => apply alloc_inv in H as [? ?]; subst
  | H : store _ _ _ = (Ok _, _) |- _ => apply store_inv in H as [? ?]; subst
  | H : load_vec _ _ = (Ok _, _) |- _ => apply load_vec_inv in H as [? ?]; subst
  | H : load_mat _ _ = (Ok _, _) |- _ => apply load_mat_inv in H as [? ?]; subst
  | H : load_mask _ _ = (Ok _, _) |- _ => apply load_mask_inv in H as [? ?]; subst
  | H : get_td _ = (Ok _, _) |- _ => apply get_td_inv in H as [? ?]; subst
  | H : put_td _ _ = (Ok _, _) |- _ => apply put_td_inv in H; subst
  | H : get_state _ = (Ok _, _) |- _ => apply get_state_inv in H as [? ?]; subst
  | H : log _ _ = (Ok _, _) |- _ => apply log_inv in H; subst
  | H : raise _ _ = (Ok _, _) |- _ => discriminate H
  | H : bind _ _ _ = (Ok _, _) |- _ =>
      let a := fresh "a" in let s := fresh "s" in
      let H1 := fresh "Hm" in let H2 := fresh "Hk" in
      destruct (bind_inv _ _ _ _ _ H) as (a & s & H1 & H2); clear H
  end.

Ltac inv_run := repeat (inv_step; cbn [heap td chkfile trace set_heap set_td] in * ).

Ltac heap_norm H :=
  repeat first
    [ rewrite insert_snoc in H
    | rewrite lookup_snoc in H
    | rewrite lookup_app_l in H by (rewrite ?length_app; simpl; lia) ].

Ltac rewrite_filter Hon :=
  repeat match goal with
         | H : context [filter_on _ _] |- _ =>
             lazymatch H with Hon => fail | _ => rewrite Hon in H end
         end.

(** ** The operator has no side effects *)

Ltac safe_prim :=
  first
    [ apply safe_lift
    | apply safe_alloc
    | apply safe_load
    | apply safe_get_td
    | apply safe_log
    | apply safe_raise
    | (apply safe_store; lia) ].

Ltac safe_go :=
  repeat match goal with
         | |- safe _ _ (bind _ _) _ =>
             eapply safe_bind; [safe_prim|intros ? ?; cbv beta in *]
         end.

Section OperatorFrame.
Context {F : Type} `{Arith F}.
Variable nr_e2 : list (mat F) → mat F → nat * nat * nat * nat → vec F.

Lemma safe_load_vec (q : bool) (n0 : nat) (l : loc) :
  safe (F:=F) q n0 (load_vec l) (fun _ => True).
Proof.
  unfold load_vec. safe_go. destruct a; first [apply safe_raise|apply safe_ret; exact I].
Qed.

Lemma safe_load_mat (q : bool) (n0 : nat) (l : loc) :
  safe (F:=F) q n0 (load_mat l) (fun _ => True).
Proof.
  unfold load_mat. safe_go. destruct a; first [apply safe_raise|apply safe_ret; exact I].
Qed.

Lemma safe_load_mask (q : bool) (n0 : nat) (l : loc) :
  safe (F:=F) q n0 (load_mask l) (fun _ => True).
Proof.
  unfold load_mask. safe_go. destruct a; first [apply safe_raise|apply safe_ret; exact I].
Qed.

Lemma safe_load_tens (q : bool) (n0 : nat) (l : loc) :
  safe (F:=F) q n0 (load_tens l) (fun _ => True).
Proof.
  unfold load_tens. safe_go. destruct a; first [apply safe_raise|apply safe_ret; exact I].
Qed.

Ltac safe_step :=
  first
    [ apply safe_load_vec | apply safe_load_mat | apply safe_load_mask
    | apply safe_load_tens | safe_prim ].

Ltac safe_run :=
  repeat match goal with
         | |- safe _ _ (bind _ _) _ =>
             eapply safe_bind; [safe_step|intros ? ?; cbv beta in *]
         end.

Lemma safe_set_block (q : bool) (n0 : nat) (l : loc) (sp i nao nb : nat) (m : mat F) :
  n0 ≤ l → safe q n0 (set_block l sp i nao nb m) (fun _ => True).
Proof.
  intros Hl. unfold set_block. safe_run.
  destruct (decide _); [apply safe_store; lia|apply safe_raise].
Qed.

Lemma safe_update_row (q : bool) (n0 : nat) (l : loc) (i : nat)
    (f : F → F → F) (b : vec F) :
  n0 ≤ l → safe q n0 (update_row l i f b) (fun _ => True).
Proof. intros Hl. unfold update_row. safe_run. apply safe_store; lia. Qed.

Lemma safe_vind_density (q : bool) (n0 : nat) (c : closure F) (l_zs l_dmvo i : nat) :
  n0 ≤ l_dmvo → safe q n0 (vind_density c l_zs l_dmvo i) (fun _ => True).
Proof.
  intros Hl. unfold vind_density. safe_run.
  eapply safe_bind; [apply safe_set_block; exact Hl|intros _ _].
  safe_run. apply safe_set_block; exact Hl.
Qed.

Lemma safe_vind_diag (q : bool) (n0 : nat) (c : closure F) (l_hx : loc)
    (iz : nat * vec F) :
  n0 ≤ l_hx → safe q n0 (vind_diag c l_hx iz) (fun _ => True).
Proof.
  intros Hl. unfold vind_diag. safe_run.
  eapply safe_bind; [apply safe_update_row; exact Hl|intros _ _].
  safe_run. apply safe_update_row; exact Hl.
Qed.

Lemma safe_vind_mask (q : bool) (n0 : nat) (c : closure F) (l_zs : loc) :
  safe q n0 (vind_mask c l_zs) (fun _ => True).
Proof.
  unfold vind_mask. destruct (filter_on _ _); [|apply safe_ret; exact I].
  safe_run. destruct (c_sym_forbid c); [|apply safe_raise].
  safe_run. apply safe_ret. exact I.
Qed.

Lemma safe_vind_body (q : bool) (n0 : nat) (c : closure F) (nz : nat) (l_zs : loc) :
  safe q n0 (vind_body nr_e2 c nz l_zs) (fun l => n0 ≤ l).
Proof.
  unfold vind_body. safe_run.
  eapply safe_bind.
  { apply safe_forM. intros i. apply safe_vind_density. assumption. }
  intros _ _. safe_run.
  eapply safe_bind.
  { apply safe_forM. intros iz. apply safe_vind_diag. assumption. }
  intros _ _. apply safe_ret. assumption.
Qed.

Lemma safe_vind (q : bool) (n0 : nat) (c : closure F) (l_zs : loc) :
  safe q n0 (vind nr_e2 c l_zs) (fun l => n0 ≤ l).
Proof.
  unfold vind. safe_run.
  eapply safe_bind; [apply safe_vind_mask|intros l' _].
  apply safe_vind_body.
Qed.

(** C8.  A call of the operator, whatever its outcome, leaves every
    object that existed before the call as it was: the caller's trial
    batch, the arrays captured by the closure (the diagonal vectors, the
    mask, the orbital coefficients) and every other array.  The solver
    object and the checkpoint file are untouched and no call leaves the
    module.  The only change is that new arrays have been created, the
    result batch among them. *)
Theorem vind_no_side_effects (c : closure F) (l_zs : loc) (s : state F) :
  let r := fst (vind nr_e2 c l_zs s) in
  let s' := snd (vind nr_e2 c l_zs s) in
  (∀ l o, heap s !! l = Some o → heap s' !! l = Some o) ∧
  heap s `prefix_of` heap s' ∧
  td s' = td s ∧ chkfile s' = chkfile s ∧ trace s' = trace s ∧
  (∀ l_hx, r = Ok l_hx → length (heap s) ≤ l_hx).
Proof.
  destruct (safe_vind true (length (heap s)) c l_zs s (Nat.le_refl _))
    as ((Hlen & Htake & Htd & Hchk) & Htr & Hret).
  cbn zeta. rewrite firstn_all in Htake.
  assert (Hpre : heap s `prefix_of` heap (snd (vind nr_e2 c l_zs s))).
  { exists (drop (length (heap s)) (heap (snd (vind nr_e2 c l_zs s)))).
    rewrite <- Htake at 1. symmetry. apply take_drop. }
  split; [|auto 10].
  intros l o Hl. eapply prefix_lookup_Some; eassumption.
Qed.
End OperatorFrame.

(** ** The setup: [get_vind] *)

Section Setup.
Context {F : Type} `{Arith F}.
Variable get_orbsym : mat F * mat F → list Z * list Z.
Variable gen_uhf_response :
  mat F * mat F → vec F * vec F → list (list (mat F)) → list (mat F) * list (mat F).

Lemma get_vind_inv (mf : scf) (s s' : state F) (c : closure F) (l_hdiag : loc) :
  get_vind get_orbsym gen_uhf_response mf s = (Ok (c, l_hdiag), s') →
  ∃ (ca cb : mat F) (ea eb oa ob : vec F) (orboa orbob orbva orbvb : mat F)
    (raw_a raw_b e_ai : vec F) (masks : list (obj F)),
    heap s !! fst (mo_coeff mf) = Some (OMat ca) ∧
    heap s !! snd (mo_coeff mf) = Some (OMat cb) ∧
    heap s !! fst (mo_energy mf) = Some (OVec ea) ∧
    heap s !! snd (mo_energy mf) = Some (OVec eb) ∧
    heap s !! fst (mo_occ mf) = Some (OVec oa) ∧
    heap s !! snd (mo_occ mf) = Some (OVec ob) ∧
    e_ai_spin ea oa = Ok raw_a ∧
    e_ai_spin eb ob = Ok raw_b ∧
    (if filter_on (t_wfnsym (td s)) (mol_symmetry mf)
     then ∃ mask, masks = [OMask mask] ∧
                  zero_where mask (raw_a ++ raw_b) = Ok e_ai ∧
                  c_sym_forbid c = Some (length (heap s) + 4)
     else masks = [] ∧ e_ai = raw_a ++ raw_b ∧ c_sym_forbid c = None) ∧
    heap s' = (heap s ++ [OMat orboa; OMat orbob; OMat orbva; OMat orbvb])
              ++ masks
              ++ [OVec e_ai; OVec (map fsqrt e_ai);
                  OVec (zip_with fmul e_ai (map fsqrt e_ai));
                  OVec (map fsq e_ai)] ∧
    c_dai c = length (heap s) + 4 + length masks + 1 ∧
    c_edai c = length (heap s) + 4 + length masks + 2 ∧
    l_hdiag = length (heap s) + 4 + length masks + 3 ∧
    c_wfnsym c = t_wfnsym (td s) ∧ c_symmetry c = mol_symmetry mf ∧
    c_mo_coeff c = mo_coeff mf ∧
    c_nocca c = length (occidx oa) ∧ c_noccb c = length (occidx ob) ∧
    c_nvira c = length (viridx oa) ∧ c_nvirb c = length (viridx ob) ∧
    td s' = td s ∧ chkfile s' = chkfile s.
Proof.
  unfold get_vind. intros Hrun.
  destruct (filter_on (t_wfnsym (td s)) (mol_symmetry mf)) eqn:Hon.
  - inv_run. rewrite_filter Hon.
    destruct (get_orbsym (a, a0)) as [orbsyma orbsymb].
    inv_run.
    repeat match goal with
           | H : _ !! _ = Some _ |- _ => progress heap_norm H
           end.
    simplify_eq. cbn [heap td chkfile c_sym_forbid c_dai c_edai c_wfnsym
                      c_symmetry c_mo_coeff c_nocca c_noccb c_nvira c_nvirb].
    rewrite insert_snoc.
    do 14 eexists.
    do 8 (split; [eassumption|]).
    split.
    { eexists. split; [reflexivity|]. split; [eassumption|].
      f_equal. rewrite !length_app. simpl. lia. }
    split; [rewrite <- !app_assoc; reflexivity|].
    repeat split; rewrite ?length_app; simpl; lia.
  - inv_run. rewrite_filter Hon. inv_run.
    repeat match goal with
           | H : _ !! _ = Some _ |- _ => progress heap_norm H
           end.
    simplify_eq. cbn [heap td chkfile c_sym_forbid c_dai c_edai c_wfnsym
                      c_symmetry c_mo_coeff c_nocca c_noccb c_nvira c_nvirb].
    do 13 eexists. exists [].
    do 8 (split; [eassumption|]).
    split; [auto|].
    split; [rewrite <- !app_assoc; reflexivity|].
    repeat split; rewrite ?length_app; simpl; lia.
Qed.






Lemma zero_where_inv (mask : list bool) (a r : vec F) :
  zero_where mask a = Ok r →
  length mask = length a ∧
  r = zip_with (fun (b : bool) x => if b then fzero else x) mask a.
Proof.
  unfold zero_where. destruct (Nat.eqb (length mask) (length a)) eqn:E;
    [|discriminate].
  intros [= <-]. apply Nat.eqb_eq in E. auto.
Qed.

Lemma lookup_after {A} (h l1 l2 : list A) (n k : nat) :
  n = length h + length l1 + k →
  ((h ++ l1) ++ l2) !! n = l2 !! k.
Proof.
  intros ->. rewrite lookup_app_r by (rewrite length_app; lia).
  f_equal. rewrite length_app. lia.
Qed.

End Setup.

(** ** What the operator reads *)

Section OperatorReads.
Context {F : Type} `{Arith F}.
Variable nr_e2 : list (mat F) → mat F → nat * nat * nat * nat → vec F.

Lemma agree_refl (lz : nat) (s : state F) : agree lz s s.
Proof. unfold agree. auto. Qed.

Lemma blind_ret {A} (lz : nat) (a : A) (Q : A → Prop) :
  Q a → blind (F:=F) lz (ret a) Q.
Proof. intros Ha s1 s2 Hl Hag. cbn [ret fst snd]. repeat split; try apply Hag; auto. intros b [= <-]. exact Ha. Qed.

Lemma blind_raise {A} (lz : nat) (e : exn) (Q : A → Prop) :
  blind (F:=F) lz (raise e) Q.
Proof. intros s1 s2 Hl Hag. cbn [raise fst snd]. repeat split; try apply Hag; auto. intros b [=]. Qed.

Lemma blind_lift {A} (lz : nat) (r : result A) :
  blind (F:=F) lz (lift r) (fun a => r = Ok a).
Proof. intros s1 s2 Hl Hag. cbn [lift fst snd]. repeat split; try apply Hag; auto. Qed.

Lemma blind_bind {A B} (lz : nat) (m : M F A) (k : A → M F B)
    (P : A → Prop) (Q : B → Prop) :
  blind lz m P → (∀ a, P a → blind lz (k a) Q) → blind lz (bind m k) Q.
Proof.
  intros Hm Hk s1 s2 Hl Hag. destruct (Hm s1 s2 Hl Hag) as (Hr & Hag' & Hl' & HP).
  unfold bind. destruct (m s1) as [[a|e] t1], (m s2) as [[a'|e'] t2];
    cbn [fst snd] in *; try discriminate.
  - injection Hr as <-. apply (Hk a (HP a eq_refl) t1 t2 Hl' Hag').
  - injection Hr as <-. repeat split; try apply Hag'; auto. intros b [=].
Qed.

Lemma blind_load (lz l : nat) : l ≠ lz → blind (F:=F) lz (load l) (fun _ => True).
Proof.
  intros Hne s1 s2 Hl Hag. unfold load.
  destruct Hag as (Hlen & Hlook & Hrest). rewrite <- (Hlook l Hne).
  destruct (heap s1 !! l); cbn [fst snd]; unfold agree; auto 10.
Qed.

Lemma blind_alloc (lz : nat) (o : obj F) : blind lz (alloc o) (fun l => lz < l).
Proof.
  intros s1 s2 Hl (Hlen & Hlook & Htd & Hchk & Htr). unfold alloc. cbn [fst snd].
  split; [rewrite Hlen; reflexivity|]. split; [|split].
  - unfold agree, set_heap. cbn [heap td chkfile trace].
    rewrite !length_app, Hlen. repeat split; try assumption.
    intros l Hne. destruct (decide (l < length (heap s1))) as [Hlt|Hge].
    + rewrite !lookup_app_l by lia. apply Hlook, Hne.
    + rewrite !lookup_app_r by lia. rewrite Hlen. reflexivity.
  - cbn [heap set_heap]. rewrite length_app. lia.
  - intros l [= <-]. exact Hl.
Qed.

Lemma blind_store (lz l : nat) (o : obj F) : blind lz (store l o) (fun _ => True).
Proof.
  intros s1 s2 Hl (Hlen & Hlook & Htd & Hchk & Htr). unfold store. rewrite <- Hlen.
  destruct (decide (l < length (heap s1))) as [Hlt|Hge]; cbn [fst snd].
  - split; [reflexivity|]. split; [|split; [|auto]].
    + unfold agree, set_heap. cbn [heap td chkfile trace].
      rewrite !length_insert. repeat split; try assumption.
      intros l' Hne. destruct (decide (l' = l)) as [->|Hne'].
      * rewrite !list_lookup_insert_eq by lia. reflexivity.
      * rewrite !list_lookup_insert_ne by auto. apply Hlook, Hne.
    + cbn [heap set_heap]. rewrite length_insert. exact Hl.
  - unfold agree. auto 10.
Qed.

Lemma blind_forM {A} (lz : nat) (xs : list A) (body : A → M F unit) :
  (∀ a, blind lz (body a) (fun _ => True)) →
  blind lz (forM xs body) (fun _ => True).
Proof.
  intros Hb. induction xs as [|a xs IH]; cbn [forM].
  - apply blind_ret. exact I.
  - eapply blind_bind; [apply Hb|]. intros _ _. exact IH.
Qed.

Lemma blind_load_vec (lz l : nat) : l ≠ lz → blind (F:=F) lz (load_vec l) (fun _ => True).
Proof.
  intros Hne. unfold load_vec. eapply blind_bind; [apply blind_load, Hne|].
  intros o _. destruct o; first [apply blind_raise|apply blind_ret; exact I].
Qed.

Lemma blind_load_mat (lz l : nat) : l ≠ lz → blind (F:=F) lz (load_mat l) (fun _ => True).
Proof.
  intros Hne. unfold load_mat. eapply blind_bind; [apply blind_load, Hne|].
  intros o _. destruct o; first [apply blind_raise|apply blind_ret; exact I].
Qed.

Lemma blind_load_tens (lz l : nat) : l ≠ lz → blind (F:=F) lz (load_tens l) (fun _ => True).
Proof.
  intros Hne. unfold load_tens. eapply blind_bind; [apply blind_load, Hne|].
  intros o _. destruct o; first [apply blind_raise|apply blind_ret; exact I].
Qed.

Ltac blind_step :=
  first
    [ apply blind_lift
    | apply blind_alloc
    | apply blind_store
    | apply blind_raise
    | (apply blind_load_vec; lia)
    | (apply blind_load_mat; lia)
    | (apply blind_load_tens; lia) ].

Ltac blind_run :=
  repeat match goal with
         | |- blind _ (bind _ _) _ =>
             eapply blind_bind; [blind_step|intros ? ?; cbv beta in *]
         end.

Lemma blind_set_block (lz l sp i nao nb : nat) (m : mat F) :
  l ≠ lz → blind lz (set_block l sp i nao nb m) (fun _ => True).
Proof.
  intros Hl. unfold set_block. blind_run.
  destruct (decide _); [apply blind_store|apply blind_raise].
Qed.

Lemma blind_update_row (lz l i : nat) (f : F → F → F) (b : vec F) :
  l ≠ lz → blind lz (update_row l i f b) (fun _ => True).
Proof. intros Hl. unfold update_row. blind_run. apply blind_store. Qed.

Lemma blind_vind_density (lz : nat) (c : closure F) (l_zs l_dmvo i : nat) :
  closure_avoids c lz → l_zs ≠ lz → l_dmvo ≠ lz →
  blind lz (vind_density c l_zs l_dmvo i) (fun _ => True).
Proof.
  intros (? & ? & ? & ? & ? & ? & ? & ?) Hz Hd. unfold vind_density. blind_run.
  eapply blind_bind; [apply blind_set_block; exact Hd|intros _ _].
  blind_run. apply blind_set_block; exact Hd.
Qed.

Lemma blind_vind_diag (lz : nat) (c : closure F) (l_hx : nat) (iz : nat * vec F) :
  closure_avoids c lz → l_hx ≠ lz →
  blind lz (vind_diag c l_hx iz) (fun _ => True).
Proof.
  intros (? & ? & ? & ? & ? & ? & ? & ?) Hx. unfold vind_diag. blind_run.
  eapply blind_bind; [apply blind_update_row; exact Hx|intros _ _].
  blind_run. apply blind_update_row; exact Hx.
Qed.

(** The body of the operator looks at the batch it is given and at the
    captured arrays only. *)
Lemma blind_vind_body (lz : nat) (c : closure F) (nz l_zs : nat) :
  closure_avoids c lz → l_zs ≠ lz →
  blind lz (vind_body nr_e2 c nz l_zs) (fun l => lz < l).
Proof.
  intros Hc Hz. pose proof Hc as (? & ? & ? & ? & ? & ? & ? & ?).
  unfold vind_body. blind_run.
  eapply blind_bind.
  { apply blind_forM. intros i. apply blind_vind_density; [exact Hc|exact Hz|lia]. }
  intros _ _. blind_run.
  eapply blind_bind.
  { apply blind_forM. intros iz. apply blind_vind_diag; [exact Hc|lia]. }
  intros _ _. apply blind_ret. assumption.
Qed.
End OperatorReads.

(** ** The symmetry filter of the operator *)

Section OperatorMask.
Context {F : Type} `{Arith F}.
Variable nr_e2 : list (mat F) → mat F → nat * nat * nat * nat → vec F.

Lemma zero_where_entries (mask : list bool) (row row' : vec F) :
  zero_where mask row = Ok row' →
  length row' = length row ∧ length row = length mask ∧
  ∀ k, (mask !! k = Some true → row' !! k = Some fzero) ∧
       (mask !! k = Some false → row' !! k = row !! k).
Proof.
  unfold zero_where. destruct (Nat.eqb (length mask) (length row)) eqn:E;
    [|discriminate].
  apply Nat.eqb_eq in E. intros [= <-].
  split; [rewrite length_zip_with; lia|]. split; [lia|].
  intros k. rewrite lookup_zip_with. split; intros Hk; rewrite Hk; cbn.
  - destruct (lookup_lt_is_Some_2 row k) as [x Hx];
      [rewrite <- E; eapply lookup_lt_Some, Hk|].
    rewrite Hx. reflexivity.
  - destruct (row !! k); reflexivity.
Qed.

Lemma zero_cols_entries (mask : list bool) (zs zs' : mat F) :
  zero_cols mask zs = Ok zs' →
  length zs' = length zs ∧
  ∀ i row', zs' !! i = Some row' →
    ∃ row, zs !! i = Some row ∧
      length row' = length row ∧ length row = length mask ∧
      ∀ k, (mask !! k = Some true → row' !! k = Some fzero) ∧
           (mask !! k = Some false → row' !! k = row !! k).
Proof.
  intros [_ [Hlen Hall]%mapR_lookup]%zero_cols_rows. split; [exact Hlen|].
  intros i row' Hi.
  destruct (lookup_lt_is_Some_2 zs i) as [row Hrow];
    [rewrite <- Hlen; eapply lookup_lt_Some, Hi|].
  destruct (Hall i row Hrow) as (r & Hz & Hr).
  rewrite Hi in Hr. injection Hr as <-.
  exists row. split; [exact Hrow|]. apply zero_where_entries, Hz.
Qed.

Lemma vind_filter_run (c : closure F) (l_zs l_mask : loc) (s : state F)
    (zs : mat F) (mask : list bool) :
  filter_on (c_wfnsym c) (c_symmetry c) = true →
  c_sym_forbid c = Some l_mask →
  heap s !! l_zs = Some (OMat zs) →
  heap s !! l_mask = Some (OMask mask) →
  vind nr_e2 c l_zs s =
  match np_copy zs with
  | Ok zs0 =>
      match zero_cols mask zs0 with
      | Ok zs' => vind_body nr_e2 c (length zs) (length (heap s))
                    (set_heap (heap s ++ [OMat zs']) s)
      | Err e => (Err e, set_heap (heap s ++ [OMat zs0]) s)
      end
  | Err e => (Err e, s)
  end.
Proof.
  intros Hon Hc Hzs Hmask.
  assert (Hlz : l_zs < length (heap s)) by (eapply lookup_lt_Some, Hzs).
  assert (Hlm : l_mask < length (heap s)) by (eapply lookup_lt_Some, Hmask).
  unfold vind. rewrite (bind_ok _ _ _ _ _ (load_mat_ok _ _ _ Hzs)).
  unfold vind_mask. rewrite Hon, Hc.
  unfold bind at 1. unfold bind at 1.
  rewrite (load_mat_ok _ _ _ Hzs).
  unfold bind at 1. unfold lift at 1.
  destruct (np_copy zs) as [zs0|e0] eqn:Hcp; [|reflexivity].
  apply np_copy_inv in Hcp as ->.
  unfold bind at 1. unfold alloc at 1.
  assert (Hm' : heap (set_heap (heap s ++ [OMat zs]) s) !! l_mask = Some (OMask mask)).
  { cbn [heap set_heap]. rewrite lookup_app_l by exact Hlm. exact Hmask. }
  unfold bind at 1. rewrite (load_mask_ok _ _ _ Hm').
  assert (Hz' : heap (set_heap (heap s ++ [OMat zs]) s) !! length (heap s) = Some (OMat zs)).
  { cbn [heap set_heap]. apply lookup_snoc. }
  unfold bind at 1. rewrite (load_mat_ok _ _ _ Hz').
  unfold bind at 1. unfold lift at 1.
  destruct (zero_cols mask zs) as [zs'|e]; [|reflexivity].
  unfold bind at 1.
  rewrite store_ok by (cbn [heap set_heap]; rewrite length_app; simpl; lia).
  cbn [heap set_heap ret]. rewrite insert_snoc. reflexivity.
Qed.

(** C4.  With the symmetry filter on, a call of the operator copies the
    trial batch, sets the entries of every copied vector to 0 at the
    forbidden places and runs the rest of the call, both the rescale by [d]
    and the diagonal term, on that copy.  What the solver supplied at the
    forbidden places plays no part: a batch with other entries there gives
    the same outcome and the same result batch.  (A batch that
    [numpy.copy] refuses, its vectors being of different lengths, ends the
    call with that ValueError; an empty batch, or one whose vectors do not
    have the length of the mask, ends it with the IndexError of the
    assignment, before anything is computed.) *)
Theorem symmetry_mask_applied (c : closure F) (l_zs l_mask : loc) (s : state F)
    (zs : mat F) (mask : list bool) :
  filter_on (c_wfnsym c) (c_symmetry c) = true →
  c_sym_forbid c = Some l_mask →
  heap s !! l_zs = Some (OMat zs) →
  heap s !! l_mask = Some (OMask mask) →
  match np_copy zs with
  | Ok zs0 =>
      match zero_cols mask zs0 with
      | Ok zs' =>
          let l' := length (heap s) in
          let s1 := set_heap (heap s ++ [OMat zs']) s in
          zs0 = zs ∧
          vind nr_e2 c l_zs s = vind_body nr_e2 c (length zs) l' s1 ∧
          heap s1 !! l' = Some (OMat zs') ∧
          heap s1 !! l_zs = Some (OMat zs) ∧
          length zs' = length zs ∧
          (∀ i row', zs' !! i = Some row' →
             ∃ row, zs !! i = Some row ∧
               length row' = length row ∧ length row = length mask ∧
               ∀ k, (mask !! k = Some true → row' !! k = Some fzero) ∧
                    (mask !! k = Some false → row' !! k = row !! k)) ∧
          (closure_avoids c l_zs →
           ∀ zs2, zero_cols mask zs2 = Ok zs' →
             let r := vind nr_e2 c l_zs s in
             let r2 := vind nr_e2 c l_zs (set_heap (<[l_zs := OMat zs2]> (heap s)) s) in
             fst r2 = fst r ∧
             ∀ l_hx, fst r = Ok l_hx → heap (snd r2) !! l_hx = heap (snd r) !! l_hx)
      | Err e =>
          vind nr_e2 c l_zs s = (Err e, set_heap (heap s ++ [OMat zs0]) s)
      end
  | Err e => vind nr_e2 c l_zs s = (Err e, s)
  end.
Proof.
  intros Hon Hc Hzs Hmask.
  assert (Hlz : l_zs < length (heap s)) by (eapply lookup_lt_Some, Hzs).
  pose proof (vind_filter_run c l_zs l_mask s zs mask Hon Hc Hzs Hmask) as Hrun.
  destruct (np_copy zs) as [zs0|e0] eqn:Hcp; [|exact Hrun].
  apply np_copy_inv in Hcp as ->.
  destruct (zero_cols mask zs) as [zs'|e] eqn:Hzc; [|exact Hrun].
  cbn zeta. split; [reflexivity|]. split; [exact Hrun|].
  split; [cbn [heap set_heap]; apply lookup_snoc|].
  split; [cbn [heap set_heap]; rewrite lookup_app_l by exact Hlz; exact Hzs|].
  destruct (zero_cols_entries _ _ _ Hzc) as [Hlen Hent].
  split; [exact Hlen|]. split; [exact Hent|].
  intros Hav zs2 Hzc2.
  destruct (zero_cols_entries _ _ _ Hzc2) as [Hlen2 _].
  set (s2 := set_heap (<[l_zs := OMat zs2]> (heap s)) s).
  assert (Hne : l_mask ≠ l_zs) by (intros ->; congruence).
  assert (Hzs2 : heap s2 !! l_zs = Some (OMat zs2))
    by (cbn [heap set_heap s2]; apply list_lookup_insert_eq, Hlz).
  assert (Hmask2 : heap s2 !! l_mask = Some (OMask mask))
    by (cbn [heap set_heap s2]; rewrite list_lookup_insert_ne by auto; exact Hmask).
  pose proof (vind_filter_run c l_zs l_mask s2 zs2 mask Hon Hc Hzs2 Hmask2) as Hrun2.
  rewrite (zero_cols_np_copy _ _ _ Hzc2), Hzc2 in Hrun2. rewrite Hrun, Hrun2.
  replace (length zs2) with (length zs) by congruence.
  replace (length (heap s2)) with (length (heap s))
    by (cbn [heap set_heap s2]; rewrite length_insert; reflexivity).
  destruct (blind_vind_body nr_e2 l_zs c (length zs) (length (heap s)) Hav
              ltac:(lia)
              (set_heap (heap s ++ [OMat zs']) s)
              (set_heap (heap s2 ++ [OMat zs']) s2))
    as (Hr & (_ & Hlook & _) & _ & Hq).
  { cbn [heap set_heap]. rewrite length_app. lia. }
  { unfold agree, s2. cbn [heap td chkfile trace set_heap].
    rewrite !length_app, length_insert. repeat split.
    intros l Hl. destruct (decide (l < length (heap s))) as [Hlt|Hge].
    - rewrite !lookup_app_l by (rewrite ?length_insert; lia).
      rewrite list_lookup_insert_ne by auto. reflexivity.
    - rewrite !lookup_app_r by (rewrite ?length_insert; lia).
      rewrite length_insert. reflexivity. }
  split; [symmetry; exact Hr|].
  intros l_hx Hx. symmetry. apply Hlook. specialize (Hq l_hx Hx). lia.
Qed.
End OperatorMask.

(** ** The reconstruction, pair by pair *)

Section ReconOutcome.
Context {F : Type} `{Arith F}.

Lemma chunks_shape (r c : nat) (v : vec F) :
  length v = r * c → has_shape r c (chunks r c v).
Proof.
  revert v. induction r as [|r IH]; intros v Hv; cbn [chunks].
  - split; [reflexivity|constructor].
  - destruct (IH (drop c v)) as [Hl Hr]; [rewrite length_drop; lia|].
    split; [simpl; lia|]. constructor; [|exact Hr].
    rewrite length_take. lia.
Qed.

Lemma reshape2_shape (r c : nat) (v : vec F) (m : mat F) :
  reshape2 r c v = Ok m → has_shape r c m.
Proof.
  unfold reshape2. destruct (Nat.eqb (length v) (r * c)) eqn:E; [|discriminate].
  intros [= <-]. apply chunks_shape, Nat.eqb_eq, E.
Qed.

Lemma scale_shape (r c : nat) (nrm : F) (m : mat F) :
  has_shape r c m → has_shape r c (scale nrm m).
Proof.
  intros [Hl Hr]. unfold scale. split; [rewrite length_map; exact Hl|].
  rewrite Forall_map. eapply Forall_impl; [exact Hr|].
  intros row Hrow. cbv beta. rewrite length_map. exact Hrow.
Qed.

Lemma split_scaled_shape (nocca nvira noccb nvirb : nat) (nrm : F) (v : vec F)
    (ma mb : mat F) :
  split_scaled nocca nvira noccb nvirb nrm v = Ok (ma, mb) →
  has_shape nvira nocca ma ∧ has_shape nvirb noccb mb.
Proof.
  unfold split_scaled.
  destruct (reshape2 nvira nocca _) as [a|] eqn:Ea; cbn [rbind]; [|discriminate].
  destruct (reshape2 nvirb noccb _) as [b|] eqn:Eb; cbn [rbind]; [|discriminate].
  intros [= <- <-]. split; apply scale_shape; eapply reshape2_shape; eassumption.
Qed.

Lemma split_scaled_blocks (nocca nvira noccb nvirb : nat) (nrm : F) (v : vec F)
    (blk : mat F * mat F) :
  split_scaled nocca nvira noccb nvirb nrm v = Ok blk →
  amplitude_blocks nocca nvira noccb nvirb nrm v blk.
Proof.
  intros Hs. destruct blk as [ma mb].
  destruct (split_scaled_shape _ _ _ _ _ _ _ _ Hs) as [Ha Hb].
  unfold split_scaled in Hs.
  destruct (reshape2 nvira nocca _) as [a|] eqn:Ea; cbn [rbind] in Hs; [|discriminate].
  destruct (reshape2 nvirb noccb _) as [b|] eqn:Eb; cbn [rbind] in Hs; [|discriminate].
  injection Hs as <- <-.
  unfold amplitude_blocks. cbn [fst snd].
  split; [exact Ha|]. split; [exact Hb|].
  rewrite !concat_scale.
  rewrite (reshape2_concat _ _ _ _ Ea), (reshape2_concat _ _ _ _ Eb). auto.
Qed.

Lemma amplitudes_entries (raw : vec F) (w2i : F) (z x y : vec F) :
  length z = length raw →
  amplitudes (map fsqrt raw) (fsqrt w2i) z = Ok (x, y) →
  amplitudes_of raw w2i z x y.
Proof.
  intros Hz. rewrite amplitudes_same_length by (rewrite length_map; exact Hz).
  intros [= <- <-]. unfold amplitudes_of.
  split; [rewrite !length_map, !length_zip_with, !length_map; lia|].
  split; [rewrite !length_map, !length_zip_with, !length_map; lia|].
  intros k r zk Hr Hzk. cbn zeta.
  rewrite !map_fmap, !list_lookup_fmap, !lookup_zip_with.
  rewrite !list_lookup_fmap, Hr. cbn.
  rewrite Hzk. split; reflexivity.
Qed.

Lemma recon_one_outcome (raw : vec F) (nocca nvira noccb nvirb : nat) (w2i : F)
    (z : vec F) (o : option (F * xyT F)) :
  length z = length raw →
  recon_one (map fsqrt raw) nocca nvira noccb nvirb w2i z = Ok o →
  pair_outcome raw nocca nvira noccb nvirb w2i z o.
Proof.
  intros Hz. unfold recon_one, pair_outcome.
  destruct (fltb w2i fzero); [congruence|].
  destruct (amplitudes (map fsqrt raw) (fsqrt w2i) z) as [[x y]|] eqn:Ha;
    cbn [rbind fst snd]; [|discriminate].
  intros Hacc. exists x, y. split; [apply amplitudes_entries; assumption|].
  cbn zeta. unfold recon_accept in Hacc.
  destruct (fltb fzero (xy_norm x y)); [|congruence].
  destruct (split_scaled _ _ _ _ _ x) as [xs|] eqn:Ex; cbn [rbind] in Hacc; [|discriminate].
  destruct (split_scaled _ _ _ _ _ y) as [ys|] eqn:Ey; cbn [rbind] in Hacc; [|discriminate].
  exists xs, ys. split; [apply split_scaled_blocks, Ex|].
  split; [apply split_scaled_blocks, Ey|congruence].
Qed.

(** A run of the reconstruction, eigenvector by eigenvector. *)
Lemma reconstruct_outcomes (ea eb oa ob w2 : vec F) (x1 : mat F)
    (e : vec F) (xy : list (xyT F)) :
  reconstruct ea eb oa ob w2 x1 = Ok (e, xy) →
  ∃ (raw : vec F) (outs : list (option (F * xyT F))),
    energy_differences ea eb oa ob raw ∧
    length outs = length x1 ∧
    (e, xy) = collect outs ∧
    ∀ i z, x1 !! i = Some z →
      ∃ w2i o, w2 !! i = Some w2i ∧ outs !! i = Some o ∧
        recon_one (map fsqrt raw) (length (occidx oa)) (length (viridx oa))
          (length (occidx ob)) (length (viridx ob)) w2i z = Ok o.
Proof.
  unfold reconstruct, kernel_eai.
  destruct (e_ai_spin ea oa) as [raw_a|] eqn:Ha; cbn [rbind]; [|discriminate].
  destruct (e_ai_spin eb ob) as [raw_b|] eqn:Hb; cbn [rbind]; [|discriminate].
  intros (outs & Hf & -> & ->)%recon_loop_outs.
  destruct (enumerate_outs _ _ _ _ _ _ _ _ Hf) as (Hlen & _ & Hall).
  exists (raw_a ++ raw_b), outs.
  split; [apply energy_differences_app; assumption|].
  split; [exact Hlen|]. split; [|exact Hall].
  cbn [app]. destruct (collect outs); reflexivity.
Qed.
End ReconOutcome.

(** ** The last part of the driver *)

Section Finish.
Context {F : Type} `{Arith F}.
Variable chk_fault :
  gmap string (chkval F) → string → chkval F → option (exn * option (chkval F)).

Lemma load_vec_cases (l : loc) (s : state F) :
  (∃ v, heap s !! l = Some (OVec v) ∧ load_vec l s = (Ok v, s)) ∨
  (∃ e, load_vec l s = (Err e, s)).
Proof.
  cbv [load_vec bind load].
  destruct (heap s !! l) as [[v|m|b|t]|]; cbv [ret raise]; eauto.
Qed.

(** The ways [kernel]'s last part can end: before the results are
    stored; with the results stored and the first or the second
    checkpoint write refused; with both written. *)
Lemma kernel_finish_cases (conv : bool) (w2 : vec F) (x1 : mat F) (s : state F) :
  (∃ e, kernel_finish chk_fault conv w2 x1 s
        = (Err e, set_td (set_converged conv (td s)) s)) ∨
  (∃ ea eb oa ob r,
     heap s !! fst (mo_energy (t_scf (td s))) = Some (OVec ea) ∧
     heap s !! snd (mo_energy (t_scf (td s))) = Some (OVec eb) ∧
     heap s !! fst (mo_occ (t_scf (td s))) = Some (OVec oa) ∧
     heap s !! snd (mo_occ (t_scf (td s))) = Some (OVec ob) ∧
     reconstruct ea eb oa ob w2 x1 = Ok r ∧
     let t1 := set_xy (snd r) (set_e (fst r) (set_converged conv (td s))) in
     let f1 := <["tddft/e" := ChkE (fst r)]> (chkfile s) in
     match chk_fault (chkfile s) "tddft/e" (ChkE (fst r)) with
     | Some (e, kept) =>
         kernel_finish chk_fault conv w2 x1 s
         = (Err e, State (heap s) t1
                     (partial_alter (fun _ => kept) "tddft/e" (chkfile s))
                     (trace s ++ [EvChkSave "tddft/e"]))
     | None =>
         match chk_fault f1 "tddft/xy" (ChkXY (snd r)) with
         | Some (e, kept) =>
             kernel_finish chk_fault conv w2 x1 s
             = (Err e, State (heap s) t1
                         (partial_alter (fun _ => kept) "tddft/xy" f1)
                         (trace s ++ [EvChkSave "tddft/e"] ++ [EvChkSave "tddft/xy"]))
         | None =>
             kernel_finish chk_fault conv w2 x1 s
             = (Ok r, State (heap s) t1 (<["tddft/xy" := ChkXY (snd r)]> f1)
                        (trace s ++ [EvChkSave "tddft/e"] ++ [EvChkSave "tddft/xy"]))
         end
     end).
Proof.
  set (s0 := set_td (set_converged conv (td s)) s).
  assert (Hstart : ∀ k : solver F → M F (vec F * list (xyT F)),
            bind (modify_td (set_converged conv)) (fun _ => bind get_td k) s
            = k (set_converged conv (td s)) s0) by reflexivity.
  unfold kernel_finish. rewrite Hstart. cbn [t_scf set_converged].
  destruct (load_vec_cases (fst (mo_energy (t_scf (td s)))) s0)
    as [(ea & Hea & Hrun)|(e & Hrun)];
    [rewrite (bind_ok _ _ _ _ _ Hrun); clear Hrun
    |left; exists e; apply bind_err, Hrun].
  destruct (load_vec_cases (snd (mo_energy (t_scf (td s)))) s0)
    as [(eb & Heb & Hrun)|(e & Hrun)];
    [rewrite (bind_ok _ _ _ _ _ Hrun); clear Hrun
    |left; exists e; apply bind_err, Hrun].
  destruct (load_vec_cases (fst (mo_occ (t_scf (td s)))) s0)
    as [(oa & Hoa & Hrun)|(e & Hrun)];
    [rewrite (bind_ok _ _ _ _ _ Hrun); clear Hrun
    |left; exists e; apply bind_err, Hrun].
  destruct (load_vec_cases (snd (mo_occ (t_scf (td s)))) s0)
    as [(ob & Hob & Hrun)|(e & Hrun)];
    [rewrite (bind_ok _ _ _ _ _ Hrun); clear Hrun
    |left; exists e; apply bind_err, Hrun].
  destruct (reconstruct ea eb oa ob w2 x1) as [r|e] eqn:Hr.
  - right. exists ea, eb, oa, ob, r. repeat (split; [assumption|]).
    cbn zeta.
    cbv [bind lift modify_td get_td put_td chk_save ret s0].
    cbn [heap td chkfile trace set_td].
    destruct (chk_fault (chkfile s) "tddft/e" (ChkE (fst r))) as [[e1 l1]|];
      [reflexivity|].
    cbn [heap td chkfile trace set_td].
    destruct (chk_fault _ "tddft/xy" (ChkXY (snd r))) as [[e2 l2]|];
      rewrite <- app_assoc; reflexivity.
  - left. exists e. reflexivity.
Qed.

Lemma kernel_finish_inv (conv : bool) (w2 : vec F) (x1 : mat F) (s s' : state F)
    (r : vec F * list (xyT F)) :
  kernel_finish chk_fault conv w2 x1 s = (Ok r, s') →
  s' = State (heap s)
         (set_xy (snd r) (set_e (fst r) (set_converged conv (td s))))
         (<["tddft/xy" := ChkXY (snd r)]> (<["tddft/e" := ChkE (fst r)]> (chkfile s)))
         (trace s ++ [EvChkSave "tddft/e"] ++ [EvChkSave "tddft/xy"]).
Proof.
  intros Hrun.
  destruct (kernel_finish_cases conv w2 x1 s)
    as [(e0 & He)|(ea & eb & oa & ob & r' & _ & _ & _ & _ & _ & Hend)];
    [rewrite He in Hrun; discriminate|].
  cbn zeta in Hend.
  destruct (chk_fault (chkfile s) "tddft/e" (ChkE (fst r'))) as [[e1 l1]|];
    [rewrite Hend in Hrun; discriminate|].
  destruct (chk_fault _ "tddft/xy" (ChkXY (snd r'))) as [[e2 l2]|];
    rewrite Hend in Hrun; [discriminate|].
  injection Hrun as -> <-. reflexivity.
Qed.

Lemma kernel_finish_ok (conv : bool) (w2 : vec F) (x1 : mat F) (s : state F)
    (ea eb oa ob : vec F) (r : vec F * list (xyT F)) :
  heap s !! fst (mo_energy (t_scf (td s))) = Some (OVec ea) →
  heap s !! snd (mo_energy (t_scf (td s))) = Some (OVec eb) →
  heap s !! fst (mo_occ (t_scf (td s))) = Some (OVec oa) →
  heap s !! snd (mo_occ (t_scf (td s))) = Some (OVec ob) →
  reconstruct ea eb oa ob w2 x1 = Ok r →
  (∀ f key v, chk_fault f key v = None) →
  kernel_finish chk_fault conv w2 x1 s
  = (Ok r,
     State (heap s)
       (set_xy (snd r) (set_e (fst r) (set_converged conv (td s))))
       (<["tddft/xy" := ChkXY (snd r)]> (<["tddft/e" := ChkE (fst r)]> (chkfile s)))
       (trace s ++ [EvChkSave "tddft/e"] ++ [EvChkSave "tddft/xy"])).
Proof.
  intros Hea Heb Hoa Hob Hr Hchk.
  cbv [kernel_finish bind modify_td get_td put_td load_vec load lift ret
       raise chk_save].
  cbn [heap td set_td t_scf set_converged fst snd].
  rewrite Hea; cbn [heap td set_td t_scf set_converged fst snd].
  rewrite Heb; cbn [heap td set_td t_scf set_converged fst snd].
  rewrite Hoa; cbn [heap td set_td t_scf set_converged fst snd].
  rewrite Hob; cbn [heap td set_td t_scf set_converged fst snd].
  rewrite Hr. cbn [heap td chkfile trace set_td]. rewrite !Hchk.
  cbn [heap td chkfile trace set_td]. rewrite ?Hchk.
  rewrite <- app_assoc. reflexivity.
Qed.

(** The last part of the driver returns when the energies and occupations
    are in place, the solver kept its contract and the checkpoint store
    takes the two writes. *)
Lemma kernel_finish_total (conv : bool) (w2 : vec F) (x1 : mat F) (s : state F)
    (ea eb oa ob : vec F) :
  heap s !! fst (mo_energy (t_scf (td s))) = Some (OVec ea) →
  heap s !! snd (mo_energy (t_scf (td s))) = Some (OVec eb) →
  heap s !! fst (mo_occ (t_scf (td s))) = Some (OVec oa) →
  heap s !! snd (mo_occ (t_scf (td s))) = Some (OVec ob) →
  length ea = length oa → length eb = length ob →
  length x1 ≤ length w2 →
  Forall (fun z => length z = length (viridx oa) * length (occidx oa)
                           + length (viridx ob) * length (occidx ob)) x1 →
  (∀ f key v, chk_fault f key v = None) →
  ∃ r s', kernel_finish chk_fault conv w2 x1 s = (Ok r, s').
Proof.
  intros Hea Heb Hoa Hob Hla Hlb Hlen Hall Hchk.
  destruct (e_ai_spin_total ea oa Hla) as [raw_a Ha].
  destruct (e_ai_spin_total eb ob Hlb) as [raw_b Hb].
  destruct (reconstruct_total ea eb oa ob raw_a raw_b w2 x1 Ha Hb Hlen Hall) as [r Hr].
  exists r. eexists. apply (kernel_finish_ok conv w2 x1 s ea eb oa ob r); assumption.
Qed.

(** C6.  The last part of the driver returns when the orbital energies
    and occupations are in place, the solver kept its contract and the two
    checkpoint writes are taken.  Whenever it returns, it has read the
    orbital energies and occupations of the mean-field object and worked
    with [raw], the virtual-minus-occupied differences themselves, alpha
    block then beta: the target irrep and the symmetry flag of the state
    play no part and no entry is set to 0.  Its result is what the loop
    yields for each eigenvector [x1[i]] with the eigenvalue [w2[i]], in
    order: nothing when [w2[i] < 0]; otherwise, with [w = sqrt(w2[i])],
    [zp = sqrt(raw) * z] and [zm = w / sqrt(raw) * z] entry by entry, the
    vectors [x = (zp + zm) * .5] and [y = (zp - zm) * .5], which are
    dropped when their norm is not above 0 and otherwise returned with
    [w], split into the blocks of the two spins and rescaled. *)
Theorem reconstruct_formula (s : state F) (conv : bool) (w2 : vec F) (x1 : mat F) :
  (∀ ea eb oa ob,
     heap s !! fst (mo_energy (t_scf (td s))) = Some (OVec ea) →
     heap s !! snd (mo_energy (t_scf (td s))) = Some (OVec eb) →
     heap s !! fst (mo_occ (t_scf (td s))) = Some (OVec oa) →
     heap s !! snd (mo_occ (t_scf (td s))) = Some (OVec ob) →
     length ea = length oa → length eb = length ob →
     length x1 ≤ length w2 →
     Forall (fun z => length z = length (viridx oa) * length (occidx oa)
                              + length (viridx ob) * length (occidx ob)) x1 →
     (∀ f key v, chk_fault f key v = None) →
     ∃ r s', kernel_finish chk_fault conv w2 x1 s = (Ok r, s')) ∧
  ∀ (e : vec F) (xy : list (xyT F)) (s' : state F),
    kernel_finish chk_fault conv w2 x1 s = (Ok (e, xy), s') →
    ∃ (ea eb oa ob raw : vec F) (outs : list (option (F * xyT F))),
      heap s !! fst (mo_energy (t_scf (td s))) = Some (OVec ea) ∧
      heap s !! snd (mo_energy (t_scf (td s))) = Some (OVec eb) ∧
      heap s !! fst (mo_occ (t_scf (td s))) = Some (OVec oa) ∧
      heap s !! snd (mo_occ (t_scf (td s))) = Some (OVec ob) ∧
      energy_differences ea eb oa ob raw ∧
      length outs = length x1 ∧
      (e, xy) = collect outs ∧
      let nocca := length (occidx oa) in
      let noccb := length (occidx ob) in
      let nvira := length (viridx oa) in
      let nvirb := length (viridx ob) in
      ∀ i z, x1 !! i = Some z →
        ∃ w2i o,
          w2 !! i = Some w2i ∧ outs !! i = Some o ∧
          (fltb w2i fzero = true → o = None) ∧
          (fltb w2i fzero = false → length z = length raw →
           ∃ x y : vec F,
             length x = length raw ∧ length y = length raw ∧
             (∀ (k : nat) (r zk : F),
                raw !! k = Some r → z !! k = Some zk →
                let w := fsqrt w2i in
                let zp := fmul (fsqrt r) zk in
                let zm := fmul (fdiv w (fsqrt r)) zk in
                x !! k = Some (fmul (fadd zp zm) fhalf) ∧
                y !! k = Some (fmul (fsub zp zm) fhalf)) ∧
             let nrm := xy_norm x y in
             if fltb fzero nrm then
               ∃ xs ys,
                 amplitude_blocks nocca nvira noccb nvirb
                   (fdiv fone (fsqrt nrm)) x xs ∧
                 amplitude_blocks nocca nvira noccb nvirb
                   (fdiv fone (fsqrt nrm)) y ys ∧
                 o = Some (fsqrt w2i, (xs, ys))
             else o = None).
Proof.
  split.
  { intros ea eb oa ob Hea Heb Hoa Hob Hla Hlb Hlen Hall Hchk.
    apply (kernel_finish_total conv w2 x1 s ea eb oa ob); assumption. }
  intros e xy s' Hrun.
  destruct (kernel_finish_cases conv w2 x1 s)
    as [(e0 & He)|(ea & eb & oa & ob & r & Hea & Heb & Hoa & Hob & Hr & Hend)];
    [rewrite He in Hrun; discriminate|].
  assert (Hre : r = (e, xy)).
  { cbn zeta in Hend.
    destruct (chk_fault (chkfile s) "tddft/e" (ChkE (fst r))) as [[e1 l1]|];
      [rewrite Hend in Hrun; discriminate|].
    destruct (chk_fault _ "tddft/xy" (ChkXY (snd r))) as [[e2 l2]|];
      rewrite Hend in Hrun; [discriminate|].
    congruence. }
  subst r. clear Hend.
  destruct (reconstruct_outcomes _ _ _ _ _ _ _ _ Hr) as (raw & outs & Hraw & Hlen & Hc & Hall).
  exists ea, eb, oa, ob, raw, outs.
  do 4 (split; [assumption|]).
  split; [exact Hraw|]. split; [exact Hlen|]. split; [exact Hc|].
  cbn zeta. intros i z Hz.
  destruct (Hall i z Hz) as (w2i & o & Hw & Ho & Hone).
  exists w2i, o. split; [exact Hw|]. split; [exact Ho|]. split.
  - intros Hneg. unfold recon_one in Hone. rewrite Hneg in Hone.
    injection Hone as <-. reflexivity.
  - intros Hpos Hzl.
    pose proof (recon_one_outcome _ _ _ _ _ _ _ _ Hzl Hone) as Hp.
    unfold pair_outcome in Hp. rewrite Hpos in Hp.
    destruct Hp as (x & y & (Hx & Hy & Hent) & Hacc).
    exists x, y. auto.
Qed.
End Finish.

(** ** The driver *)

Section Driver.
Context {F : Type} `{Arith F} {Precond : Type}.
Variable is_hybrid_xc : string → bool.
Variable get_orbsym : mat F * mat F → list Z * list Z.
Variable gen_uhf_response :
  mat F * mat F → vec F * vec F → list (list (mat F)) → list (mat F) * list (mat F).
Variable nr_e2 : list (mat F) → mat F → nat * nat * nat * nat → vec F.
Variable get_precond : vec F → Precond.
Variable init_guess : vec F * vec F → vec F * vec F → nat → mat F.
Variable davidson1 :
  (mat F → result (mat F)) → mat F → Precond → F → nat → F → nat → nat →
  result (bool * vec F * mat F).
Variable chk_fault :
  gmap string (chkval F) → string → chkval F → option (exn * option (chkval F)).

Local Abbreviation the_setup :=
  (kernel_setup is_hybrid_xc get_orbsym gen_uhf_response get_precond init_guess).
Local Abbreviation the_davidson := (call_davidson nr_e2 davidson1).
Local Abbreviation the_kernel :=
  (kernel is_hybrid_xc get_orbsym gen_uhf_response nr_e2 get_precond init_guess
     davidson1 chk_fault).

(** C1.  With a functional classified as hybrid, [kernel] raises
    RuntimeError.  The only call made is the classification itself, once:
    the heap holds no new array (the operator and the diagonal vectors
    are not built), the solver object and the checkpoint file are as
    before, and no solver call, initial guess or reconstruction takes
    place. *)
Theorem hybrid_rejected (x0 : option (mat F)) (nstates : option nat) (s : state F) :
  is_hybrid_xc (xc (t_scf (td s))) = true →
  the_kernel x0 nstates s
  = (Err RuntimeError,
     State (heap s) (td s) (chkfile s)
       (trace s ++ [EvIsHybridXc (xc (t_scf (td s)))])).
Proof.
  intros Hh. unfold kernel. apply bind_err.
  unfold kernel_setup.
  erewrite bind_ok by reflexivity.
  erewrite bind_ok by reflexivity.
  cbn [td]. rewrite Hh. reflexivity.
Qed.

Lemma kernel_setup_inv (x0 : option (mat F)) (nstates : option nat)
    (s s1 : state F) (c : closure F) (precond : Precond) (x0' : mat F) (ns : nat) :
  the_setup x0 nstates s = (Ok (c, precond, x0', ns), s1) →
  is_hybrid_xc (xc (t_scf (td s))) = false ∧
  ∃ (sa sb : state F) (l_hdiag : loc),
    get_vind get_orbsym gen_uhf_response (t_scf (td s)) sa = (Ok (c, l_hdiag), sb) ∧
    heap sa = heap s ∧ t_scf (td sa) = t_scf (td s) ∧ chkfile sa = chkfile s ∧
    heap s1 = heap sb ∧ td s1 = td sb ∧ chkfile s1 = chkfile sb.
Proof.
  unfold kernel_setup, modify_td. intros Hrun.
  apply bind_inv in Hrun as (self & s0 & [-> ->]%get_td_inv & Hrun).
  apply bind_inv in Hrun as (u & s0 & ->%log_inv & Hrun).
  destruct (is_hybrid_xc (xc (t_scf (td s)))); [discriminate|].
  split; [reflexivity|].
  destruct nstates as [n|], x0 as [x|]; inv_run;
    match goal with
    | Hg : get_vind _ _ _ _ = (Ok ?r, ?sb) |- _ =>
        destruct r as [c' l]; cbn [fst snd] in *; simplify_eq;
        eexists _, sb, l; split; [exact Hg|]
    end; cbn [heap td chkfile fst snd t_scf set_nstates]; auto 10.
Qed.

(** C9.  Let the setup have succeeded and the solver have returned with
    its convergence flag false, an eigenvalue for every eigenvector and
    eigenvectors of the length of the excitation space; let the
    checkpoint store take its writes.  Then [kernel] returns.  Its value
    is the reconstruction of what the solver produced: for every
    eigenvector [x1[i]], in order, what the loop body yields from it and
    the eigenvalue [w2[i]], the pairs with a negative eigenvalue or a norm
    not above 0 left out.  The solver object records [converged = false]
    and holds the energies and the amplitude pairs, and both are saved to
    the checkpoint file. *)
Theorem nonconvergence_not_fatal (x0 : option (mat F)) (nstates : option nat)
    (s s1 s2 : state F) (c : closure F) (precond : Precond) (x0' : mat F) (ns : nat)
    (w2 : vec F) (x1 : mat F) :
  the_setup x0 nstates s = (Ok (c, precond, x0', ns), s1) →
  the_davidson (c, precond, x0', ns) s1 = (Ok (false, w2, x1), s2) →
  length x1 ≤ length w2 →
  Forall (fun z => length z = c_nvira c * c_nocca c + c_nvirb c * c_noccb c) x1 →
  (∀ f key v, chk_fault f key v = None) →
  ∃ (e : vec F) (xy : list (xyT F)) (s' : state F) (ea eb oa ob raw : vec F)
    (outs : list (option (F * xyT F))),
    the_kernel x0 nstates s = (Ok (e, xy), s') ∧
    t_converged (td s') = Some false ∧
    t_e (td s') = Some e ∧
    t_xy (td s') = Some xy ∧
    chkfile s' !! "tddft/e" = Some (ChkE e) ∧
    chkfile s' !! "tddft/xy" = Some (ChkXY xy) ∧
    heap s !! fst (mo_energy (t_scf (td s))) = Some (OVec ea) ∧
    heap s !! snd (mo_energy (t_scf (td s))) = Some (OVec eb) ∧
    heap s !! fst (mo_occ (t_scf (td s))) = Some (OVec oa) ∧
    heap s !! snd (mo_occ (t_scf (td s))) = Some (OVec ob) ∧
    reconstruct ea eb oa ob w2 x1 = Ok (e, xy) ∧
    energy_differences ea eb oa ob raw ∧
    length outs = length x1 ∧
    (e, xy) = collect outs ∧
    ∀ i z, x1 !! i = Some z →
      ∃ w2i o,
        w2 !! i = Some w2i ∧ outs !! i = Some o ∧
        pair_outcome raw (length (occidx oa)) (length (viridx oa))
          (length (occidx ob)) (length (viridx ob)) w2i z o.
Proof.
  intros Hsetup Hdav Hlen Hall Hchk.
  destruct (kernel_setup_inv _ _ _ _ _ _ _ _ Hsetup)
    as (_ & sa & sb & l_hdiag & Hg & Hha & Hta & Hca & Hh1 & Ht1 & Hc1).
  destruct (get_vind_inv _ _ _ _ _ _ _ Hg)
    as (ca & cb & ea & eb & oa & ob & orboa & orbob & orbva & orbvb &
        raw_a & raw_b & e_ai & masks & _ & _ & Hea & Heb & Hoa & Hob &
        Ha & Hb & _ & Hheap & _ & _ & _ & _ & _ & _ &
        Hnoa & Hnob & Hnva & Hnvb & Htd & _).
  rewrite Hha in Hea, Heb, Hoa, Hob.
  rewrite Hnoa, Hnob, Hnva, Hnvb in Hall.
  destruct (reconstruct_total ea eb oa ob raw_a raw_b w2 x1 Ha Hb Hlen Hall)
    as [[e xy] Hr].
  (* the state in which the solver returns *)
  assert (Hs2 : heap s2 = heap s1 ∧ td s2 = td s1 ∧ chkfile s2 = chkfile s1).
  { unfold call_davidson in Hdav. inv_run. auto. }
  destruct Hs2 as (Hh2 & Ht2 & Hc2).
  assert (Hscf : t_scf (td s2) = t_scf (td s)) by congruence.
  assert (Hlook : ∀ l o, heap s !! l = Some o → heap s2 !! l = Some o).
  { intros l o Hl. rewrite Hh2, Hh1, Hheap, Hha, <- app_assoc.
    rewrite lookup_app_l by (eapply lookup_lt_Some, Hl). exact Hl. }
  destruct (reconstruct_outcomes _ _ _ _ _ _ _ _ Hr)
    as (raw & outs & Hraw & Hlo & Hc & Hout).
  exists e, xy. eexists. exists ea, eb, oa, ob, raw, outs.
  split.
  { unfold kernel. rewrite (bind_ok _ _ _ _ _ Hsetup).
    rewrite (bind_ok _ _ _ _ _ Hdav). cbn [fst snd].
    apply (kernel_finish_ok chk_fault false w2 x1 s2 ea eb oa ob (e, xy));
      rewrite ?Hscf; auto. }
  cbn [td chkfile fst snd set_xy set_e set_converged t_converged t_e t_xy].
  split; [reflexivity|]. split; [reflexivity|]. split; [reflexivity|].
  split; [rewrite lookup_insert_ne by discriminate; apply lookup_insert_eq|].
  split; [apply lookup_insert_eq|].
  do 5 (split; [assumption|]).
  split; [exact Hraw|]. split; [exact Hlo|]. split; [exact Hc|].
  intros i z Hz. destruct (Hout i z Hz) as (w2i & o & Hw & Ho & Hone).
  exists w2i, o. split; [exact Hw|]. split; [exact Ho|].
  apply recon_one_outcome; [|exact Hone].
  destruct Hraw as [-> _]. eapply Forall_lookup_1 in Hall; [exact Hall|exact Hz].
Qed.
End Driver.

(** * The theorems at work on the two-orbital system *)

Section Witnesses.
Import Toy.

Lemma hybrid_rejected_witness :
  run_kernel None None (st true "b3lyp" (Some 1%Z))
  = (Err RuntimeError,
     State (heap0 fh) (self true "b3lyp" (Some 1%Z)) ∅ [EvIsHybridXc "b3lyp"]).
Proof.
  exact (hybrid_rejected is_hybrid orbsym resp e2 precond guess davidson chk_ok
           None None (st true "b3lyp" (Some 1%Z)) eq_refl).
Defined.

Lemma discard_property_witness :
  reconstruct ea ea oa oa w2 x1 = Ok (e_out, xy_out) ∧
  length e_out ≤ length w2 ∧ length xy_out = length e_out.
Proof.
  assert (Hr : reconstruct ea ea oa oa w2 x1 = Ok (e_out, xy_out))
    by (vm_compute; reflexivity).
  destruct (proj2 (discard_property ea ea oa oa w2 x1) e_out xy_out Hr)
    as (eai & outs & _ & _ & _ & _ & Hle & _ & Hxy).
  auto.
Defined.


Lemma reconstruct_formula_witness :
  ∃ (s' : state spec_float) (raw : vec spec_float)
    (outs : list (option (spec_float * xyT spec_float))),
    kernel_finish chk_ok false w2 x1 (st true "lda" (Some 1%Z))
    = (Ok (e_out, xy_out), s') ∧
    e_out = [S754_finite false 4503599627370496 (-51)] ∧
    length raw = 2 ∧ length outs = 3 ∧ (e_out, xy_out) = collect outs.
Proof.
  assert (Hk : ∃ s', kernel_finish chk_ok false w2 x1 (st true "lda" (Some 1%Z))
                     = (Ok (e_out, xy_out), s'))
    by (eexists; vm_compute; reflexivity).
  destruct Hk as [s' Hk].
  destruct (proj2 (reconstruct_formula chk_ok _ _ _ _) _ _ _ Hk)
    as (ea' & eb' & oa' & ob' & raw & outs & _ & _ & Hoa & Hob & (Hl & _) & Hlo & Hc & _).
  exists s', raw, outs. split; [exact Hk|]. split; [reflexivity|].
  injection Hoa as <-. injection Hob as <-.
  split; [exact Hl|]. split; [exact Hlo|exact Hc].
Defined.

Lemma symmetry_mask_applied_witness :
  ∃ c l_hdiag s,
    run_get_vind (mf true "lda") (st true "lda" (Some 1%Z)) = (Ok (c, l_hdiag), s) ∧
    let s0 := set_heap (heap s ++ [OMat [[f1; f1]]]) s in
    vind e2 c (length (heap s)) s0
    = vind_body e2 c 1 (length (heap s0))
        (set_heap (heap s0 ++ [OMat [[f1; f0]]]) s0).
Proof.
  eexists _, _, _. split; [vm_compute; reflexivity|].
  cbn zeta.
  match goal with
  | |- vind _ ?c ?l ?s = _ =>
      exact (proj1 (proj2 (symmetry_mask_applied e2 c l 10 s [[f1; f1]] [false; true]
                             eq_refl eq_refl eq_refl eq_refl)))
  end.
Defined.

Local Abbreviation the_run :=
  (kernel is_hybrid orbsym resp e2 precond guess davidson chk_ok).

Lemma nonconvergence_not_fatal_witness :
  ∃ e xy s' outs,
    the_run None None (st false "lda" None) = (Ok (e, xy), s') ∧
    e = [S754_finite false 4503599627370496 (-51)] ∧
    t_converged (td s') = Some false ∧
    t_e (td s') = Some e ∧
    chkfile s' !! "tddft/e" = Some (ChkE e) ∧
    chkfile s' !! "tddft/xy" = Some (ChkXY xy) ∧
    length outs = 3 ∧ (e, xy) = collect outs.
Proof.
  assert (Hrun : fst (the_run None None (st false "lda" None))
                 = Ok (e_out, xy_out)) by (vm_compute; reflexivity).
  edestruct (nonconvergence_not_fatal is_hybrid orbsym resp e2 precond guess
               davidson chk_ok None None (st false "lda" None))
    as (e & xy & s' & _ & _ & _ & _ & raw & outs &
        Hk & Hc & He & _ & Hce & Hcxy & _ & _ & _ & _ & _ & _ & Hlo & Hco & _).
  - vm_compute. reflexivity.
  - vm_compute. reflexivity.
  - simpl. lia.
  - repeat constructor.
  - intros f key v. reflexivity.
  - exists e, xy, s', outs.
    split; [exact Hk|]. split; [|auto 10].
    rewrite Hk in Hrun.
    injection Hrun as -> _. reflexivity.
Defined.

Lemma unguarded_division_witness :
  kernel_eai [fh; fh] ea oa oa = Ok [f0; f1] ∧
  SFleb fh fh = true ∧
  ∃ k d, [f0; f1] !! k = Some d ∧ is_zero_or_nan d = true ∧
    ∃ x y xk yk,
      amplitudes [f0; f1] (fsqrt f4) [f1; f1] = Ok (x, y) ∧
      x !! k = Some xk ∧ is_nonfinite xk = true ∧
      y !! k = Some yk ∧ is_nonfinite yk = true.
Proof.
  split; [vm_compute; reflexivity|]. split; [reflexivity|].
  destruct (unguarded_division [fh; fh] ea oa oa [f0; f1] false 1 0 fh fh)
    as (k & d & Hk & Hd & Hall).
  - vm_compute. reflexivity.
  - vm_compute. apply list_elem_of_here.
  - vm_compute. apply list_elem_of_here.
  - reflexivity.
  - reflexivity.
  - reflexivity.
  - reflexivity.
  - reflexivity.
  - exists k, d. split; [exact Hk|]. split; [exact Hd|].
    destruct (Hall f4 [f1; f1] eq_refl eq_refl)
      as (x & y & xk & yk & Ha & Hx & Hxn & Hy & Hyn & _).
    exists x, y, xk, yk. auto.
Defined.
End Witnesses.

Section RealWitness.

Lemma Rltb_t (a b : R) : (a < b)%R → Rltb a b = true.
Proof. intros Hab. unfold Rltb. destruct (Rlt_dec a b); [reflexivity|contradiction]. Qed.

Lemma Rltb_f (a b : R) : ¬ (a < b)%R → Rltb a b = false.
Proof. intros Hab. unfold Rltb. destruct (Rlt_dec a b); [contradiction|reflexivity]. Qed.

Lemma Reqb_t (a b : R) : a = b → Reqb a b = true.
Proof. intros Hab. unfold Reqb. destruct (Req_dec_T a b); [reflexivity|contradiction]. Qed.

Lemma Reqb_f (a b : R) : a ≠ b → Reqb a b = false.
Proof. intros Hab. unfold Reqb. destruct (Req_dec_T a b); [contradiction|reflexivity]. Qed.

(** One occupied orbital of energy 0 and one virtual orbital of energy 1
    in the alpha channel, no beta orbitals; the eigenvalue 1 with the
    vector (1). *)
Lemma real_reconstruct :
  ∃ w p, reconstruct (F:=R) [0; 1]%R [] [1; 0]%R [] [1%R] [[1%R]] = Ok ([w], [p]).
Proof.
  assert (Hocc : occidx (F:=R) [1; 0]%R = [0]).
  { unfold occidx, np_where. cbn [where_from fltb fzero real_arith].
    rewrite (Rltb_t 0 1) by lra. rewrite (Rltb_f 0 0) by lra. reflexivity. }
  assert (Hvir : viridx (F:=R) [1; 0]%R = [1]).
  { unfold viridx, np_where. cbn [where_from feqb fzero real_arith].
    rewrite (Reqb_f 1 0) by lra. rewrite (Reqb_t 0 0) by lra. reflexivity. }
  unfold reconstruct, kernel_eai, e_ai_spin. rewrite Hocc, Hvir.
  cbn [occidx viridx np_where where_from take_idx mapR lookup list_lookup rbind
       outer_flat map concat app length enumerate imap recon_loop row fst snd
       fsub real_arith].
  unfold recon_one. cbn [fltb fzero real_arith].
  rewrite (Rltb_f 1 0) by lra.
  rewrite amplitudes_same_length by reflexivity. cbn [rbind fst snd].
  unfold recon_accept. rewrite xy_norm_real.
  rewrite Rltb_t.
  - cbn [split_scaled reshape2 length take drop Nat.mul Nat.add Nat.eqb chunks
         rbind map zip_with]. eexists _, _. reflexivity.
  - cbn [map zip_with sumsq fold_right fmul fadd fsub fdiv fsqrt fhalf fzero
         real_arith].
    rewrite Rminus_0_r, sqrt_1. lra.
Qed.

Lemma normalization_invariant_witness :
  ∃ w p,
    reconstruct (F:=R) [0; 1]%R [] [1; 0]%R [] [1%R] [[1%R]] = Ok ([w], [p]) ∧
    normalization p = 1%R.
Proof.
  destruct real_reconstruct as (w & p & Hr). exists w, p. split; [exact Hr|].
  apply (normalization_invariant _ _ _ _ _ _ _ _ Hr p). apply list_elem_of_here.
Defined.
End RealWitness.

(** * Further properties of the module *)

(** ** Orbitals that are neither occupied nor virtual *)

Section Occupations.

Lemma where_from_lengths {A} (p q : A → bool) (xs : list A) (k : nat) :
  (∀ x, p x = true → q x = true → False) →
  length (where_from p k xs) + length (where_from q k xs) ≤ length xs.
Proof.
  intros Hpq. revert k. induction xs as [|x xs IH]; intros k; simpl; [lia|].
  specialize (IH (S k)).
  destruct (p x) eqn:Hp, (q x) eqn:Hq; simpl; try lia.
  destruct (Hpq x Hp Hq).
Qed.

Lemma occupied_not_virtual (x : spec_float) :
  fltb fzero x = true → feqb x fzero = true → False.
Proof. destruct x as [[]|[]| |[] m e]; discriminate. Qed.

Lemma neither_class (x : spec_float) :
  fltb fzero x = false ∧ feqb x fzero = false ↔ is_negative_or_nan x = true.
Proof.
  destruct x as [[]|[]| |[] m e]; cbn; split; try tauto; try discriminate;
    intros [? ?]; discriminate.
Qed.

(** X1.  In float64, an orbital is never both occupied and virtual, and
    the orbitals that are neither are exactly those whose occupation is
    negative or NaN: they are left out of the excitation space without an
    error, so the occupied and virtual counts may add up to less than the
    number of orbitals. *)
Theorem occupation_classes (mo_occ : vec spec_float) :
  (∀ i, i ∈ occidx mo_occ → i ∈ viridx mo_occ → False) ∧
  (∀ i x, mo_occ !! i = Some x →
     (((i ∉ occidx mo_occ) ∧ (i ∉ viridx mo_occ)) ↔ is_negative_or_nan x = true)) ∧
  length (occidx mo_occ) + length (viridx mo_occ) ≤ length mo_occ.
Proof.
  unfold occidx, viridx, np_where. split; [|split].
  - intros i (j & x & -> & Hx & Ho)%where_from_elem (j' & x' & E & Hx' & Hv)%where_from_elem.
    simpl in E. subst j'. rewrite Hx in Hx'. injection Hx' as <-.
    exact (occupied_not_virtual x Ho Hv).
  - intros i x Hx. rewrite <- neither_class, !where_from_elem. split.
    + intros [Ho Hv]. split.
      * destruct (fltb fzero x) eqn:E; [|reflexivity].
        destruct Ho. exists i, x. auto.
      * destruct (feqb x fzero) eqn:E; [|reflexivity].
        destruct Hv. exists i, x. auto.
    + intros [Ho Hv]. split; intros (j & y & E & Hy & Hp); simpl in E; subst j;
        rewrite Hx in Hy; injection Hy as <-; congruence.
  - apply where_from_lengths. intros x. apply occupied_not_virtual.
Qed.
End Occupations.

(** ** The shapes of the amplitude blocks *)

Section BlockShapes.
Context {F : Type} `{Arith F}.

Lemma recon_one_shape (eai : vec F) (nocca nvira noccb nvirb : nat) (w2i : F)
    (z : vec F) (w : F) (p : xyT F) :
  recon_one eai nocca nvira noccb nvirb w2i z = Ok (Some (w, p)) →
  w = fsqrt w2i ∧ xy_shaped nocca nvira noccb nvirb p.
Proof.
  unfold recon_one. destruct (fltb w2i fzero); [discriminate|].
  destruct (amplitudes eai (fsqrt w2i) z) as [[x y]|]; cbn [rbind fst snd];
    [|discriminate].
  unfold recon_accept. destruct (fltb fzero (xy_norm x y)); [|discriminate].
  destruct (split_scaled _ _ _ _ _ x) as [[xa xb]|] eqn:Ex; cbn [rbind]; [|discriminate].
  destruct (split_scaled _ _ _ _ _ y) as [[ya yb]|] eqn:Ey; cbn [rbind]; [|discriminate].
  intros [= <- <-]. split; [reflexivity|].
  apply split_scaled_shape in Ex as [? ?], Ey as [? ?].
  unfold xy_shaped. cbn [fst snd]. auto.
Qed.

Lemma reconstruct_outs (ea eb oa ob w2 : vec F) (x1 : mat F)
    (e : vec F) (xy : list (xyT F)) :
  reconstruct ea eb oa ob w2 x1 = Ok (e, xy) →
  ∃ eai outs,
    kernel_eai ea eb oa ob = Ok eai ∧
    (e, xy) = collect outs ∧
    length outs = length x1 ∧
    ∀ i z, x1 !! i = Some z →
      ∃ w2i o, w2 !! i = Some w2i ∧ outs !! i = Some o ∧
        recon_one eai (length (occidx oa)) (length (viridx oa))
          (length (occidx ob)) (length (viridx ob)) w2i z = Ok o.
Proof.
  unfold reconstruct.
  destruct (kernel_eai ea eb oa ob) as [eai|]; cbn [rbind]; [|discriminate].
  intros (outs & Hf & -> & ->)%recon_loop_outs.
  destruct (enumerate_outs _ _ _ _ _ _ _ _ Hf) as (Hlen & _ & Hall).
  exists eai, outs. split; [reflexivity|]. split; [|auto].
  cbn [app]. destruct (collect outs); reflexivity.
Qed.

(** X2.  Every amplitude pair of the result has four blocks of the
    shapes of the two excitation spaces: X_alpha and Y_alpha have
    [nvira] rows of [nocca] entries, X_beta and Y_beta have [nvirb] rows of
    [noccb] entries. *)
Theorem amplitude_block_shapes (ea eb oa ob w2 : vec F) (x1 : mat F)
    (e : vec F) (xy : list (xyT F)) :
  reconstruct ea eb oa ob w2 x1 = Ok (e, xy) →
  Forall (xy_shaped (length (occidx oa)) (length (viridx oa))
            (length (occidx ob)) (length (viridx ob))) xy.
Proof.
  intros (eai & outs & _ & Hc & Hlen & Hall)%reconstruct_outs.
  apply Forall_forall. intros p Hp.
  assert (Hin : p ∈ snd (collect outs)) by (rewrite <- Hc; exact Hp).
  apply collect_elem in Hin as [w Hw].
  apply list_elem_of_lookup in Hw as [i Hi].
  destruct (lookup_lt_is_Some_2 x1 i) as [z Hz];
    [rewrite <- Hlen; eapply lookup_lt_Some, Hi|].
  destruct (Hall i z Hz) as (w2i & o & _ & Ho & Hr).
  rewrite Hi in Ho. injection Ho as <-.
  apply recon_one_shape in Hr as [_ Hs]. exact Hs.
Qed.

(** ** More eigenvectors than eigenvalues *)

Lemma recon_loop_index_error (eai : vec F) (nocca nvira noccb nvirb : nat)
    (w2 : vec F) (izs : list (nat * vec F)) (i : nat) (z : vec F)
    (rest : list (nat * vec F)) (e : vec F) (xy : list (xyT F)) :
  length eai = nvira * nocca + nvirb * noccb →
  Forall (fun iz => fst iz < length w2 ∧ length (snd iz) = length eai) izs →
  length w2 ≤ i →
  recon_loop eai nocca nvira noccb nvirb w2 (izs ++ (i, z) :: rest) e xy
  = Err IndexError.
Proof.
  intros He Hall Hi. revert e xy.
  induction Hall as [|[j u] izs [Hj Hu] Hall IH]; intros e xy; cbn [recon_loop app].
  - unfold row. rewrite lookup_ge_None_2 by exact Hi. reflexivity.
  - cbn [fst snd] in Hj, Hu. unfold row.
    destruct (lookup_lt_is_Some_2 w2 j Hj) as [w2j ->]. cbn [rbind].
    destruct (recon_one_total eai nocca nvira noccb nvirb w2j u He Hu) as [o ->].
    cbn [rbind]. destruct o as [[w p]|]; apply IH.
Qed.

(** X3.  When the solver hands back more eigenvectors than eigenvalues,
    all of the right length, the reconstruction raises IndexError at the
    first vector that has no eigenvalue: the pairs before it are not
    returned. *)
Theorem reconstruct_index_error (ea eb oa ob raw_a raw_b w2 : vec F) (x1 : mat F) :
  e_ai_spin ea oa = Ok raw_a → e_ai_spin eb ob = Ok raw_b →
  Forall (fun z => length z = length (viridx oa) * length (occidx oa)
                           + length (viridx ob) * length (occidx ob)) x1 →
  length w2 < length x1 →
  reconstruct ea eb oa ob w2 x1 = Err IndexError.
Proof.
  intros Ha Hb Hall Hlen. unfold reconstruct, kernel_eai.
  rewrite Ha, Hb. cbn [rbind].
  assert (He : length (map fsqrt (raw_a ++ raw_b))
               = length (viridx oa) * length (occidx oa)
                 + length (viridx ob) * length (occidx ob)).
  { rewrite length_map, length_app.
    rewrite (e_ai_spin_length _ _ _ Ha), (e_ai_spin_length _ _ _ Hb). reflexivity. }
  destruct (lookup_lt_is_Some_2 x1 (length w2) Hlen) as [z Hz].
  rewrite <- (take_drop_middle x1 (length w2) z Hz).
  unfold enumerate. rewrite imap_app, imap_cons.
  apply recon_loop_index_error; [exact He| |].
  - apply Forall_lookup. intros i [j u]. rewrite list_lookup_imap.
    destruct (take (length w2) x1 !! i) as [u'|] eqn:Hu; [|discriminate].
    intros [= <- <-]. cbn [fst snd].
    pose proof (lookup_lt_Some _ _ _ Hu) as Hi. rewrite length_take in Hi.
    split; [lia|]. rewrite He.
    rewrite lookup_take_lt in Hu by lia.
    eapply Forall_lookup_1 in Hall; [exact Hall|exact Hu].
  - rewrite length_take. lia.
Qed.
End BlockShapes.

(** ** Eigenvalues without an eigenvector *)

Section SurplusEigenvalues.
Context {F : Type} `{Arith F}.

Lemma recon_loop_ext (eai : vec F) (a b c d : nat) (w2 w2' : vec F)
    (izs : list (nat * vec F)) (e : vec F) (xy : list (xyT F)) :
  Forall (fun iz => w2' !! fst iz = w2 !! fst iz) izs →
  recon_loop eai a b c d w2' izs e xy = recon_loop eai a b c d w2 izs e xy.
Proof.
  intros Hall. revert e xy.
  induction Hall as [|[i z] izs Hi Hall IH]; intros e xy; cbn [recon_loop];
    [reflexivity|].
  cbn [fst] in Hi. unfold row. rewrite Hi.
  destruct (w2 !! i) as [w2i|]; cbn [rbind]; [|reflexivity].
  destruct (recon_one eai a b c d w2i z) as [[[w p]|]|]; cbn [rbind];
    [apply IH|apply IH|reflexivity].
Qed.

(** X4.  The loop of the reconstruction runs over the eigenvectors:
    eigenvalues beyond the last eigenvector are never read, so they change
    neither the result nor the outcome. *)
Theorem surplus_eigenvalues_ignored (ea eb oa ob w2 more : vec F) (x1 : mat F) :
  length x1 ≤ length w2 →
  reconstruct ea eb oa ob (w2 ++ more) x1 = reconstruct ea eb oa ob w2 x1.
Proof.
  intros Hlen. unfold reconstruct.
  destruct (kernel_eai ea eb oa ob) as [eai|]; cbn [rbind]; [|reflexivity].
  apply recon_loop_ext. apply Forall_lookup. intros i [j z]. unfold enumerate.
  rewrite list_lookup_imap. destruct (x1 !! i) as [z'|] eqn:Hz; [|discriminate].
  intros [= <- <-]. cbn [fst]. apply lookup_app_l.
  apply lookup_lt_Some in Hz. lia.
Qed.
End SurplusEigenvalues.

(** ** The energies that are reported *)

Section ReportedEnergies.

Lemma collect_energy {F : Type} (outs : list (option (F * xyT F))) (w : F) :
  w ∈ fst (collect outs) → ∃ p, Some (w, p) ∈ outs.
Proof.
  induction outs as [|[[w' q]|] outs IH]; simpl.
  - intros Hin. inversion Hin.
  - rewrite elem_of_cons. intros [-> | Hin].
    + exists q. left.
    + destruct (IH Hin) as [p Hp]. exists p. right. exact Hp.
  - intros Hin. destruct (IH Hin) as [p Hp]. exists p. right. exact Hp.
Qed.

Lemma div_inf_nonfinite (d : spec_float) :
  is_nonfinite (fdiv (S754_infinity false) d) = true.
Proof. destruct d as [[]|[]| |[] m e]; reflexivity. Qed.

Lemma mul_nonfinite (u v : spec_float) :
  is_nonfinite u = true → is_nonfinite (fmul u v) = true.
Proof.
  destruct u as [s|[]| |s m e]; try discriminate; intros _;
    destruct v as [[]|[]| |[] mv ev]; reflexivity.
Qed.

Lemma half_pm_nonfinite (u v : spec_float) :
  is_nonfinite v = true →
  is_nonfinite (fmul (fadd u v) fhalf) = true ∧
  is_nonfinite (fmul (fsub u v) fhalf) = true.
Proof.
  destruct v as [s|[]| |s m e]; try discriminate; intros _;
    destruct u as [[]|[]| |[] mu eu]; split; reflexivity.
Qed.

(** With [w = +inf] every entry of [x] and [y] is infinite or NaN. *)
Lemma amplitudes_inf (eai z x y : vec spec_float) :
  amplitudes eai (S754_infinity false) z = Ok (x, y) →
  Forall2 (fun xk yk => is_nonfinite xk = true ∧ is_nonfinite yk = true) x y.
Proof.
  unfold amplitudes.
  destruct (bcast2 fmul eai z) as [zp|] eqn:Hzp; cbn [rbind]; [|discriminate].
  destruct (bcast2 fmul (map (fun d => fdiv (S754_infinity false) d) eai) z)
    as [zm|] eqn:Hzm; cbn [rbind]; [|discriminate].
  destruct (bcast2 fadd zp zm) as [s|] eqn:Hs; cbn [rbind]; [|discriminate].
  destruct (bcast2 fsub zp zm) as [d|] eqn:Hd; cbn [rbind]; [|discriminate].
  intros [= <- <-].
  assert (Hnf : Forall (fun v => is_nonfinite v = true) zm).
  { eapply (bcast2_Forall _ (fun v => is_nonfinite v = true)); [| |exact Hzm].
    - intros u v Hu. apply mul_nonfinite, Hu.
    - apply Forall_forall. intros v Hv. rewrite map_fmap in Hv.
      apply list_elem_of_fmap in Hv as (e & -> & _). apply div_inf_nonfinite. }
  assert (HR : Forall2 (fun u v => is_nonfinite (fmul u fhalf) = true ∧
                                   is_nonfinite (fmul v fhalf) = true) s d).
  { eapply (bcast2_Forall2 (fun v => is_nonfinite v = true)); [|exact Hnf|exact Hs|exact Hd].
    intros u v Hv. apply half_pm_nonfinite, Hv. }
  clear Hs Hd.
  induction HR as [|u v s d Huv HR IH]; simpl; constructor; auto.
Qed.

Lemma recon_one_infinite (eai : vec spec_float) (a b c d : nat) (z : vec spec_float)
    (o : option (spec_float * xyT spec_float)) :
  recon_one eai a b c d (S754_infinity false) z = Ok o → o = None.
Proof.
  intros Hr.
  destruct (amplitudes eai (fsqrt (S754_infinity false)) z) as [[x y]|] eqn:Ha.
  - eapply recon_one_norm; [exact Hr|exact Ha|].
    apply amplitudes_inf in Ha.
    destruct Ha as [|xk yk x y [Hx Hy] _]; [reflexivity|].
    apply (xy_norm_nonfinite_dropped _ _ 0 xk yk); auto.
  - unfold recon_one in Hr. cbn [fltb binary64 SFltb SFcompare] in Hr.
    rewrite Ha in Hr. discriminate.
Qed.

Lemma positive_finite (v : spec_float) :
  fltb fzero v = true → v ≠ S754_infinity false → is_pos_finite v = true.
Proof. destruct v as [[]|[]| |[] m e]; try discriminate; try reflexivity. congruence. Qed.

(** X5.  In float64, every energy of the result is the square root of an
    eigenvalue that is finite and strictly greater than zero: pairs with
    an eigenvalue that is negative, zero, NaN or infinite never reach the
    result. *)
Theorem energies_from_positive_eigenvalues (ea eb oa ob w2 : vec spec_float)
    (x1 : mat spec_float) (e : vec spec_float) (xy : list (xyT spec_float)) :
  reconstruct ea eb oa ob w2 x1 = Ok (e, xy) →
  ∀ w, w ∈ e →
    ∃ i w2i, i < length x1 ∧ w2 !! i = Some w2i ∧
             is_pos_finite w2i = true ∧ w = fsqrt w2i.
Proof.
  intros (eai & outs & _ & Hc & Hlen & Hall)%reconstruct_outs w Hw.
  assert (Hin : w ∈ fst (collect outs)) by (rewrite <- Hc; exact Hw).
  apply collect_energy in Hin as [p Hp].
  apply list_elem_of_lookup in Hp as [i Hi].
  assert (Hlt : i < length x1) by (rewrite <- Hlen; eapply lookup_lt_Some, Hi).
  destruct (lookup_lt_is_Some_2 x1 i Hlt) as [z Hz].
  destruct (Hall i z Hz) as (w2i & o & Hw2 & Ho & Hr).
  rewrite Hi in Ho. injection Ho as <-.
  exists i, w2i. split; [exact Hlt|]. split; [exact Hw2|].
  split; [|apply recon_one_shape in Hr as [-> _]; reflexivity].
  apply positive_finite.
  - destruct (fltb fzero w2i) eqn:E; [reflexivity|].
    apply (recon_one_nonpositive _ _ _ _ _ _ _ _ Hr) in E. discriminate.
  - intros ->. apply recon_one_infinite in Hr. discriminate.
Qed.
End ReportedEnergies.

(** ** The norm in exact arithmetic *)

Section RealNorm.

Lemma sumsq_cons (a : R) (v : list R) : sumsq (a :: v) = (a * a + sumsq v)%R.
Proof. reflexivity. Qed.

Lemma amplitudes_sumsq (eai z : list R) (w : R) :
  Forall (fun d => d ≠ 0%R) eai → length z = length eai →
  (sumsq (map (fun v => fmul v fhalf)
            (zip_with fadd (zip_with fmul eai z)
               (zip_with fmul (map (fun d => fdiv w d) eai) z)))
   - sumsq (map (fun v => fmul v fhalf)
              (zip_with fsub (zip_with fmul eai z)
                 (zip_with fmul (map (fun d => fdiv w d) eai) z))))%R
  = (w * sumsq z)%R.
Proof.
  intros Hd. revert z. induction Hd as [|d eai Hd0 Hd IH]; intros [|u z] Hlen;
    try discriminate.
  - cbn [map zip_with sumsq fold_right]. ring.
  - injection Hlen as Hlen. specialize (IH z Hlen).
    cbn [map zip_with fmul fadd fsub fdiv fhalf real_arith] in *.
    rewrite !sumsq_cons, Rmult_plus_distr_l, <- IH. field. exact Hd0.
Qed.

(** X6.  In exact arithmetic, when no entry of [eai] is zero, the norm
    [|x|^2 - |y|^2] of the pair reconstructed from [w] and an eigenvector
    [z] of the right length is [w] times the sum of the squares of [z]. *)
Theorem norm_in_exact_arithmetic (eai z x y : list R) (w : R) :
  Forall (fun d => d ≠ 0%R) eai → length z = length eai →
  amplitudes eai w z = Ok (x, y) →
  xy_norm x y = (w * sumsq z)%R.
Proof.
  intros Hd Hlen. rewrite amplitudes_same_length by exact Hlen.
  intros [= <- <-]. rewrite xy_norm_real. apply amplitudes_sumsq; assumption.
Qed.
End RealNorm.

(** ** The transition densities are symmetric *)

Section Densities.

Lemma b64_add_comm (x y : spec_float) : fadd x y = fadd y x.
Proof.
  destruct x as [[]|[]| |sx mx ex], y as [[]|[]| |sy my ey]; try reflexivity.
  cbn [fadd binary64]. cbv [SFadd]. rewrite Z.min_comm. f_equal. apply Z.add_comm.
Qed.

Lemma tabulate_lookup {A} (n : nat) (f : nat → A) (i : nat) :
  tabulate n f !! i = if decide (i < n) then Some (f i) else None.
Proof.
  unfold tabulate. rewrite map_fmap, list_lookup_fmap.
  destruct (decide (i < n)) as [Hi|Hi].
  - rewrite lookup_seq_lt by exact Hi. reflexivity.
  - rewrite lookup_seq_ge by lia. reflexivity.
Qed.

Lemma mget_tabulate {F : Type} `{Arith F} (n : nat) (f : nat → nat → F) (i j : nat) :
  mget (tabulate n (fun i => tabulate n (fun j => f i j))) i j
  = if decide (i < n) then if decide (j < n) then f i j else fzero else fzero.
Proof.
  unfold mget. rewrite tabulate_lookup.
  destruct (decide (i < n)); [|reflexivity].
  rewrite tabulate_lookup. destruct (decide (j < n)); reflexivity.
Qed.

Lemma mget_replicate {F : Type} `{Arith F} (n : nat) (x : F) (i j : nat) :
  mget (replicate n (replicate n x)) i j
  = if decide (i < n) then if decide (j < n) then x else fzero else fzero.
Proof.
  unfold mget. destruct (decide (i < n)) as [Hi|Hi].
  - rewrite lookup_replicate_2 by exact Hi.
    destruct (decide (j < n)) as [Hj|Hj].
    + rewrite lookup_replicate_2 by exact Hj. reflexivity.
    + rewrite lookup_ge_None_2; [reflexivity|rewrite length_replicate; lia].
  - rewrite lookup_ge_None_2; [reflexivity|rewrite length_replicate; lia].
Qed.

(** X7.  In float64, the transition density [dm + dm.T] built for a
    trial vector is a symmetric matrix, entry by entry (IEEE addition
    commutes), and so is the block written to [dmvo], also when a 1 x 1
    value is broadcast to it. *)
Theorem densities_symmetric (nb nvir nocc : nat) (orbv z orbo : mat spec_float) :
  is_symmetric (trans_density nb nvir nocc orbv z orbo) ∧
  ∀ nao blk,
    bcast_block nao nb (trans_density nb nvir nocc orbv z orbo) = Ok blk →
    is_symmetric blk.
Proof.
  assert (Hs : is_symmetric (trans_density nb nvir nocc orbv z orbo)).
  { intros i j. unfold trans_density, symmetrize. rewrite !mget_tabulate.
    destruct (decide (i < nb)), (decide (j < nb)); try reflexivity.
    apply b64_add_comm. }
  split; [exact Hs|].
  intros nao blk. unfold bcast_block.
  destruct (Nat.eqb nb nao); [intros [= <-]; exact Hs|].
  destruct (Nat.eqb nb 1); [|discriminate].
  intros [= <-] i j. rewrite !mget_replicate.
  destruct (decide (i < nao)), (decide (j < nao)); reflexivity.
Qed.
End Densities.

(** ** What [get_vind] builds *)

Section TypedLoads.
Context {F : Type} `{Arith F}.

Lemma safe_vec (q : bool) (n0 : nat) (l : loc) :
  safe (F:=F) q n0 (load_vec l) (fun _ => True).
Proof.
  unfold load_vec. safe_go. destruct a; first [apply safe_raise|apply safe_ret; exact I].
Qed.

Lemma safe_mat (q : bool) (n0 : nat) (l : loc) :
  safe (F:=F) q n0 (load_mat l) (fun _ => True).
Proof.
  unfold load_mat. safe_go. destruct a; first [apply safe_raise|apply safe_ret; exact I].
Qed.

Lemma safe_mask (q : bool) (n0 : nat) (l : loc) :
  safe (F:=F) q n0 (load_mask l) (fun _ => True).
Proof.
  unfold load_mask. safe_go. destruct a; first [apply safe_raise|apply safe_ret; exact I].
Qed.
End TypedLoads.

Ltac safe_step2 :=
  first
    [ apply safe_vec | apply safe_mat | apply safe_mask | safe_prim ].
Ltac safe_run2 :=
  repeat match goal with
         | |- safe _ _ (bind _ _) _ =>
             eapply safe_bind; [safe_step2|intros ? ?; cbv beta in *]
         end.

Section SetupShapes.
Context {F : Type} `{Arith F}.
Variable get_orbsym : mat F * mat F → list Z * list Z.
Variable gen_uhf_response :
  mat F * mat F → vec F * vec F → list (list (mat F)) → list (mat F) * list (mat F).

(** X8.  The vectors [d], [ed] and [hdiag] that a successful [get_vind]
    leaves behind, and the symmetry mask when there is one, all have the
    dimension of the excitation space, [nvira*nocca + nvirb*noccb]; the
    mask is bound exactly when the symmetry filter is on. *)
Theorem operator_dimension (mf : scf) (s s' : state F) (c : closure F) (l_hdiag : loc) :
  get_vind get_orbsym gen_uhf_response mf s = (Ok (c, l_hdiag), s') →
  let n := c_nvira c * c_nocca c + c_nvirb c * c_noccb c in
  ∃ d ed hd : vec F,
    heap s' !! c_dai c = Some (OVec d) ∧
    heap s' !! c_edai c = Some (OVec ed) ∧
    heap s' !! l_hdiag = Some (OVec hd) ∧
    length d = n ∧ length ed = n ∧ length hd = n ∧
    match c_sym_forbid c with
    | Some lm =>
        filter_on (t_wfnsym (td s)) (mol_symmetry mf) = true ∧
        ∃ mask, heap s' !! lm = Some (OMask mask) ∧ length mask = n
    | None => filter_on (t_wfnsym (td s)) (mol_symmetry mf) = false
    end.
Proof.
  intros (ca & cb & ea & eb & oa & ob & orboa & orbob & orbva & orbvb &
          raw_a & raw_b & e_ai & masks & _ & _ & _ & _ & _ & _ &
          Ha & Hb & Hmask & Hheap & Hdai & Hedai & Hhd & _ & _ & _ &
          Hnoa & Hnob & Hnva & Hnvb & _)%get_vind_inv.
  cbn zeta. rewrite Hnoa, Hnob, Hnva, Hnvb.
  assert (Hraw : length (raw_a ++ raw_b)
                 = length (viridx oa) * length (occidx oa)
                   + length (viridx ob) * length (occidx ob)).
  { rewrite length_app, (e_ai_spin_length _ _ _ Ha), (e_ai_spin_length _ _ _ Hb).
    reflexivity. }
  assert (He : length e_ai = length (raw_a ++ raw_b) ∧
               match c_sym_forbid c with
               | Some lm =>
                   filter_on (t_wfnsym (td s)) (mol_symmetry mf) = true ∧
                   ∃ mask, heap s' !! lm = Some (OMask mask) ∧
                           length mask = length (raw_a ++ raw_b)
               | None => filter_on (t_wfnsym (td s)) (mol_symmetry mf) = false
               end).
  { destruct (filter_on _ _).
    - destruct Hmask as (mask & -> & Hz & ->).
      apply (zero_where_inv get_orbsym gen_uhf_response) in Hz as [Hlen ->].
      split; [rewrite length_zip_with; lia|]. split; [reflexivity|].
      exists mask. split; [|exact Hlen].
      rewrite Hheap. rewrite (lookup_after _ _ _ _ 0); [reflexivity|simpl; lia].
    - destruct Hmask as (-> & -> & ->). auto. }
  destruct He as [He Hm]. rewrite Hraw in He, Hm.
  exists (map fsqrt e_ai), (zip_with fmul e_ai (map fsqrt e_ai)), (map fsq e_ai).
  rewrite Hdai, Hedai, Hhd, Hheap.
  rewrite (lookup_after _ _ _ _ (length masks + 1)) by (simpl; lia).
  rewrite (lookup_after _ _ _ _ (length masks + 2)) by (simpl; lia).
  rewrite (lookup_after _ _ _ _ (length masks + 3)) by (simpl; lia).
  rewrite !lookup_app_r by lia.
  replace (length masks + 1 - length masks) with 1 by lia.
  replace (length masks + 2 - length masks) with 2 by lia.
  replace (length masks + 3 - length masks) with 3 by lia.
  rewrite length_zip_with, !length_map.
  repeat split; try lia.
  rewrite <- Hheap. exact Hm.
Qed.

Lemma safe_get_vind (n0 : nat) (mf : scf) :
  safe false n0 (get_vind get_orbsym gen_uhf_response mf) (fun _ => True).
Proof.
  unfold get_vind. safe_run2.
  eapply (safe_bind _ _ _ _ (fun _ => True)).
  { destruct (filter_on _ _); [|apply safe_ret; exact I].
    eapply safe_bind; [apply safe_log|intros _ _].
    destruct (get_orbsym _) as [orbsyma orbsymb].
    safe_run2. apply safe_ret. exact I. }
  intros l_forbid _. safe_run2.
  eapply (safe_bind _ _ _ _ (fun _ => True)).
  { destruct (filter_on _ _); [|apply safe_ret; exact I].
    destruct l_forbid; [|apply safe_raise].
    safe_run2. apply safe_store. lia. }
  intros _ _. safe_run2. apply safe_ret. exact I.
Qed.

(** X9.  Whatever its outcome, [get_vind] only creates new arrays: the
    arrays that existed before the call, the mean-field energies,
    occupations and coefficients among them, are unchanged (the masked
    entries of [e_ai] are set to 0 in a new array, not in [mo_energy]), and
    so are the solver object and the checkpoint file. *)
Theorem get_vind_allocates_only (mf : scf) (s : state F) :
  let s' := snd (get_vind get_orbsym gen_uhf_response mf s) in
  heap s `prefix_of` heap s' ∧
  (∀ l o, heap s !! l = Some o → heap s' !! l = Some o) ∧
  td s' = td s ∧ chkfile s' = chkfile s.
Proof.
  destruct (safe_get_vind (length (heap s)) mf s (Nat.le_refl _))
    as ((Hlen & Htake & Htd & Hchk) & _ & _).
  cbn zeta. rewrite firstn_all in Htake.
  assert (Hpre : heap s `prefix_of`
                 heap (snd (get_vind get_orbsym gen_uhf_response mf s))).
  { exists (drop (length (heap s))
              (heap (snd (get_vind get_orbsym gen_uhf_response mf s)))).
    rewrite <- Htake at 1. symmetry. apply take_drop. }
  split; [exact Hpre|]. split; [|auto].
  intros l o Hl. eapply prefix_lookup_Some; eassumption.
Qed.
End SetupShapes.

(** ** Which places are forbidden *)

Section ForbiddenPlaces.
Context {F : Type} `{Arith F}.
Variable get_orbsym : mat F * mat F → list Z * list Z.
Variable gen_uhf_response :
  mat F * mat F → vec F * vec F → list (list (mat F)) → list (mat F) * list (mat F).

Lemma get_vind_mask (mf : scf) (s s' : state F) (c : closure F) (l_hdiag : loc) :
  get_vind get_orbsym gen_uhf_response mf s = (Ok (c, l_hdiag), s') →
  filter_on (t_wfnsym (td s)) (mol_symmetry mf) = true →
  ∃ (ca cb : mat F) (oa ob : vec F) (sva soa svb sob : list Z),
    heap s !! fst (mo_coeff mf) = Some (OMat ca) ∧
    heap s !! snd (mo_coeff mf) = Some (OMat cb) ∧
    heap s !! fst (mo_occ mf) = Some (OVec oa) ∧
    heap s !! snd (mo_occ mf) = Some (OVec ob) ∧
    take_idx (fst (get_orbsym (ca, cb))) (viridx oa) = Ok sva ∧
    take_idx (fst (get_orbsym (ca, cb))) (occidx oa) = Ok soa ∧
    take_idx (snd (get_orbsym (ca, cb))) (viridx ob) = Ok svb ∧
    take_idx (snd (get_orbsym (ca, cb))) (occidx ob) = Ok sob ∧
    c_sym_forbid c = Some (length (heap s) + 4) ∧
    heap s' !! (length (heap s) + 4)
    = Some (OMask (forbidden (default 0%Z (t_wfnsym (td s))) sva soa
                   ++ forbidden (default 0%Z (t_wfnsym (td s))) svb sob)).
Proof.
  unfold get_vind. intros Hrun Hon.
  inv_run. rewrite_filter Hon.
  destruct (get_orbsym (a, a0)) as [orbsyma orbsymb] eqn:Hsym.
  inv_run.
  repeat match goal with
         | H : _ !! _ = Some _ |- _ => progress heap_norm H
         end.
  simplify_eq. cbn [heap td chkfile c_sym_forbid fst snd].
  do 8 eexists. rewrite Hsym. cbn [fst snd].
  do 8 (split; [eassumption|]).
  split; [f_equal; rewrite !length_app; simpl; lia|].
  rewrite insert_snoc.
  rewrite !lookup_app_l by (rewrite !length_app; simpl; lia).
  apply list_lookup_middle. rewrite !length_app. simpl. lia.
Qed.

(** X10.  With a target irrep [w] and a molecule with symmetry, the mask
    that [get_vind] builds marks a virtual-occupied pair as forbidden
    exactly when the XOR of the two orbital irreps differs from [w].  The
    pairs are laid out like [e_ai]: the alpha block first, each block
    row-major with the virtual index as the row. *)
Theorem forbidden_places (mf : scf) (s s' : state F) (c : closure F)
    (l_hdiag : loc) (w : Z) :
  get_vind get_orbsym gen_uhf_response mf s = (Ok (c, l_hdiag), s') →
  t_wfnsym (td s) = Some w → mol_symmetry mf = true →
  ∃ (lm : loc) (mask : list bool) (ca cb : mat F) (oa ob : vec F)
    (sva soa svb sob : list Z),
    heap s !! fst (mo_coeff mf) = Some (OMat ca) ∧
    heap s !! snd (mo_coeff mf) = Some (OMat cb) ∧
    heap s !! fst (mo_occ mf) = Some (OVec oa) ∧
    heap s !! snd (mo_occ mf) = Some (OVec ob) ∧
    take_idx (fst (get_orbsym (ca, cb))) (viridx oa) = Ok sva ∧
    take_idx (fst (get_orbsym (ca, cb))) (occidx oa) = Ok soa ∧
    take_idx (snd (get_orbsym (ca, cb))) (viridx ob) = Ok svb ∧
    take_idx (snd (get_orbsym (ca, cb))) (occidx ob) = Ok sob ∧
    c_sym_forbid c = Some lm ∧ heap s' !! lm = Some (OMask mask) ∧
    length mask = length sva * length soa + length svb * length sob ∧
    (∀ a i va oi, sva !! a = Some va → soa !! i = Some oi →
       mask !! (a * length soa + i) = Some (negb (Z.eqb (Z.lxor va oi) w))) ∧
    (∀ a i vb oi, svb !! a = Some vb → sob !! i = Some oi →
       mask !! (length sva * length soa + (a * length sob + i))
       = Some (negb (Z.eqb (Z.lxor vb oi) w))).
Proof.
  intros Hg Hw Hsym.
  destruct (get_vind_mask mf s s' c l_hdiag Hg)
    as (ca & cb & oa & ob & sva & soa & svb & sob &
        Hca & Hcb & Hoa & Hob & Hsva & Hsoa & Hsvb & Hsob & Hc & Hm).
  { rewrite Hw, Hsym. reflexivity. }
  rewrite Hw in Hm. change (default 0%Z (Some w)) with w in Hm.
  eexists _, _, ca, cb, oa, ob, sva, soa, svb, sob.
  do 8 (split; [assumption|]). split; [exact Hc|]. split; [exact Hm|].
  assert (Hla : length (forbidden w sva soa) = length sva * length soa)
    by apply outer_flat_length.
  split; [rewrite length_app, Hla; unfold forbidden; rewrite outer_flat_length; reflexivity|].
  split.
  - intros a i va oi Ha Hi.
    pose proof (outer_flat_lookup (fun v o => negb (Z.eqb (Z.lxor v o) w))
                  sva soa a i va oi Ha Hi) as Hl.
    rewrite lookup_app_l; [exact Hl|]. eapply lookup_lt_Some, Hl.
  - intros a i vb oi Ha Hi.
    rewrite lookup_app_r by (rewrite Hla; lia).
    rewrite Hla, Nat.add_comm, Nat.add_sub.
    exact (outer_flat_lookup (fun v o => negb (Z.eqb (Z.lxor v o) w))
             svb sob a i vb oi Ha Hi).
Qed.
End ForbiddenPlaces.

(** ** The orbital blocks of the closure *)

Section OrbitalBlocks.
Context {F : Type} `{Arith F}.

Lemma take_cols_columns (m : mat F) (idx : list nat) (blk : mat F) :
  take_cols m idx = Ok blk → columns_of m idx blk.
Proof.
  intros [Hlen Hall]%mapR_lookup. split; [split; [exact Hlen|]|].
  - apply Forall_lookup. intros r brow Hr.
    destruct (lookup_lt_is_Some_2 m r) as [row Hrow];
      [rewrite <- Hlen; eapply lookup_lt_Some, Hr|].
    destruct (Hall r row Hrow) as (b & Hb & Hb').
    rewrite Hr in Hb'. injection Hb' as <-.
    apply take_idx_lookup in Hb as [Hl _]. exact Hl.
  - intros r row k j Hrow Hk.
    destruct (Hall r row Hrow) as (brow & Hb & Hb').
    apply take_idx_lookup in Hb as [_ Hent].
    destruct (Hent k j Hk) as (x & Hx & Hbx). eauto.
Qed.
End OrbitalBlocks.

Section OrbitalBlocksSetup.
Context {F : Type} `{Arith F}.
Variable get_orbsym : mat F * mat F → list Z * list Z.
Variable gen_uhf_response :
  mat F * mat F → vec F * vec F → list (list (mat F)) → list (mat F) * list (mat F).

Lemma get_vind_orbitals (mf : scf) (s s' : state F) (c : closure F) (l_hdiag : loc) :
  get_vind get_orbsym gen_uhf_response mf s = (Ok (c, l_hdiag), s') →
  ∃ (ca cb : mat F) (oa ob : vec F) (orboa orbob orbva orbvb : mat F),
    heap s !! fst (mo_coeff mf) = Some (OMat ca) ∧
    heap s !! snd (mo_coeff mf) = Some (OMat cb) ∧
    heap s !! fst (mo_occ mf) = Some (OVec oa) ∧
    heap s !! snd (mo_occ mf) = Some (OVec ob) ∧
    take_cols ca (occidx oa) = Ok orboa ∧
    take_cols cb (occidx ob) = Ok orbob ∧
    take_cols ca (viridx oa) = Ok orbva ∧
    take_cols cb (viridx ob) = Ok orbvb ∧
    c_orboa c = length (heap s) ∧ c_orbob c = length (heap s) + 1 ∧
    c_orbva c = length (heap s) + 2 ∧ c_orbvb c = length (heap s) + 3 ∧
    c_nao c = length ca ∧ c_nmo c = length (hd [] ca) ∧
    (heap s ++ [OMat orboa; OMat orbob; OMat orbva; OMat orbvb]) `prefix_of` heap s'.
Proof.
  unfold get_vind. intros Hrun.
  destruct (filter_on (t_wfnsym (td s)) (mol_symmetry mf)) eqn:Hon.
  - inv_run. rewrite_filter Hon.
    destruct (get_orbsym (a, a0)) as [orbsyma orbsymb].
    inv_run.
    repeat match goal with
           | H : _ !! _ = Some _ |- _ => progress heap_norm H
           end.
    simplify_eq. cbn [heap c_orboa c_orbob c_orbva c_orbvb c_nao c_nmo].
    do 8 eexists. do 8 (split; [eassumption|]).
    rewrite insert_snoc, !length_app. cbn [length].
    repeat (split; [lia|]). 
    rewrite <- !app_assoc. cbn [app]. apply prefix_app, prefix_cons, prefix_cons,
      prefix_cons, prefix_cons, prefix_nil.
  - inv_run. rewrite_filter Hon. inv_run.
    repeat match goal with
           | H : _ !! _ = Some _ |- _ => progress heap_norm H
           end.
    simplify_eq. cbn [heap c_orboa c_orbob c_orbva c_orbvb c_nao c_nmo].
    do 8 eexists. do 8 (split; [eassumption|]).
    rewrite !length_app. cbn [length].
    repeat (split; [lia|]).
    rewrite <- !app_assoc. cbn [app]. apply prefix_app, prefix_cons, prefix_cons,
      prefix_cons, prefix_cons, prefix_nil.
Qed.

(** X11.  The four coefficient blocks that a successful [get_vind] keeps
    for the operator are new arrays holding the occupied and the virtual
    columns of the coefficient matrix of their spin, in ascending orbital
    order: [nao] rows each, and as many columns as there are occupied
    (virtual) orbitals. *)
Theorem orbital_blocks (mf : scf) (s s' : state F) (c : closure F) (l_hdiag : loc) :
  get_vind get_orbsym gen_uhf_response mf s = (Ok (c, l_hdiag), s') →
  ∃ (ca cb : mat F) (oa ob : vec F) (orboa orbob orbva orbvb : mat F),
    heap s !! fst (mo_coeff mf) = Some (OMat ca) ∧
    heap s !! snd (mo_coeff mf) = Some (OMat cb) ∧
    heap s !! fst (mo_occ mf) = Some (OVec oa) ∧
    heap s !! snd (mo_occ mf) = Some (OVec ob) ∧
    heap s' !! c_orboa c = Some (OMat orboa) ∧
    heap s' !! c_orbob c = Some (OMat orbob) ∧
    heap s' !! c_orbva c = Some (OMat orbva) ∧
    heap s' !! c_orbvb c = Some (OMat orbvb) ∧
    length (heap s) ≤ c_orboa c ∧ length (heap s) ≤ c_orbob c ∧
    length (heap s) ≤ c_orbva c ∧ length (heap s) ≤ c_orbvb c ∧
    columns_of ca (occidx oa) orboa ∧ columns_of cb (occidx ob) orbob ∧
    columns_of ca (viridx oa) orbva ∧ columns_of cb (viridx ob) orbvb ∧
    c_nao c = length ca ∧
    c_nocca c = length (occidx oa) ∧ c_noccb c = length (occidx ob) ∧
    c_nvira c = length (viridx oa) ∧ c_nvirb c = length (viridx ob).
Proof.
  intros Hg.
  destruct (get_vind_orbitals mf s s' c l_hdiag Hg)
    as (ca & cb & oa & ob & orboa & orbob & orbva & orbvb &
        Hca & Hcb & Hoa & Hob & Hoa' & Hob' & Hva' & Hvb' &
        Hl1 & Hl2 & Hl3 & Hl4 & Hnao & _ & Hpre).
  apply get_vind_inv in Hg
    as (ca2 & cb2 & ea2 & eb2 & oa2 & ob2 & o1 & o2 & o3 & o4 & ra & rb & e_ai &
        masks & _ & _ & _ & _ & Hoa2 & Hob2 & Hrest).
  do 10 (destruct Hrest as [_ Hrest]).
  destruct Hrest as (Hnoa & Hnob & Hnva & Hnvb & _).
  rewrite Hoa in Hoa2. injection Hoa2 as <-.
  rewrite Hob in Hob2. injection Hob2 as <-.
  exists ca, cb, oa, ob, orboa, orbob, orbva, orbvb.
  do 4 (split; [assumption|]).
  assert (Hlk : ∀ k o,
            [OMat orboa; OMat orbob; OMat orbva; OMat orbvb] !! k = Some o →
            heap s' !! (length (heap s) + k) = Some o).
  { intros k o Hk. eapply prefix_lookup_Some; [|exact Hpre].
    rewrite lookup_app_r by lia. rewrite Nat.add_comm, Nat.add_sub. exact Hk. }
  split; [rewrite Hl1, <- (Nat.add_0_r (length (heap s))); apply Hlk; reflexivity|].
  split; [rewrite Hl2; apply Hlk; reflexivity|].
  split; [rewrite Hl3; apply Hlk; reflexivity|].
  split; [rewrite Hl4; apply Hlk; reflexivity|].
  do 4 (split; [lia|]).
  do 4 (split; [apply take_cols_columns; assumption|]).
  auto.
Qed.
End OrbitalBlocksSetup.

(** ** The last step of the operator: the rescale by [d] *)

Section DiagonalLoop.
Context {F : Type} `{Arith F}.

Lemma inplace2_scaled (a dai r : vec F) :
  inplace2 fmul a dai = Ok r → scaled_by dai r.
Proof.
  unfold inplace2. destruct (Nat.eqb (length dai) (length a)).
  - intros [= <-] k dk x Hd. rewrite lookup_zip_with, Hd.
    destruct (a !! k) as [ak|]; [|discriminate]. cbn. intros [= <-]. eauto.
  - destruct dai as [|y [|y' dai]]; try discriminate.
    intros [= <-] k dk x Hd. destruct k as [|k]; [|discriminate].
    injection Hd as ->. rewrite map_fmap, list_lookup_fmap.
    destruct (a !! 0) as [a0|]; [|discriminate]. cbn. intros [= <-]. eauto.
Qed.

Lemma load_tens_inv (l : loc) (t : list (list (mat F))) (s s' : state F) :
  load_tens l s = (Ok t, s') → heap s !! l = Some (OTens t) ∧ s' = s.
Proof.
  intros (o & s1 & [Hl ->]%load_inv & Hr)%bind_inv.
  destruct o; try discriminate. apply ret_inv in Hr as [-> ->]. auto.
Qed.

Lemma update_row_inv (l : loc) (i : nat) (f : F → F → F) (b : vec F)
    (u : unit) (s s' : state F) :
  update_row l i f b s = (Ok u, s') →
  ∃ hx hxi r,
    heap s !! l = Some (OMat hx) ∧ hx !! i = Some hxi ∧
    inplace2 f hxi b = Ok r ∧
    s' = set_heap (<[l := OMat (<[i := r]> hx)]> (heap s)) s.
Proof.
  unfold update_row, row. intros Hrun. inv_run.
  destruct (a !! i) as [hxi|] eqn:Hi; [|discriminate].
  simplify_eq. eauto 10.
Qed.

Lemma vind_diag_inv (c : closure F) (l_hx : loc) (i : nat) (z : vec F)
    (u : unit) (s s' : state F) (dai : vec F) (hx : mat F) :
  vind_diag c l_hx (i, z) s = (Ok u, s') →
  heap s !! c_dai c = Some (OVec dai) →
  heap s !! l_hx = Some (OMat hx) →
  ∃ row,
    i < length hx ∧ scaled_by dai row ∧
    s' = set_heap (<[l_hx := OMat (<[i := row]> hx)]> (heap s)) s.
Proof.
  unfold vind_diag. cbn [fst snd]. intros Hrun Hd Hx.
  assert (Hne : c_dai c ≠ l_hx) by (intros E; rewrite E in Hd; congruence).
  assert (Hlx : l_hx < length (heap s)) by (eapply lookup_lt_Some, Hx).
  inv_run.
  repeat match goal with
         | Hu : update_row _ _ _ _ _ = (Ok _, _) |- _ =>
             apply update_row_inv in Hu as (? & ? & ? & ? & ? & ? & ?)
         end.
  subst. cbn [heap set_heap] in *.
  repeat match goal with
         | Hl : <[_ := _]> _ !! _ = Some _ |- _ =>
             first [ rewrite list_lookup_insert_ne in Hl by auto
                   | rewrite list_lookup_insert_eq in Hl by assumption ]
         end.
  simplify_eq.
  match goal with
  | Hi : inplace2 fmul _ _ = Ok ?r |- _ => exists r
  end.
  split; [eapply lookup_lt_Some; eassumption|].
  split; [eapply inplace2_scaled; eassumption|].
  unfold set_heap. cbn [heap td chkfile trace]. f_equal.
  rewrite list_insert_insert_eq. do 2 f_equal. apply list_insert_insert_eq.
Qed.

Lemma diag_loop (c : closure F) (l_hx : loc) (dai : vec F)
    (izs : list (nat * vec F)) (u : unit) (s s' : state F) (hx : mat F) :
  forM izs (vind_diag c l_hx) s = (Ok u, s') →
  heap s !! c_dai c = Some (OVec dai) →
  heap s !! l_hx = Some (OMat hx) →
  ∃ hx',
    heap s' !! l_hx = Some (OMat hx') ∧ length hx' = length hx ∧
    ∀ j row, hx' !! j = Some row →
      scaled_by dai row ∨ (hx !! j = Some row ∧ j ∉ izs.*1).
Proof.
  revert s hx. induction izs as [|[i z] izs IH]; intros s hx; cbn [forM].
  - intros [_ ->]%ret_inv _ Hx. exists hx. split; [exact Hx|]. split; [reflexivity|].
    intros j row Hj. right. split; [exact Hj|]. apply not_elem_of_nil.
  - intros (u1 & s1 & Hstep & Hrest)%bind_inv Hd Hx.
    assert (Hne : c_dai c ≠ l_hx) by (intros E; rewrite E in Hd; congruence).
    assert (Hlx : l_hx < length (heap s)) by (eapply lookup_lt_Some, Hx).
    destruct (vind_diag_inv _ _ _ _ _ _ _ _ _ Hstep Hd Hx) as (row & Hi & Hrow & ->).
    destruct (IH _ (<[i := row]> hx) Hrest) as (hx' & Hx' & Hlen & Hall).
    { cbn [heap set_heap]. rewrite list_lookup_insert_ne by auto. exact Hd. }
    { cbn [heap set_heap]. apply list_lookup_insert_eq, Hlx. }
    exists hx'. split; [exact Hx'|]. split; [rewrite Hlen; apply length_insert|].
    intros j r Hj. destruct (Hall j r Hj) as [Hs|[Hold Hnot]]; [left; exact Hs|].
    destruct (decide (j = i)) as [->|Hji].
    + rewrite list_lookup_insert_eq in Hold by exact Hi. injection Hold as <-.
      left. exact Hrow.
    + rewrite list_lookup_insert_ne in Hold by auto. right. split; [exact Hold|].
      cbn [fmap list_fmap fst]. rewrite not_elem_of_cons. auto.
Qed.

Lemma chunks_length (r c : nat) (v : vec F) : length (chunks r c v) = r.
Proof. revert v. induction r as [|r IH]; intros v; simpl; [|rewrite IH]; reflexivity. Qed.

Lemma reshape_rows_length (nz : nat) (v : vec F) (m : mat F) :
  reshape_rows nz v = Ok m → length m = nz.
Proof.
  unfold reshape_rows. destruct nz as [|nz]; [discriminate|].
  destruct (Nat.eqb _ _); [|discriminate]. intros [= <-].
  exact (chunks_length (S nz) (length v / S nz) v).
Qed.

Lemma hstack2_length (a b m : mat F) :
  hstack2 a b = Ok m → length m = length a.
Proof.
  unfold hstack2. destruct (Nat.eqb (length a) (length b)) eqn:E; [|discriminate].
  apply Nat.eqb_eq in E. intros [= <-]. rewrite length_zip_with. lia.
Qed.

Lemma enumerate_indices {A} (xs : list A) (j : nat) :
  j < length xs → j ∈ (enumerate xs).*1.
Proof.
  intros Hj. destruct (lookup_lt_is_Some_2 xs j Hj) as [x Hx].
  apply list_elem_of_fmap. exists (j, x). split; [reflexivity|].
  apply list_elem_of_lookup. exists j. unfold enumerate.
  rewrite list_lookup_imap, Hx. reflexivity.
Qed.
End DiagonalLoop.

Section OperatorOutput.
Context {F : Type} `{Arith F}.
Variable nr_e2 : list (mat F) → mat F → nat * nat * nat * nat → vec F.

Lemma vind_body_scaled (c : closure F) (l_zs l_hx : loc)
    (s s' : state F) (dai : vec F) (zs : mat F) :
  vind_body nr_e2 c (length zs) l_zs s = (Ok l_hx, s') →
  heap s !! c_dai c = Some (OVec dai) →
  heap s !! l_zs = Some (OMat zs) →
  ∃ hx, heap s' !! l_hx = Some (OMat hx) ∧ length hx = length zs ∧
        Forall (scaled_by dai) hx.
Proof.
  unfold vind_body. set (nz := length zs). intros Hrun Hd Hz.
  assert (Hld : c_dai c < length (heap s)) by (eapply lookup_lt_Some, Hd).
  assert (Hlz : l_zs < length (heap s)) by (eapply lookup_lt_Some, Hz).
  apply bind_inv in Hrun as (l_dmvo & s1 & [-> ->]%alloc_inv & Hrun).
  apply bind_inv in Hrun as (u1 & s2 & Hdens & Hrun).
  assert (Hfr : frame (length (heap s)) (set_heap (heap s ++ [OTens (empty4 nz (c_nao c))]) s) s2).
  { pose proof (safe_forM true (length (heap s)) (seq 0 nz)
                  (vind_density c l_zs (length (heap s)))
                  (fun i => safe_vind_density nr_e2 true _ c l_zs _ i (Nat.le_refl _))
                  (set_heap (heap s ++ [OTens (empty4 nz (c_nao c))]) s)) as Hs.
    rewrite Hdens in Hs. apply Hs. cbn [heap set_heap]. rewrite length_app. lia. }
  assert (Hold : ∀ l, l < length (heap s) → heap s2 !! l = heap s !! l).
  { intros l Hl. rewrite (frame_lookup _ _ _ _ Hfr Hl). cbn [heap set_heap].
    apply lookup_app_l, Hl. }
  apply bind_inv in Hrun as (dmvo & s3 & [_ ->]%load_tens_inv & Hrun).
  apply bind_inv in Hrun as (mo_a & s3 & [_ ->]%load_mat_inv & Hrun).
  apply bind_inv in Hrun as (mo_b & s3 & [_ ->]%load_mat_inv & Hrun).
  apply bind_inv in Hrun as (ra & s3 & [Hra ->]%lift_inv & Hrun).
  apply bind_inv in Hrun as (rb & s3 & [Hrb ->]%lift_inv & Hrun).
  apply bind_inv in Hrun as (hx0 & s3 & [Hh ->]%lift_inv & Hrun).
  apply bind_inv in Hrun as (l & s3 & [-> ->]%alloc_inv & Hrun).
  apply bind_inv in Hrun as (zs' & s3 & [Hz' ->]%load_mat_inv & Hrun).
  apply bind_inv in Hrun as (u2 & s3 & Hloop & [-> ->]%ret_inv).
  pose proof (proj1 Hfr) as Hle.
  cbn [heap set_heap] in Hz', Hloop.
  rewrite lookup_app_l, (Hold _ Hlz), Hz in Hz' by lia. injection Hz' as <-.
  apply hstack2_length in Hh. apply reshape_rows_length in Hra.
  destruct (diag_loop c (length (heap s2)) dai (enumerate zs) u2 _ _ hx0 Hloop)
    as (hx & Hx & Hlen & Hall).
  { cbn [heap set_heap]. rewrite lookup_app_l by lia. rewrite (Hold _ Hld). exact Hd. }
  { cbn [heap set_heap]. apply lookup_snoc. }
  exists hx. split; [exact Hx|]. split; [unfold nz in *; congruence|].
  apply Forall_lookup. intros j row Hj.
  destruct (Hall j row Hj) as [Hs|[_ Hnot]]; [exact Hs|].
  destruct Hnot. apply enumerate_indices.
  apply lookup_lt_Some in Hj. unfold nz in *. congruence.
Qed.

Lemma vind_mask_inv (c : closure F) (l_zs l' : loc) (s s1 : state F) (zs : mat F) :
  vind_mask c l_zs s = (Ok l', s1) →
  heap s !! l_zs = Some (OMat zs) →
  ∃ zs', heap s1 !! l' = Some (OMat zs') ∧ length zs' = length zs ∧
         ∀ l, l < length (heap s) → heap s1 !! l = heap s !! l.
Proof.
  unfold vind_mask. intros Hrun Hz.
  destruct (filter_on (c_wfnsym c) (c_symmetry c)).
  - apply bind_inv in Hrun as (zs0 & s2 & [Hz0 ->]%load_mat_inv & Hrun).
    rewrite Hz in Hz0. injection Hz0 as <-.
    apply bind_inv in Hrun as (rows0 & s2 & [->%np_copy_inv ->]%lift_inv & Hrun).
    apply bind_inv in Hrun as (l & s2 & [-> ->]%alloc_inv & Hrun).
    destruct (c_sym_forbid c) as [lm|]; [|discriminate].
    apply bind_inv in Hrun as (mask & s2 & [_ ->]%load_mask_inv & Hrun).
    apply bind_inv in Hrun as (rows & s2 & [Hrows ->]%load_mat_inv & Hrun).
    apply bind_inv in Hrun as (rows' & s2 & [Hzc ->]%lift_inv & Hrun).
    apply bind_inv in Hrun as (u & s2 & [_ ->]%store_inv & [-> ->]%ret_inv).
    cbn [heap set_heap] in *. rewrite lookup_snoc in Hrows. injection Hrows as <-.
    apply zero_cols_rows in Hzc as [_ [Hlen _]%mapR_lookup].
    rewrite insert_snoc. exists rows'. split; [apply lookup_snoc|].
    split; [exact Hlen|]. intros l Hl. apply lookup_app_l, Hl.
  - apply ret_inv in Hrun as [-> ->]. exists zs. auto.
Qed.

Lemma vind_scaled (c : closure F) (l_zs l_hx : loc) (s s' : state F) (dai : vec F) :
  vind nr_e2 c l_zs s = (Ok l_hx, s') →
  heap s !! c_dai c = Some (OVec dai) →
  ∃ zs hx,
    heap s !! l_zs = Some (OMat zs) ∧
    heap s' !! l_hx = Some (OMat hx) ∧ length hx = length zs ∧
    Forall (scaled_by dai) hx.
Proof.
  unfold vind. intros Hrun Hd.
  apply bind_inv in Hrun as (zs & s1 & [Hz ->]%load_mat_inv & Hrun).
  apply bind_inv in Hrun as (l' & s1 & Hmask & Hrun).
  destruct (vind_mask_inv _ _ _ _ _ _ Hmask Hz) as (zs' & Hz' & Hlen & Hold).
  rewrite <- Hlen in Hrun.
  destruct (vind_body_scaled c l' l_hx s1 s' dai zs' Hrun) as (hx & Hx & Hl & Hall).
  { rewrite Hold by (eapply lookup_lt_Some, Hd). exact Hd. }
  { exact Hz'. }
  exists zs, hx. split; [exact Hz|]. split; [exact Hx|]. split; [congruence|exact Hall].
Qed.
End OperatorOutput.

Section OperatorOutput64.
Variable nr_e2 :
  list (mat spec_float) → mat spec_float → nat * nat * nat * nat → vec spec_float.

Lemma zn_mul_r (a b : spec_float) :
  is_zero_or_nan b = true → is_zero_or_nan (fmul a b) = true.
Proof. destruct b as [sb|sb| |sb mb eb], a as [sa|sa| |sa ma ea]; try discriminate; reflexivity. Qed.

(** X12.  In float64, a successful call of the operator returns one row
    per trial vector, and wherever the vector [d] holds a zero (as it does
    at every symmetry-forbidden place, where [e_ai] was set to 0 before the
    square root) or a NaN, every row of the result holds a zero or a NaN:
    the result has no component along a forbidden excitation. *)
Theorem operator_output_masked (c : closure spec_float) (l_zs l_hx : loc)
    (s s' : state spec_float) (dai : vec spec_float) :
  vind nr_e2 c l_zs s = (Ok l_hx, s') →
  heap s !! c_dai c = Some (OVec dai) →
  ∃ zs hx,
    heap s !! l_zs = Some (OMat zs) ∧
    heap s' !! l_hx = Some (OMat hx) ∧ length hx = length zs ∧
    ∀ i row k dk x,
      hx !! i = Some row → dai !! k = Some dk → is_zero_or_nan dk = true →
      row !! k = Some x → is_zero_or_nan x = true.
Proof.
  intros Hrun Hd.
  destruct (vind_scaled nr_e2 c l_zs l_hx s s' dai Hrun Hd)
    as (zs & hx & Hz & Hx & Hlen & Hall).
  exists zs, hx. repeat (split; [assumption|]).
  intros i row k dk x Hi Hk Hzn Hrow.
  eapply Forall_lookup_1 in Hall; [|exact Hi].
  destruct (Hall k dk x Hk Hrow) as [u ->]. apply zn_mul_r, Hzn.
Qed.
End OperatorOutput64.

(** ** The result at the forbidden places *)

Section ForbiddenComponents.
Variable get_orbsym : mat spec_float * mat spec_float → list Z * list Z.
Variable gen_uhf_response :
  mat spec_float * mat spec_float → vec spec_float * vec spec_float →
  list (list (mat spec_float)) → list (mat spec_float) * list (mat spec_float).
Variable nr_e2 :
  list (mat spec_float) → mat spec_float → nat * nat * nat * nat → vec spec_float.

(** X13.  With the symmetry filter on, in float64: whenever the operator
    built by [get_vind] is applied to a batch of trial vectors, in a
    later state that still holds the arrays of [get_vind], and returns,
    every row of the result holds a zero or a NaN at every
    symmetry-forbidden place. *)
Theorem forbidden_components_vanish (mf : scf) (s s1 s2 : state spec_float)
    (c : closure spec_float) (l_hdiag lm : loc) (mask : list bool)
    (zs hx : mat spec_float) :
  get_vind get_orbsym gen_uhf_response mf s = (Ok (c, l_hdiag), s1) →
  c_sym_forbid c = Some lm →
  heap s1 !! lm = Some (OMask mask) →
  heap s1 `prefix_of` heap s2 →
  vind_apply nr_e2 c s2 zs = Ok hx →
  length hx = length zs ∧
  ∀ i row k x,
    hx !! i = Some row → mask !! k = Some true → row !! k = Some x →
    is_zero_or_nan x = true.
Proof.
  intros Hg Hc Hm Hpre Happ.
  apply get_vind_inv in Hg
    as (ca & cb & ea & eb & oa & ob & orboa & orbob & orbva & orbvb &
        raw_a & raw_b & e_ai & masks & _ & _ & _ & _ & _ & _ & _ & _ &
        Hmask & Hheap & Hdai & _).
  destruct (filter_on _ _).
  2:{ destruct Hmask as (_ & _ & Hnone). congruence. }
  destruct Hmask as (mask' & -> & Hzw & Hc').
  rewrite Hc in Hc'. injection Hc' as ->.
  rewrite Hheap, (lookup_after _ _ _ _ 0) in Hm by (simpl; lia).
  injection Hm as ->.
  assert (Hd1 : heap s1 !! c_dai c = Some (OVec (map fsqrt e_ai))).
  { rewrite Hdai, Hheap. rewrite (lookup_after _ _ _ _ 2) by (simpl; lia). reflexivity. }
  assert (Hd2 : heap s2 !! c_dai c = Some (OVec (map fsqrt e_ai)))
    by (eapply prefix_lookup_Some; eassumption).
  unfold vind_apply in Happ. cbn [alloc] in Happ.
  destruct (vind nr_e2 c (length (heap s2)) _) as [[l_hx|e] s3] eqn:Hv; [|discriminate].
  destruct (vind_scaled nr_e2 c _ l_hx _ s3 (map fsqrt e_ai) Hv)
    as (zs' & hx' & Hz & Hx & Hlen & Hall).
  { cbn [heap set_heap]. rewrite lookup_app_l by (eapply lookup_lt_Some, Hd2). exact Hd2. }
  cbn [heap set_heap] in Hz. rewrite lookup_snoc in Hz. injection Hz as <-.
  rewrite Hx in Happ. injection Happ as <-.
  split; [exact Hlen|].
  intros i row k x Hi Hk Hrow.
  eapply Forall_lookup_1 in Hall; [|exact Hi].
  destruct (zero_where_entries nr_e2 _ _ _ Hzw) as (_ & _ & Hent).
  destruct (Hent k) as [Hzero _]. specialize (Hzero Hk).
  destruct (Hall k (fsqrt fzero) x) as [u ->]; [|exact Hrow|].
  - rewrite map_fmap, list_lookup_fmap, Hzero. reflexivity.
  - apply zn_mul_r. reflexivity.
Qed.

(** X14.  In float64, no entry of the diagonal [hdiag] that [get_vind]
    hands to the preconditioner is negative: each is a square, so its
    sign bit is clear or it is a NaN. *)
Theorem hdiag_not_negative (mf : scf) (s s' : state spec_float)
    (c : closure spec_float) (l_hdiag : loc) :
  get_vind get_orbsym gen_uhf_response mf s = (Ok (c, l_hdiag), s') →
  ∃ hdiag, heap s' !! l_hdiag = Some (OVec hdiag) ∧
           Forall (fun v => has_sign_or_nan false v = true) hdiag.
Proof.
  intros Hg. apply get_vind_inv in Hg
    as (ca & cb & ea & eb & oa & ob & orboa & orbob & orbva & orbvb &
        raw_a & raw_b & e_ai & masks & _ & _ & _ & _ & _ & _ & _ & _ &
        _ & Hheap & _ & _ & Hhd & _).
  exists (map fsq e_ai). split.
  - rewrite Hhd, Hheap.
    rewrite (lookup_after _ _ _ _ (length masks + 3)) by (simpl; lia).
    rewrite lookup_app_r by lia.
    replace (length masks + 3 - length masks) with 3 by lia. reflexivity.
  - rewrite Forall_map. apply Forall_forall. intros v _. apply sq_nonneg.
Qed.
End ForbiddenComponents.

(** ** An empty batch of trial vectors *)

Section EmptyBatch.
Context {F : Type} `{Arith F}.
Variable nr_e2 : list (mat F) → mat F → nat * nat * nat * nat → vec F.

Lemma load_tens_ok (l : loc) (t : list (list (mat F))) (s : state F) :
  heap s !! l = Some (OTens t) → load_tens l s = (Ok t, s).
Proof. intros E. unfold load_tens, bind, load. rewrite E. reflexivity. Qed.

Lemma vind_body_empty (c : closure F) (l_zs : loc) (s : state F) (ma mb : mat F) :
  heap s !! fst (c_mo_coeff c) = Some (OMat ma) →
  heap s !! snd (c_mo_coeff c) = Some (OMat mb) →
  fst (vind_body nr_e2 c 0 l_zs s) = Err ValueError.
Proof.
  intros Ha Hb. unfold vind_body. cbn [seq forM].
  erewrite bind_ok by reflexivity.
  erewrite bind_ok by reflexivity.
  erewrite bind_ok by (apply load_tens_ok; cbn [heap set_heap]; apply lookup_snoc).
  erewrite bind_ok
    by (apply load_mat_ok; cbn [heap set_heap];
        rewrite lookup_app_l by (eapply lookup_lt_Some, Ha); exact Ha).
  erewrite bind_ok
    by (apply load_mat_ok; cbn [heap set_heap];
        rewrite lookup_app_l by (eapply lookup_lt_Some, Hb); exact Hb).
  reflexivity.
Qed.

(** X15.  Applied to an empty batch (a list of no trial vectors), the
    operator raises.  With the symmetry filter on it is the IndexError of
    [zs[:,sym_forbid] = 0]: the copy of an empty list is a 1-D array.
    With the filter off it is a ValueError: no densities are built and
    [reshape(nz, -1)] with [nz = 0] is refused. *)
Theorem empty_batch_rejected (c : closure F) (l_zs : loc) (s : state F)
    (ma mb : mat F) :
  heap s !! l_zs = Some (OMat []) →
  heap s !! fst (c_mo_coeff c) = Some (OMat ma) →
  heap s !! snd (c_mo_coeff c) = Some (OMat mb) →
  (filter_on (c_wfnsym c) (c_symmetry c) = true →
   ∃ lm mask, c_sym_forbid c = Some lm ∧ heap s !! lm = Some (OMask mask)) →
  fst (vind nr_e2 c l_zs s)
  = Err (if filter_on (c_wfnsym c) (c_symmetry c) then IndexError else ValueError).
Proof.
  intros Hz Ha Hb Hf.
  destruct (filter_on (c_wfnsym c) (c_symmetry c)) eqn:Hon.
  - destruct (Hf eq_refl) as (lm & mask & Hc & Hm).
    rewrite (vind_filter_run nr_e2 c l_zs lm s [] mask Hon Hc Hz Hm).
    reflexivity.
  - unfold vind. rewrite (bind_ok _ _ _ _ _ (load_mat_ok _ _ _ Hz)).
    unfold vind_mask. rewrite Hon.
    erewrite bind_ok by reflexivity. cbn [length].
    apply (vind_body_empty c _ _ ma mb); assumption.
Qed.
End EmptyBatch.

(** ** Trial vectors of the wrong length *)

Section WrongLength.
Context {F : Type} `{Arith F}.
Variable nr_e2 : list (mat F) → mat F → nat * nat * nat * nat → vec F.

Lemma bind_bind {A B C} (m : M F A) (k1 : A → M F B) (k2 : B → M F C) (s : state F) :
  bind (bind m k1) k2 s = bind m (fun a => bind (k1 a) k2) s.
Proof. unfold bind. destruct (m s) as [[a|e] s1]; reflexivity. Qed.

Lemma bcast2_wrong_length (f : F → F → F) (a b : vec F) :
  length a ≠ length b → length a ≠ 1 → length b ≠ 1 →
  bcast2 f a b = Err ValueError.
Proof.
  intros Hab Ha Hb. unfold bcast2.
  destruct (Nat.eqb_spec (length a) (length b)) as [E|_]; [contradiction|].
  destruct a as [|x [|x' a]], b as [|y [|y' b]]; simpl in *; congruence.
Qed.

(** X16.  A batch with trial vectors of the wrong length is refused.
    With the symmetry filter on, a batch whose vectors are not all of one
    length gives the ValueError of [numpy.copy], and a batch of vectors of
    one length that is not the length of the mask gives the IndexError of
    [zs[:,sym_forbid] = 0]; nothing has been computed by then.  With the
    filter off, a first vector whose length is neither 1 nor that of [d]
    (itself not of length 1) gives ValueError at the rescale by [d]. *)
Theorem wrong_length_rejected (c : closure F) (l_zs : loc) (s : state F) (zs : mat F) :
  heap s !! l_zs = Some (OMat zs) →
  (∀ i j zi zj,
     filter_on (c_wfnsym c) (c_symmetry c) = true →
     zs !! i = Some zi → zs !! j = Some zj → length zi ≠ length zj →
     vind nr_e2 c l_zs s = (Err ValueError, s)) ∧
  (∀ lm mask m,
     filter_on (c_wfnsym c) (c_symmetry c) = true →
     c_sym_forbid c = Some lm → heap s !! lm = Some (OMask mask) →
     zs ≠ [] → Forall (fun z => length z = m) zs → m ≠ length mask →
     fst (vind nr_e2 c l_zs s) = Err IndexError) ∧
  (∀ dai z0,
     filter_on (c_wfnsym c) (c_symmetry c) = false →
     heap s !! c_dai c = Some (OVec dai) → zs !! 0 = Some z0 →
     length dai ≠ length z0 → length dai ≠ 1 → length z0 ≠ 1 →
     fst (vind nr_e2 c l_zs s) = Err ValueError).
Proof.
  intros Hz. split; [|split].
  - intros i j zi zj Hon Hi Hj Hne.
    unfold vind. rewrite (bind_ok _ _ _ _ _ (load_mat_ok _ _ _ Hz)).
    apply bind_err. unfold vind_mask. rewrite Hon.
    rewrite (bind_ok _ _ _ _ _ (load_mat_ok _ _ _ Hz)).
    apply bind_err. unfold lift.
    rewrite (np_copy_ragged zs i j zi zj Hi Hj Hne). reflexivity.
  - intros lm mask m Hon Hc Hm Hne Hall Hlen.
    rewrite (vind_filter_run nr_e2 c l_zs lm s zs mask Hon Hc Hz Hm).
    rewrite (np_copy_same_length zs m Hall).
    rewrite zero_cols_wrong_length; [reflexivity|].
    destruct zs as [|z r]; [contradiction|].
    apply Exists_cons_hd. apply Forall_cons in Hall as [-> _]. exact Hlen.
  - intros dai z0 Hoff Hd Hz0 Hlen Hd1 Hz1.
    unfold vind. rewrite (bind_ok _ _ _ _ _ (load_mat_ok _ _ _ Hz)).
    unfold vind_mask. rewrite Hoff. erewrite bind_ok by reflexivity.
    unfold vind_body. erewrite bind_ok by reflexivity.
    destruct zs as [|z zs']; [discriminate|]. injection Hz0 as ->.
    cbn [length seq forM]. unfold vind_density at 1.
    set (s1 := set_heap _ s).
    assert (Hd' : heap s1 !! c_dai c = Some (OVec dai)).
    { unfold s1. cbn [heap set_heap].
      rewrite lookup_app_l by (eapply lookup_lt_Some, Hd). exact Hd. }
    assert (Hz' : heap s1 !! l_zs = Some (OMat (z0 :: zs'))).
    { unfold s1. cbn [heap set_heap].
      rewrite lookup_app_l by (eapply lookup_lt_Some, Hz). exact Hz. }
    rewrite !bind_bind.
    rewrite (bind_ok _ _ _ _ _ (load_vec_ok _ _ _ Hd')). cbv beta.
    rewrite !bind_bind.
    rewrite (bind_ok _ _ _ _ _ (load_mat_ok _ _ _ Hz')). cbv beta.
    rewrite !bind_bind.
    erewrite bind_ok by reflexivity. cbv beta.
    rewrite !bind_bind.
    rewrite (bcast2_wrong_length fmul dai z0 Hlen Hd1 Hz1). reflexivity.
Qed.
End WrongLength.

(** ** What the operator computes *)

Section DensityLoop.
Context {F : Type} `{Arith F}.

Lemma set_block_inv (l : loc) (sp i nao nb : nat) (m : mat F) (u : unit)
    (s s' : state F) :
  set_block l sp i nao nb m s = (Ok u, s') →
  ∃ t blk batch,
    heap s !! l = Some (OTens t) ∧ bcast_block nao nb m = Ok blk ∧
    t !! sp = Some batch ∧ i < length batch ∧
    s' = set_heap (<[l := OTens (<[sp := <[i := blk]> batch]> t)]> (heap s)) s.
Proof.
  unfold set_block, row. intros Hrun.
  apply bind_inv in Hrun as (t & s1 & [Ht ->]%load_tens_inv & Hrun).
  apply bind_inv in Hrun as (blk & s1 & [Hb ->]%lift_inv & Hrun).
  apply bind_inv in Hrun as (batch & s1 & [Hr ->]%lift_inv & Hrun).
  destruct (t !! sp) as [b|] eqn:Hsp; [|discriminate]. injection Hr as ->.
  destruct (decide (i < length batch)); [|discriminate].
  apply store_inv in Hrun as [_ ->]. eauto 10.
Qed.

Lemma vind_density_inv (c : closure F) (l_zs l_dmvo : loc) (i : nat) (u : unit)
    (s s' : state F) (dai : vec F) (zs orbva orboa orbvb orbob : mat F)
    (ba bb : list (mat F)) :
  vind_density c l_zs l_dmvo i s = (Ok u, s') →
  heap s !! l_dmvo = Some (OTens [ba; bb]) →
  heap s !! c_dai c = Some (OVec dai) →
  heap s !! l_zs = Some (OMat zs) →
  heap s !! c_orbva c = Some (OMat orbva) →
  heap s !! c_orboa c = Some (OMat orboa) →
  heap s !! c_orbvb c = Some (OMat orbvb) →
  heap s !! c_orbob c = Some (OMat orbob) →
  ∃ zi blka blkb,
    zs !! i = Some zi ∧ i < length ba ∧ i < length bb ∧
    density_blocks c dai orbva orboa orbvb orbob zi blka blkb ∧
    s' = set_heap (<[l_dmvo := OTens [<[i := blka]> ba; <[i := blkb]> bb]]> (heap s)) s.
Proof.
  unfold vind_density, row. intros Hrun Ht Hd Hz Hva Hoa Hvb Hob.
  assert (Hlt : l_dmvo < length (heap s)) by (eapply lookup_lt_Some, Ht).
  assert (Hn1 : c_orbvb c ≠ l_dmvo) by (intros E; rewrite E in Hvb; congruence).
  assert (Hn2 : c_orbob c ≠ l_dmvo) by (intros E; rewrite E in Hob; congruence).
  apply bind_inv in Hrun as (dai' & s1 & [Hd' ->]%load_vec_inv & Hrun).
  apply bind_inv in Hrun as (zs' & s1 & [Hz' ->]%load_mat_inv & Hrun).
  apply bind_inv in Hrun as (zi & s1 & [Hzi ->]%lift_inv & Hrun).
  apply bind_inv in Hrun as (z & s1 & [Hbz ->]%lift_inv & Hrun).
  apply bind_inv in Hrun as (za & s1 & [Hza ->]%lift_inv & Hrun).
  apply bind_inv in Hrun as (zb & s1 & [Hzb ->]%lift_inv & Hrun).
  apply bind_inv in Hrun as (va & s1 & [Hva' ->]%load_mat_inv & Hrun).
  apply bind_inv in Hrun as (oa & s1 & [Hoa' ->]%load_mat_inv & Hrun).
  apply bind_inv in Hrun as (u1 & s1 & Hsb1 & Hrun).
  apply set_block_inv in Hsb1 as (t1 & blka & batch1 & Ht1 & Hblka & Hb1 & Hi1 & ->).
  apply bind_inv in Hrun as (vb & s1 & [Hvb' ->]%load_mat_inv & Hrun).
  apply bind_inv in Hrun as (ob & s1 & [Hob' ->]%load_mat_inv & Hrun).
  apply set_block_inv in Hrun as (t2 & blkb & batch2 & Ht2 & Hblkb & Hb2 & Hi2 & ->).
  cbn [heap set_heap] in *.
  rewrite list_lookup_insert_ne in Hvb', Hob' by auto.
  rewrite list_lookup_insert_eq in Ht2 by exact Hlt.
  rewrite Hd in Hd'. injection Hd' as <-.
  rewrite Hz in Hz'. injection Hz' as <-.
  rewrite Hva in Hva'. injection Hva' as <-.
  rewrite Hoa in Hoa'. injection Hoa' as <-.
  rewrite Hvb in Hvb'. injection Hvb' as <-.
  rewrite Hob in Hob'. injection Hob' as <-.
  rewrite Ht in Ht1. injection Ht1 as <-.
  injection Ht2 as <-.
  cbn in Hb1. injection Hb1 as <-.
  cbn in Hb2. injection Hb2 as <-.
  destruct (zs !! i) as [zi'|] eqn:Hzi'; [|discriminate]. injection Hzi as ->.
  exists zi, blka, blkb. split; [reflexivity|]. split; [exact Hi1|]. split; [exact Hi2|].
  split; [exists z, za, zb; auto|].
  unfold set_heap. cbn [heap td chkfile trace]. f_equal.
  rewrite list_insert_insert_eq. reflexivity.
Qed.

Lemma density_loop (c : closure F) (l_zs l_dmvo : loc) (dai : vec F)
    (zs orbva orboa orbvb orbob : mat F) (ixs : list nat) (u : unit)
    (s s' : state F) (ba bb : list (mat F)) :
  forM ixs (vind_density c l_zs l_dmvo) s = (Ok u, s') →
  NoDup ixs →
  heap s !! l_dmvo = Some (OTens [ba; bb]) →
  heap s !! c_dai c = Some (OVec dai) →
  heap s !! l_zs = Some (OMat zs) →
  heap s !! c_orbva c = Some (OMat orbva) →
  heap s !! c_orboa c = Some (OMat orboa) →
  heap s !! c_orbvb c = Some (OMat orbvb) →
  heap s !! c_orbob c = Some (OMat orbob) →
  ∃ ba' bb',
    heap s' !! l_dmvo = Some (OTens [ba'; bb']) ∧
    length ba' = length ba ∧ length bb' = length bb ∧
    (∀ l, l ≠ l_dmvo → heap s' !! l = heap s !! l) ∧
    length (heap s') = length (heap s) ∧
    (∀ i, i ∈ ixs →
       ∃ zi blka blkb,
         zs !! i = Some zi ∧ ba' !! i = Some blka ∧ bb' !! i = Some blkb ∧
         density_blocks c dai orbva orboa orbvb orbob zi blka blkb) ∧
    (∀ i, i ∉ ixs → ba' !! i = ba !! i ∧ bb' !! i = bb !! i).
Proof.
  revert s ba bb. induction ixs as [|i ixs IH]; intros s ba bb; cbn [forM].
  - intros [_ ->]%ret_inv _ Ht _ _ _ _ _ _. exists ba, bb.
    repeat split; auto. intros i Hi. inversion Hi.
  - intros (u1 & s1 & Hstep & Hrest)%bind_inv Hnd Ht Hd Hz Hva Hoa Hvb Hob.
    apply NoDup_cons in Hnd as [Hni Hnd].
    assert (Hlt : l_dmvo < length (heap s)) by (eapply lookup_lt_Some, Ht).
    destruct (vind_density_inv _ _ _ _ _ _ _ _ _ _ _ _ _ _ _
                Hstep Ht Hd Hz Hva Hoa Hvb Hob)
      as (zi & blka & blkb & Hzi & Hia & Hib & Hblk & ->).
    assert (Hne : ∀ l o, heap s !! l = Some o → (∀ t, o ≠ OTens t) →
                         <[l_dmvo := OTens [<[i := blka]> ba; <[i := blkb]> bb]]>
                           (heap s) !! l = Some o).
    { intros l o Hl Ho. rewrite list_lookup_insert_ne; [exact Hl|].
      intros E. rewrite <- E, Ht in Hl. injection Hl as <-. exact (Ho _ eq_refl). }
    destruct (IH _ (<[i := blka]> ba) (<[i := blkb]> bb) Hrest Hnd)
      as (ba' & bb' & Ht' & Hla & Hlb & Hother & Hlen & Hin & Hout);
      cbn [heap set_heap];
      try (apply Hne; [assumption|intros t; discriminate]).
    { apply list_lookup_insert_eq, Hlt. }
    cbn [heap set_heap] in Hother, Hlen.
    exists ba', bb'. split; [exact Ht'|].
    split; [rewrite Hla; apply length_insert|].
    split; [rewrite Hlb; apply length_insert|].
    split; [intros l Hl; rewrite (Hother l Hl); apply list_lookup_insert_ne; auto|].
    split; [rewrite Hlen; apply length_insert|].
    split.
    + intros j [->|Hj]%elem_of_cons; [|exact (Hin j Hj)].
      destruct (Hout i Hni) as [Ha Hb].
      exists zi, blka, blkb. split; [exact Hzi|].
      split; [rewrite Ha; apply list_lookup_insert_eq, Hia|].
      split; [rewrite Hb; apply list_lookup_insert_eq, Hib|exact Hblk].
    + intros j Hj. apply not_elem_of_cons in Hj as [Hji Hj].
      destruct (Hout j Hj) as [Ha Hb].
      rewrite Ha, Hb, !list_lookup_insert_ne by auto. auto.
Qed.
End DensityLoop.

Section DiagonalRows.
Context {F : Type} `{Arith F}.

Lemma vind_diag_step (c : closure F) (l_hx : loc) (i : nat) (z : vec F)
    (u : unit) (s s' : state F) (dai edai : vec F) (hx : mat F) :
  vind_diag c l_hx (i, z) s = (Ok u, s') →
  heap s !! c_dai c = Some (OVec dai) →
  heap s !! c_edai c = Some (OVec edai) →
  heap s !! l_hx = Some (OMat hx) →
  ∃ v r,
    hx !! i = Some v ∧ diagonal_row dai edai v z r ∧
    s' = set_heap (<[l_hx := OMat (<[i := r]> hx)]> (heap s)) s.
Proof.
  unfold vind_diag. cbn [fst snd]. intros Hrun Hd He Hx.
  assert (Hne : c_dai c ≠ l_hx) by (intros E; rewrite E in Hd; congruence).
  assert (Hlx : l_hx < length (heap s)) by (eapply lookup_lt_Some, Hx).
  apply bind_inv in Hrun as (edai' & s1 & [He' ->]%load_vec_inv & Hrun).
  rewrite He in He'. injection He' as <-.
  apply bind_inv in Hrun as (t & s1 & [Ht ->]%lift_inv & Hrun).
  apply bind_inv in Hrun as (u1 & s1 & Hu1 & Hrun).
  apply update_row_inv in Hu1 as (hx1 & v & r1 & Hx1 & Hv & Hr1 & ->).
  rewrite Hx in Hx1. injection Hx1 as <-.
  apply bind_inv in Hrun as (dai' & s1 & [Hd' ->]%load_vec_inv & Hrun).
  cbn [heap set_heap] in Hd'. rewrite list_lookup_insert_ne in Hd' by auto.
  rewrite Hd in Hd'. injection Hd' as <-.
  apply update_row_inv in Hrun as (hx2 & v2 & r & Hx2 & Hv2 & Hr & ->).
  cbn [heap set_heap] in Hx2. rewrite list_lookup_insert_eq in Hx2 by exact Hlx.
  injection Hx2 as <-.
  rewrite list_lookup_insert_eq in Hv2 by (eapply lookup_lt_Some, Hv).
  injection Hv2 as <-.
  exists v, r. split; [exact Hv|]. split; [exists t, r1; auto|].
  unfold set_heap. cbn [heap td chkfile trace]. f_equal.
  rewrite list_insert_insert_eq. do 2 f_equal. apply list_insert_insert_eq.
Qed.

Lemma diag_rows (c : closure F) (l_hx : loc) (dai edai : vec F)
    (izs : list (nat * vec F)) (u : unit) (s s' : state F) (hx : mat F) :
  forM izs (vind_diag c l_hx) s = (Ok u, s') →
  NoDup (izs.*1) →
  heap s !! c_dai c = Some (OVec dai) →
  heap s !! c_edai c = Some (OVec edai) →
  heap s !! l_hx = Some (OMat hx) →
  ∃ hx',
    heap s' !! l_hx = Some (OMat hx') ∧ length hx' = length hx ∧
    (∀ i z, (i, z) ∈ izs →
       ∃ v r, hx !! i = Some v ∧ diagonal_row dai edai v z r ∧ hx' !! i = Some r) ∧
    (∀ j, j ∉ izs.*1 → hx' !! j = hx !! j).
Proof.
  revert s hx. induction izs as [|[i z] izs IH]; intros s hx; cbn [forM].
  - intros [_ ->]%ret_inv _ _ _ Hx. exists hx. repeat split; auto.
    intros i z Hi. inversion Hi.
  - intros (u1 & s1 & Hstep & Hrest)%bind_inv Hnd Hd He Hx.
    cbn [fmap list_fmap fst] in Hnd. apply NoDup_cons in Hnd as [Hni Hnd].
    assert (Hn1 : c_dai c ≠ l_hx) by (intros E; rewrite E in Hd; congruence).
    assert (Hn2 : c_edai c ≠ l_hx) by (intros E; rewrite E in He; congruence).
    assert (Hlx : l_hx < length (heap s)) by (eapply lookup_lt_Some, Hx).
    destruct (vind_diag_step _ _ _ _ _ _ _ _ _ _ Hstep Hd He Hx)
      as (v & r & Hv & Hrow & ->).
    destruct (IH _ (<[i := r]> hx) Hrest Hnd) as (hx' & Hx' & Hlen & Hin & Hout);
      cbn [heap set_heap].
    { rewrite list_lookup_insert_ne by auto. exact Hd. }
    { rewrite list_lookup_insert_ne by auto. exact He. }
    { apply list_lookup_insert_eq, Hlx. }
    exists hx'. split; [exact Hx'|]. split; [rewrite Hlen; apply length_insert|].
    split.
    + intros j z' [[= -> ->]|Hj]%elem_of_cons.
      * exists v, r. split; [exact Hv|]. split; [exact Hrow|].
        rewrite (Hout i Hni). apply list_lookup_insert_eq. eapply lookup_lt_Some, Hv.
      * destruct (Hin j z' Hj) as (v' & r' & Hv' & Hrow' & Hr').
        assert (Hji : j ≠ i).
        { intros ->. apply Hni. apply list_elem_of_fmap. exists (i, z'). auto. }
        rewrite list_lookup_insert_ne in Hv' by auto. eauto.
    + intros j Hj. cbn [fmap list_fmap fst] in Hj.
      apply not_elem_of_cons in Hj as [Hji Hj].
      rewrite (Hout j Hj). apply list_lookup_insert_ne. auto.
Qed.

Lemma enumerate_fst_from {A} (xs : list A) (k : nat) :
  (imap (fun j x => (k + j, x)) xs).*1 = seq k (length xs).
Proof.
  revert k. induction xs as [|x xs IH]; intros k; [reflexivity|].
  rewrite imap_cons. cbn [fmap list_fmap fst length seq].
  rewrite Nat.add_0_r. f_equal.
  rewrite <- (IH (S k)). f_equal. apply imap_ext. intros j y _. cbn. f_equal. lia.
Qed.

Lemma enumerate_fst {A} (xs : list A) : (enumerate xs).*1 = seq 0 (length xs).
Proof. exact (enumerate_fst_from xs 0). Qed.

Lemma enumerate_elem {A} (xs : list A) (i : nat) (x : A) :
  xs !! i = Some x → (i, x) ∈ enumerate xs.
Proof.
  intros Hx. apply list_elem_of_lookup. exists i. unfold enumerate.
  rewrite list_lookup_imap, Hx. reflexivity.
Qed.
End DiagonalRows.

Section OperatorFormula.
Context {F : Type} `{Arith F}.
Variable nr_e2 : list (mat F) → mat F → nat * nat * nat * nat → vec F.

Lemma vind_mask_batch (c : closure F) (l_zs l' : loc) (s s1 : state F) (zs : mat F) :
  vind_mask c l_zs s = (Ok l', s1) →
  heap s !! l_zs = Some (OMat zs) →
  ∃ zs', heap s1 !! l' = Some (OMat zs') ∧ length zs' = length zs ∧
         masked_batch c (heap s) zs zs' ∧
         ∀ l, l < length (heap s) → heap s1 !! l = heap s !! l.
Proof.
  unfold vind_mask, masked_batch. intros Hrun Hz.
  destruct (filter_on (c_wfnsym c) (c_symmetry c)).
  - apply bind_inv in Hrun as (zs0 & s2 & [Hz0 ->]%load_mat_inv & Hrun).
    rewrite Hz in Hz0. injection Hz0 as <-.
    apply bind_inv in Hrun as (rows0 & s2 & [->%np_copy_inv ->]%lift_inv & Hrun).
    apply bind_inv in Hrun as (l & s2 & [-> ->]%alloc_inv & Hrun).
    destruct (c_sym_forbid c) as [lm|]; [|discriminate].
    apply bind_inv in Hrun as (mask & s2 & [Hm ->]%load_mask_inv & Hrun).
    apply bind_inv in Hrun as (rows & s2 & [Hrows ->]%load_mat_inv & Hrun).
    apply bind_inv in Hrun as (rows' & s2 & [Hzc ->]%lift_inv & Hrun).
    apply bind_inv in Hrun as (u & s2 & [_ ->]%store_inv & [-> ->]%ret_inv).
    cbn [heap set_heap] in *. rewrite lookup_snoc in Hrows. injection Hrows as <-.
    pose proof (proj1 (mapR_lookup _ _ _ (proj2 (zero_cols_rows _ _ _ Hzc)))) as Hlen.
    rewrite insert_snoc. exists rows'. split; [apply lookup_snoc|].
    split; [exact Hlen|]. split; [|intros l Hl; apply lookup_app_l, Hl].
    exists lm, mask. split; [reflexivity|]. split; [|exact Hzc].
    destruct (decide (lm < length (heap s))) as [Hlt|Hge].
    + rewrite lookup_app_l in Hm by exact Hlt. exact Hm.
    + rewrite lookup_app_r in Hm by lia.
      destruct (lm - length (heap s)) as [|n]; cbn in Hm; discriminate.
  - apply ret_inv in Hrun as [-> ->]. exists zs. auto.
Qed.

Lemma vind_body_rows (c : closure F) (l_zs l_hx : loc) (s s' : state F)
    (dai edai : vec F) (zs orbva orboa orbvb orbob mo_a mo_b : mat F) :
  vind_body nr_e2 c (length zs) l_zs s = (Ok l_hx, s') →
  heap s !! l_zs = Some (OMat zs) →
  heap s !! c_dai c = Some (OVec dai) →
  heap s !! c_edai c = Some (OVec edai) →
  heap s !! c_orbva c = Some (OMat orbva) →
  heap s !! c_orboa c = Some (OMat orboa) →
  heap s !! c_orbvb c = Some (OMat orbvb) →
  heap s !! c_orbob c = Some (OMat orbob) →
  heap s !! fst (c_mo_coeff c) = Some (OMat mo_a) →
  heap s !! snd (c_mo_coeff c) = Some (OMat mo_b) →
  ∃ (da db : list (mat F)) (ra rb hx0 hx : mat F),
    length da = length zs ∧ length db = length zs ∧
    (∀ i zi, zs !! i = Some zi →
       ∃ blka blkb, da !! i = Some blka ∧ db !! i = Some blkb ∧
         density_blocks c dai orbva orboa orbvb orbob zi blka blkb) ∧
    reshape_rows (length zs)
      (nr_e2 (fst (c_vresp c [da; db])) mo_a (c_nocca c, c_nmo c, 0, c_nocca c))
    = Ok ra ∧
    reshape_rows (length zs)
      (nr_e2 (snd (c_vresp c [da; db])) mo_b (c_noccb c, c_nmo c, 0, c_noccb c))
    = Ok rb ∧
    hstack2 ra rb = Ok hx0 ∧
    heap s' !! l_hx = Some (OMat hx) ∧ length hx = length zs ∧
    ∀ i z, zs !! i = Some z →
      ∃ v r, hx0 !! i = Some v ∧ diagonal_row dai edai v z r ∧ hx !! i = Some r.
Proof.
  unfold vind_body. set (nz := length zs).
  intros Hrun Hz Hd He Hva Hoa Hvb Hob Hma Hmb.
  apply bind_inv in Hrun as (l_dmvo & s1 & [-> ->]%alloc_inv & Hrun).
  apply bind_inv in Hrun as (u1 & s2 & Hdens & Hrun).
  assert (Hs1 : ∀ l o, heap s !! l = Some o →
            heap (set_heap (heap s ++ [OTens (empty4 nz (c_nao c))]) s) !! l = Some o).
  { intros l o Hl. cbn [heap set_heap].
    rewrite lookup_app_l by (eapply lookup_lt_Some, Hl). exact Hl. }
  destruct (density_loop c l_zs (length (heap s)) dai zs orbva orboa orbvb orbob
              (seq 0 nz) u1 _ _
              (replicate nz (replicate (c_nao c) (replicate (c_nao c) fzero)))
              (replicate nz (replicate (c_nao c) (replicate (c_nao c) fzero)))
              Hdens (NoDup_seq 0 nz))
    as (da & db & Ht & Hla & Hlb & Hother & Hlen & Hin & _); auto.
  { cbn [heap set_heap]. apply lookup_snoc. }
  rewrite length_replicate in Hla, Hlb.
  cbn [heap set_heap] in Hother, Hlen. rewrite length_app in Hlen. cbn [length] in Hlen.
  assert (Hs2 : ∀ l o, heap s !! l = Some o → heap s2 !! l = Some o).
  { intros l o Hl. pose proof (lookup_lt_Some _ _ _ Hl).
    rewrite Hother by lia. rewrite lookup_app_l by lia. exact Hl. }
  apply bind_inv in Hrun as (dmvo & s3 & [Ht' ->]%load_tens_inv & Hrun).
  rewrite Ht in Ht'. injection Ht' as <-.
  apply bind_inv in Hrun as (ma' & s3 & [Hma' ->]%load_mat_inv & Hrun).
  rewrite (Hs2 _ _ Hma) in Hma'. injection Hma' as <-.
  apply bind_inv in Hrun as (mb' & s3 & [Hmb' ->]%load_mat_inv & Hrun).
  rewrite (Hs2 _ _ Hmb) in Hmb'. injection Hmb' as <-.
  apply bind_inv in Hrun as (ra & s3 & [Hra ->]%lift_inv & Hrun).
  apply bind_inv in Hrun as (rb & s3 & [Hrb ->]%lift_inv & Hrun).
  apply bind_inv in Hrun as (hx0 & s3 & [Hh ->]%lift_inv & Hrun).
  apply bind_inv in Hrun as (l & s3 & [-> ->]%alloc_inv & Hrun).
  apply bind_inv in Hrun as (zs' & s3 & [Hz' ->]%load_mat_inv & Hrun).
  apply bind_inv in Hrun as (u2 & s3 & Hloop & [-> ->]%ret_inv).
  assert (Hs3 : ∀ l o, heap s !! l = Some o →
            heap (set_heap (heap s2 ++ [OMat hx0]) s2) !! l = Some o).
  { intros l o Hl. cbn [heap set_heap].
    rewrite lookup_app_l by (eapply lookup_lt_Some, Hs2, Hl). apply Hs2, Hl. }
  rewrite (Hs3 _ _ Hz) in Hz'. injection Hz' as <-.
  destruct (diag_rows c (length (heap s2)) dai edai (enumerate zs) u2 _ _ hx0 Hloop)
    as (hx & Hx & Hlx & Hrows & _); auto.
  { rewrite enumerate_fst. apply NoDup_seq. }
  { cbn [heap set_heap]. apply lookup_snoc. }
  exists da, db, ra, rb, hx0, hx.
  split; [exact Hla|]. split; [exact Hlb|]. split.
  { intros i zi Hi.
    destruct (Hin i) as (zi' & blka & blkb & Hzi & Ha & Hb & Hblk).
    { apply elem_of_seq. apply lookup_lt_Some in Hi. unfold nz. lia. }
    rewrite Hi in Hzi. injection Hzi as <-. eauto. }
  split; [exact Hra|]. split; [exact Hrb|]. split; [exact Hh|].
  split; [exact Hx|]. split.
  { rewrite Hlx, (hstack2_length _ _ _ Hh). apply (reshape_rows_length _ _ _ Hra). }
  intros i z Hi. apply Hrows, enumerate_elem, Hi.
Qed.

(** X17.  What a successful call of the operator has computed.  On the
    batch it works on (the caller's, or its masked copy), for every trial
    vector [zs[i]] the two blocks [dmvo[0,i]] and [dmvo[1,i]] hold the
    symmetrized densities of [z = d * zs[i]], split and reshaped per spin;
    the response evaluator is called once, on these blocks; and row [i] of
    the result is row [i] of the transformed response, plus [ed * zs[i]],
    times [d].  The result has one row per trial vector. *)
Theorem operator_formula (c : closure F) (l_zs l_hx : loc) (s s' : state F)
    (dai edai : vec F) (orbva orboa orbvb orbob mo_a mo_b : mat F) :
  vind nr_e2 c l_zs s = (Ok l_hx, s') →
  heap s !! c_dai c = Some (OVec dai) →
  heap s !! c_edai c = Some (OVec edai) →
  heap s !! c_orbva c = Some (OMat orbva) →
  heap s !! c_orboa c = Some (OMat orboa) →
  heap s !! c_orbvb c = Some (OMat orbvb) →
  heap s !! c_orbob c = Some (OMat orbob) →
  heap s !! fst (c_mo_coeff c) = Some (OMat mo_a) →
  heap s !! snd (c_mo_coeff c) = Some (OMat mo_b) →
  ∃ (zs zs' : mat F) (da db : list (mat F)) (ra rb hx0 hx : mat F),
    heap s !! l_zs = Some (OMat zs) ∧
    masked_batch c (heap s) zs zs' ∧ length zs' = length zs ∧
    length da = length zs ∧ length db = length zs ∧
    (∀ i zi, zs' !! i = Some zi →
       ∃ blka blkb, da !! i = Some blka ∧ db !! i = Some blkb ∧
         density_blocks c dai orbva orboa orbvb orbob zi blka blkb) ∧
    reshape_rows (length zs)
      (nr_e2 (fst (c_vresp c [da; db])) mo_a (c_nocca c, c_nmo c, 0, c_nocca c))
    = Ok ra ∧
    reshape_rows (length zs)
      (nr_e2 (snd (c_vresp c [da; db])) mo_b (c_noccb c, c_nmo c, 0, c_noccb c))
    = Ok rb ∧
    hstack2 ra rb = Ok hx0 ∧
    heap s' !! l_hx = Some (OMat hx) ∧ length hx = length zs ∧
    ∀ i z, zs' !! i = Some z →
      ∃ v r, hx0 !! i = Some v ∧ diagonal_row dai edai v z r ∧ hx !! i = Some r.
Proof.
  unfold vind. intros Hrun Hd He Hva Hoa Hvb Hob Hma Hmb.
  apply bind_inv in Hrun as (zs & s1 & [Hz ->]%load_mat_inv & Hrun).
  apply bind_inv in Hrun as (l' & s1 & Hmask & Hrun).
  destruct (vind_mask_batch _ _ _ _ _ _ Hmask Hz) as (zs' & Hz' & Hlen & Hmb' & Hold).
  assert (Hs1 : ∀ l o, heap s !! l = Some o → heap s1 !! l = Some o).
  { intros l o Hl. rewrite Hold by (eapply lookup_lt_Some, Hl). exact Hl. }
  rewrite <- Hlen in Hrun.
  destruct (vind_body_rows c l' l_hx s1 s' dai edai zs' orbva orboa orbvb orbob
              mo_a mo_b Hrun Hz')
    as (da & db & ra & rb & hx0 & hx & H1 & H2 & H3 & H4 & H5 & H6 & H7 & H8 & H9);
    auto.
  exists zs, zs', da, db, ra, rb, hx0, hx. rewrite <- Hlen. auto 20.
Qed.
End OperatorFormula.

(** ** The driver, stage by stage *)

Section DriverRuns.
Context {F : Type} `{Arith F} {Precond : Type}.
Variable is_hybrid_xc : string → bool.
Variable get_orbsym : mat F * mat F → list Z * list Z.
Variable gen_uhf_response :
  mat F * mat F → vec F * vec F → list (list (mat F)) → list (mat F) * list (mat F).
Variable nr_e2 : list (mat F) → mat F → nat * nat * nat * nat → vec F.
Variable get_precond : vec F → Precond.
Variable init_guess : vec F * vec F → vec F * vec F → nat → mat F.
Variable davidson1 :
  (mat F → result (mat F)) → mat F → Precond → F → nat → F → nat → nat →
  result (bool * vec F * mat F).
Variable chk_fault :
  gmap string (chkval F) → string → chkval F → option (exn * option (chkval F)).

Local Abbreviation the_setup :=
  (kernel_setup is_hybrid_xc get_orbsym gen_uhf_response get_precond init_guess).
Local Abbreviation the_davidson := (call_davidson nr_e2 davidson1).
Local Abbreviation the_kernel :=
  (kernel is_hybrid_xc get_orbsym gen_uhf_response nr_e2 get_precond init_guess
     davidson1 chk_fault).

Lemma get_vind_trace (mf : scf) (s s' : state F) (r : closure F * loc) :
  get_vind get_orbsym gen_uhf_response mf s = (Ok r, s') →
  trace s' = trace s
             ++ (if filter_on (t_wfnsym (td s)) (mol_symmetry mf)
                 then [EvGetOrbsym] else [])
             ++ [EvGenResponse].
Proof.
  unfold get_vind. intros Hrun.
  destruct (filter_on (t_wfnsym (td s)) (mol_symmetry mf)) eqn:Hon.
  - inv_run. rewrite_filter Hon.
    destruct (get_orbsym (a, a0)) as [orbsyma orbsymb].
    inv_run. rewrite <- app_assoc. reflexivity.
  - inv_run. rewrite_filter Hon. inv_run. reflexivity.
Qed.

Lemma kernel_setup_run (x0 : option (mat F)) (nstates : option nat)
    (s s1 : state F) (c : closure F) (precond : Precond) (x0' : mat F) (ns : nat) :
  the_setup x0 nstates s = (Ok (c, precond, x0', ns), s1) →
  is_hybrid_xc (xc (t_scf (td s))) = false ∧
  ∃ (sb : state F) (l_hdiag : loc) (hdiag : vec F),
    get_vind get_orbsym gen_uhf_response (t_scf (td s)) (before_get_vind nstates s)
      = (Ok (c, l_hdiag), sb) ∧
    heap sb !! l_hdiag = Some (OVec hdiag) ∧
    precond = get_precond hdiag ∧
    ns = default (t_nstates (td s)) nstates ∧
    heap s1 = heap sb ∧ td s1 = td sb ∧ chkfile s1 = chkfile sb ∧
    match x0 with
    | Some x => x0' = x ∧ trace s1 = trace sb ++ [EvGetPrecond]
    | None =>
        (∃ ea eb oa ob,
           heap sb !! fst (mo_energy (t_scf (td s))) = Some (OVec ea) ∧
           heap sb !! snd (mo_energy (t_scf (td s))) = Some (OVec eb) ∧
           heap sb !! fst (mo_occ (t_scf (td s))) = Some (OVec oa) ∧
           heap sb !! snd (mo_occ (t_scf (td s))) = Some (OVec ob) ∧
           x0' = init_guess (ea, eb) (oa, ob) (t_nstates (td sb))) ∧
        trace s1 = trace sb ++ [EvGetPrecond; EvInitGuess]
    end.
Proof.
  unfold kernel_setup, modify_td. intros Hrun.
  apply bind_inv in Hrun as (self & s0 & [-> ->]%get_td_inv & Hrun).
  apply bind_inv in Hrun as (u & s0 & ->%log_inv & Hrun).
  destruct (is_hybrid_xc (xc (t_scf (td s)))); [discriminate|].
  split; [reflexivity|].
  destruct nstates as [n|], x0 as [x|]; inv_run;
    match goal with
    | Hg : get_vind _ _ _ ?sa = (Ok ?r, ?sb) |- _ =>
        destruct r as [c' l]; cbn [fst snd] in *; simplify_eq;
        eexists sb, l, _; split;
        [rewrite <- Hg; f_equal; unfold before_get_vind;
         rewrite <- !app_assoc; reflexivity|]
    end; cbn [heap td chkfile trace fst snd t_scf set_nstates default];
    (split; [eassumption|]); rewrite <- ?app_assoc; eauto 20.
Qed.

Lemma call_davidson_run (c : closure F) (precond : Precond) (x0' : mat F) (ns : nat)
    (s1 s2 : state F) (r : bool * vec F * mat F) :
  the_davidson (c, precond, x0', ns) s1 = (Ok r, s2) →
  davidson1 (vind_apply nr_e2 c s1) x0' precond (t_conv_tol (td s1)) ns
    (t_lindep (td s1)) (t_max_space (td s1)) (t_verbose (td s1)) = Ok r ∧
  s2 = State (heap s1) (td s1) (chkfile s1) (trace s1 ++ [EvDavidson]).
Proof. unfold call_davidson. intros Hrun. inv_run. auto. Qed.

Lemma call_davidson_state (a : closure F * Precond * mat F * nat) (s1 : state F) :
  snd (the_davidson a s1)
  = State (heap s1) (td s1) (chkfile s1) (trace s1 ++ [EvDavidson]).
Proof.
  destruct a as [[[c precond] x0'] ns].
  cbv [call_davidson bind get_td get_state log lift].
  destruct (davidson1 _ _ _ _ _ _ _ _); reflexivity.
Qed.

Lemma kernel_run (x0 : option (mat F)) (nstates : option nat) (s s' : state F)
    (r : vec F * list (xyT F)) :
  the_kernel x0 nstates s = (Ok r, s') →
  ∃ c precond x0' ns s1 conv w2 x1,
    the_setup x0 nstates s = (Ok (c, precond, x0', ns), s1) ∧
    davidson1 (vind_apply nr_e2 c s1) x0' precond (t_conv_tol (td s1)) ns
      (t_lindep (td s1)) (t_max_space (td s1)) (t_verbose (td s1))
    = Ok (conv, w2, x1) ∧
    kernel_finish chk_fault conv w2 x1
      (State (heap s1) (td s1) (chkfile s1) (trace s1 ++ [EvDavidson]))
    = (Ok r, s').
Proof.
  unfold kernel. intros Hrun.
  apply bind_inv in Hrun as ([[[c precond] x0'] ns] & s1 & Hsetup & Hrun).
  apply bind_inv in Hrun as ([[conv w2] x1] & s2 & [Hd ->]%call_davidson_run & Hrun).
  cbn [fst snd] in Hrun. eauto 12.
Qed.

(** X18.  A successful [kernel] has made its outside calls in this order:
    the hybrid test, [check_sanity], [dump_flags], the orbital symmetries
    (only with the symmetry filter on), the response evaluator, the
    preconditioner, the initial guess (only when none was passed), the
    solver and, after it has returned, the two checkpoint writes. *)
Theorem kernel_call_order (x0 : option (mat F)) (nstates : option nat)
    (s s' : state F) (r : vec F * list (xyT F)) :
  the_kernel x0 nstates s = (Ok r, s') →
  let mf := t_scf (td s) in
  trace s' =
    trace s
    ++ [EvIsHybridXc (xc mf); EvCheckSanity; EvDumpFlags]
    ++ (if filter_on (t_wfnsym (td s)) (mol_symmetry mf) then [EvGetOrbsym] else [])
    ++ [EvGenResponse; EvGetPrecond]
    ++ (match x0 with Some _ => [] | None => [EvInitGuess] end)
    ++ [EvDavidson; EvChkSave "tddft/e"; EvChkSave "tddft/xy"].
Proof.
  intros (c & precond & x0' & ns & s1 & conv & w2 & x1 & Hsetup & _ & Hfin)%kernel_run.
  apply kernel_setup_run in Hsetup
    as (_ & sb & l_hdiag & hdiag & Hg & _ & _ & _ & _ & _ & _ & Hx0).
  apply get_vind_trace in Hg.
  assert (Hw : t_wfnsym (td (before_get_vind nstates s)) = t_wfnsym (td s))
    by (destruct nstates; reflexivity).
  rewrite Hw in Hg. cbn [trace before_get_vind] in Hg.
  apply kernel_finish_inv in Hfin as ->. cbn [trace]. cbn zeta.
  destruct x0 as [x|].
  - destruct Hx0 as [_ ->]. rewrite Hg, <- !app_assoc. reflexivity.
  - destruct Hx0 as [_ ->]. rewrite Hg, <- !app_assoc. reflexivity.
Qed.

(** X19.  What a successful [kernel] returns is what it has stored in
    [self.e] and [self.xy] and saved under the two checkpoint keys; the
    other keys of the checkpoint file are as before; [self.converged]
    holds a flag and [self.nstates] the number of roots that was asked
    for. *)
Theorem kernel_result_stored (x0 : option (mat F)) (nstates : option nat)
    (s s' : state F) (e : vec F) (xy : list (xyT F)) :
  the_kernel x0 nstates s = (Ok (e, xy), s') →
  t_e (td s') = Some e ∧ t_xy (td s') = Some xy ∧
  chkfile s' !! "tddft/e" = Some (ChkE e) ∧
  chkfile s' !! "tddft/xy" = Some (ChkXY xy) ∧
  (∀ key, key ≠ "tddft/e" → key ≠ "tddft/xy" → chkfile s' !! key = chkfile s !! key) ∧
  is_Some (t_converged (td s')) ∧
  t_nstates (td s') = default (t_nstates (td s)) nstates.
Proof.
  intros (c & precond & x0' & ns & s1 & conv & w2 & x1 & Hsetup & _ & Hfin)%kernel_run.
  apply kernel_setup_run in Hsetup
    as (_ & sb & l_hdiag & hdiag & Hg & _ & _ & _ & _ & Htd & Hchk & _).
  apply get_vind_inv in Hg
    as (ca & cb & ea' & eb' & oa' & ob' & orboa & orbob & orbva & orbvb &
        raw_a & raw_b & e_ai & masks & Hrest).
  do 20 (destruct Hrest as [_ Hrest]). destruct Hrest as [Htb Hcb].
  apply kernel_finish_inv in Hfin as ->.
  cbn [td chkfile fst snd set_xy set_e set_converged t_e t_xy t_converged t_nstates].
  split; [reflexivity|]. split; [reflexivity|].
  split; [rewrite lookup_insert_ne by discriminate; apply lookup_insert_eq|].
  split; [apply lookup_insert_eq|].
  split.
  { intros key H1 H2. rewrite !lookup_insert_ne by auto.
    rewrite Hchk, Hcb. reflexivity. }
  split; [eauto|].
  rewrite Htd, Htb. destruct nstates; reflexivity.
Qed.

(** X20.  The solver is asked for as many roots as [self.nstates] holds
    when it is called: the argument [nstates], when given, is stored
    there first.  An initial guess that was passed is handed on as it is;
    otherwise the guess is generated for that same number of states. *)
Theorem kernel_setup_roots (x0 : option (mat F)) (nstates : option nat)
    (s s1 : state F) (c : closure F) (precond : Precond) (x0' : mat F) (ns : nat) :
  the_setup x0 nstates s = (Ok (c, precond, x0', ns), s1) →
  ns = default (t_nstates (td s)) nstates ∧
  t_nstates (td s1) = ns ∧
  match x0 with
  | Some x => x0' = x
  | None =>
      ∃ ea eb oa ob,
        heap s !! fst (mo_energy (t_scf (td s))) = Some (OVec ea) ∧
        heap s !! snd (mo_energy (t_scf (td s))) = Some (OVec eb) ∧
        heap s !! fst (mo_occ (t_scf (td s))) = Some (OVec oa) ∧
        heap s !! snd (mo_occ (t_scf (td s))) = Some (OVec ob) ∧
        x0' = init_guess (ea, eb) (oa, ob) ns
  end.
Proof.
  intros (_ & sb & l_hdiag & hdiag & Hg & _ & _ & -> & _ & Htd & _ & Hx0)%kernel_setup_run.
  apply get_vind_inv in Hg
    as (ca & cb & ea & eb & oa & ob & orboa & orbob & orbva & orbvb &
        raw_a & raw_b & e_ai & masks & _ & _ & Hea & Heb & Hoa & Hob &
        _ & _ & _ & Hheap & Hrest).
  do 10 (destruct Hrest as [_ Hrest]). destruct Hrest as [Htb _].
  cbn [heap before_get_vind] in Hea, Heb, Hoa, Hob, Hheap.
  assert (Hn : t_nstates (td sb) = default (t_nstates (td s)) nstates)
    by (rewrite Htb; destruct nstates; reflexivity).
  split; [reflexivity|]. split; [rewrite Htd; exact Hn|].
  destruct x0 as [x|]; [tauto|].
  destruct Hx0 as [(ea2 & eb2 & oa2 & ob2 & Hea2 & Heb2 & Hoa2 & Hob2 & ->) _].
  assert (Hold : ∀ l o o', heap s !! l = Some o → heap sb !! l = Some o' → o' = o).
  { intros l o o' Hl. rewrite Hheap, <- app_assoc.
    rewrite lookup_app_l by (eapply lookup_lt_Some, Hl). congruence. }
  pose proof (Hold _ _ _ Hea Hea2) as [= ->].
  pose proof (Hold _ _ _ Heb Heb2) as [= ->].
  pose proof (Hold _ _ _ Hoa Hoa2) as [= ->].
  pose proof (Hold _ _ _ Hob Hob2) as [= ->].
  exists ea, eb, oa, ob. rewrite <- Hn. auto.
Qed.

Lemma frame_prefix (s s' : state F) :
  frame (length (heap s)) s s' → heap s `prefix_of` heap s'.
Proof.
  intros (_ & Htake & _). rewrite firstn_all in Htake.
  exists (drop (length (heap s)) (heap s')).
  rewrite <- Htake at 1. symmetry. apply take_drop.
Qed.

(** What [kernel] has done to the state when the solver is about to be
    called, or when it has failed before that. *)
Lemma kernel_setup_effects (x0 : option (mat F)) (nstates : option nat) (s : state F) :
  let s1 := snd (the_setup x0 nstates s) in
  heap s `prefix_of` heap s1 ∧ chkfile s1 = chkfile s ∧
  (td s1 = td s ∨ ∃ n, td s1 = set_nstates n (td s)).
Proof.
  cbn zeta. unfold kernel_setup.
  erewrite bind_ok by reflexivity.
  erewrite bind_ok by reflexivity.
  cbn [td]. destruct (is_hybrid_xc _).
  { cbn [raise snd heap chkfile td]. auto. }
  erewrite bind_ok by reflexivity.
  erewrite bind_ok by reflexivity.
  assert (Hrest : ∀ (ns : nat) (sa : state F),
    frame (length (heap sa)) sa
      (snd (bind (get_vind get_orbsym gen_uhf_response (t_scf (td s)))
              (fun r =>
                 hdiag <- load_vec (snd r) ;;
                 log EvGetPrecond ;;
                 x1 <- match x0 with
                       | Some x => ret x
                       | None =>
                           self <- get_td ;;
                           ea <- load_vec (fst (mo_energy (t_scf (td s)))) ;;
                           eb <- load_vec (snd (mo_energy (t_scf (td s)))) ;;
                           oa <- load_vec (fst (mo_occ (t_scf (td s)))) ;;
                           ob <- load_vec (snd (mo_occ (t_scf (td s)))) ;;
                           log EvInitGuess ;;
                           ret (init_guess (ea, eb) (oa, ob) (t_nstates self))
                       end ;;
                 ret (fst r, get_precond hdiag, x1, ns)) sa))).
  { intros ns sa.
    refine (proj1 ((_ : safe false (length (heap sa)) _ (fun _ => True)) sa (Nat.le_refl _))).
    eapply safe_bind; [apply safe_get_vind|intros r _].
    safe_run2.
    eapply (safe_bind _ _ _ _ (fun _ => True)).
    { destruct x0; [apply safe_ret; exact I|]. safe_run2. apply safe_ret. exact I. }
    intros x _. apply safe_ret. exact I. }
  destruct nstates as [n|].
  - erewrite bind_ok by reflexivity.
    match goal with
    | |- context [snd (bind _ _ ?sa)] => pose proof (Hrest n sa) as Hf
    end.
    pose proof (frame_prefix _ _ Hf) as Hp.
    destruct Hf as (_ & _ & Htd & Hchk).
    cbn [heap td chkfile set_td] in Hp, Htd, Hchk.
    split; [exact Hp|]. split; [exact Hchk|]. right. exists n. exact Htd.
  - erewrite bind_ok by reflexivity.
    match goal with
    | |- context [snd (bind _ _ ?sa)] => pose proof (Hrest (t_nstates (td s)) sa) as Hf
    end.
    pose proof (frame_prefix _ _ Hf) as Hp.
    destruct Hf as (_ & _ & Htd & Hchk).
    cbn [heap td chkfile set_td] in Hp, Htd, Hchk.
    split; [exact Hp|]. split; [exact Hchk|]. left. exact Htd.
Qed.

(** Every way [kernel] can end: before the results are stored; with
    the results stored and a checkpoint write failing; with both
    written. *)
Lemma kernel_effects (x0 : option (mat F)) (nstates : option nat) (s : state F) :
  let r := fst (the_kernel x0 nstates s) in
  let s' := snd (the_kernel x0 nstates s) in
  ∃ t : solver F,
    heap s `prefix_of` heap s' ∧
    (t = td s ∨ ∃ n, t = set_nstates n (td s)) ∧
    ((∃ e, r = Err e ∧ chkfile s' = chkfile s ∧
           (td s' = t ∨ ∃ conv, td s' = set_converged conv t)) ∨
     (∃ v conv,
        td s' = set_xy (snd v) (set_e (fst v) (set_converged conv t)) ∧
        let f1 := <["tddft/e" := ChkE (fst v)]> (chkfile s) in
        ((∃ e kept, r = Err e ∧
               chk_fault (chkfile s) "tddft/e" (ChkE (fst v)) = Some (e, kept) ∧
               chkfile s' = partial_alter (fun _ => kept) "tddft/e" (chkfile s)) ∨
         (∃ e kept, r = Err e ∧
               chk_fault (chkfile s) "tddft/e" (ChkE (fst v)) = None ∧
               chk_fault f1 "tddft/xy" (ChkXY (snd v)) = Some (e, kept) ∧
               chkfile s' = partial_alter (fun _ => kept) "tddft/xy" f1) ∨
         (r = Ok v ∧ chkfile s' = <["tddft/xy" := ChkXY (snd v)]> f1)))).
Proof.
  cbn zeta. unfold kernel.
  pose proof (kernel_setup_effects x0 nstates s) as (Hp & Hchk & Htd).
  destruct (the_setup x0 nstates s) as [[a|e] s1] eqn:Hsetup; cbn [snd] in Hp, Hchk, Htd.
  2:{ rewrite (bind_err _ _ _ _ _ Hsetup). cbn [fst snd].
      exists (td s1). split; [exact Hp|]. split; [exact Htd|].
      left. exists e. auto. }
  rewrite (bind_ok _ _ _ _ _ Hsetup).
  pose proof (call_davidson_state a s1) as Hd.
  destruct (the_davidson a s1) as [[[[conv w2] x1]|e] s2] eqn:Hdav; cbn [snd] in Hd; subst s2.
  2:{ rewrite (bind_err _ _ _ _ _ Hdav). cbn [fst snd heap td chkfile].
      exists (td s1). split; [exact Hp|]. split; [exact Htd|].
      left. exists e. auto. }
  rewrite (bind_ok _ _ _ _ _ Hdav). cbn [fst snd].
  exists (td s1).
  destruct (kernel_finish_cases chk_fault conv w2 x1
              (State (heap s1) (td s1) (chkfile s1) (trace s1 ++ [EvDavidson])))
    as [(e & ->)|(ea & eb & oa & ob & r & _ & _ & _ & _ & _ & Hend)].
  - cbn [fst snd heap td chkfile set_td].
    split; [exact Hp|]. split; [exact Htd|]. left. exists e. eauto 6.
  - cbn zeta in Hend. cbn [heap td chkfile trace] in Hend. rewrite <- Hchk.
    split; [|split; [exact Htd|right; exists r, conv]].
    { destruct (chk_fault (chkfile s1) "tddft/e" (ChkE (fst r))) as [[e1 l1]|];
        [rewrite Hend; exact Hp|].
      destruct (chk_fault _ "tddft/xy" (ChkXY (snd r))) as [[e2 l2]|];
        rewrite Hend; exact Hp. }
    destruct (chk_fault (chkfile s1) "tddft/e" (ChkE (fst r))) as [[e1 l1]|] eqn:E1.
    { rewrite Hend. cbn [fst snd td chkfile]. split; [reflexivity|].
      left. exists e1, l1. auto. }
    destruct (chk_fault _ "tddft/xy" (ChkXY (snd r))) as [[e2 l2]|] eqn:E2;
      rewrite Hend; cbn [fst snd td chkfile]; (split; [reflexivity|]).
    + right. left. exists e2, l2. auto.
    + right. right. auto.
Qed.

(** X21.  A failure of [kernel] leaves the results of an earlier solve in
    place, [self.e], [self.xy] and the checkpoint file being as before the
    call, unless it is a checkpoint write that fails.  The writes come
    after the assignments: then [self.e] and [self.xy] hold the new
    result already, and no key of the file other than the one being
    written has changed since the call (the first write failing) or since
    the new energies were saved (the second failing). *)
Theorem kernel_failure_keeps_results (x0 : option (mat F)) (nstates : option nat)
    (s s' : state F) (e : exn) :
  the_kernel x0 nstates s = (Err e, s') →
  (t_e (td s') = t_e (td s) ∧ t_xy (td s') = t_xy (td s) ∧ chkfile s' = chkfile s) ∨
  (∃ (v : vec F * list (xyT F)) (kept : option (chkval F)),
     t_e (td s') = Some (fst v) ∧ t_xy (td s') = Some (snd v) ∧
     ((chk_fault (chkfile s) "tddft/e" (ChkE (fst v)) = Some (e, kept) ∧
       chkfile s' !! "tddft/e" = kept ∧
       ∀ key, key ≠ "tddft/e" → chkfile s' !! key = chkfile s !! key) ∨
      (chk_fault (chkfile s) "tddft/e" (ChkE (fst v)) = None ∧
       chk_fault (<["tddft/e" := ChkE (fst v)]> (chkfile s)) "tddft/xy"
         (ChkXY (snd v)) = Some (e, kept) ∧
       chkfile s' !! "tddft/e" = Some (ChkE (fst v)) ∧
       chkfile s' !! "tddft/xy" = kept ∧
       ∀ key, key ≠ "tddft/e" → key ≠ "tddft/xy" →
         chkfile s' !! key = chkfile s !! key))).
Proof.
  intros Hrun. pose proof (kernel_effects x0 nstates s) as Hk.
  rewrite Hrun in Hk. cbn [fst snd] in Hk.
  destruct Hk as (t & _ & Ht & [(e' & _ & Hchk & Htd)|(v & conv & Htd & Hend)]).
  - left.
    assert (He : t_e t = t_e (td s) ∧ t_xy t = t_xy (td s))
      by (destruct Ht as [->|[n ->]]; auto).
    destruct He as [He Hxy].
    destruct Htd as [->|[conv ->]]; auto.
  - right. cbn zeta in Hend.
    destruct Hend
      as [(e1 & l1 & [= <-] & Hf & Hc)|[(e2 & l2 & [= <-] & Hf1 & Hf2 & Hc)|[[=] _]]].
    + exists v, l1. rewrite Htd. cbn [t_e t_xy set_xy set_e].
      split; [reflexivity|]. split; [reflexivity|]. left.
      split; [exact Hf|]. rewrite Hc. split.
      * apply lookup_partial_alter_eq.
      * intros key Hk. apply lookup_partial_alter_ne. auto.
    + exists v, l2. rewrite Htd. cbn [t_e t_xy set_xy set_e].
      split; [reflexivity|]. split; [reflexivity|]. right.
      split; [exact Hf1|]. split; [exact Hf2|]. rewrite Hc. split; [|split].
      * rewrite lookup_partial_alter_ne by discriminate. apply lookup_insert_eq.
      * apply lookup_partial_alter_eq.
      * intros key Hk1 Hk2. rewrite lookup_partial_alter_ne by auto.
        apply lookup_insert_ne. auto.
Qed.

(** X22.  Whatever its outcome, [kernel] leaves the arrays that existed
    before the call as they were (the mean-field energies, occupations
    and coefficients among them), does not touch the mean-field object,
    the target symmetry or the solver settings of [self], and writes no
    checkpoint key other than the two of its results. *)
Theorem kernel_keeps_inputs (x0 : option (mat F)) (nstates : option nat) (s : state F) :
  let s' := snd (the_kernel x0 nstates s) in
  (∀ l o, heap s !! l = Some o → heap s' !! l = Some o) ∧
  t_scf (td s') = t_scf (td s) ∧ t_wfnsym (td s') = t_wfnsym (td s) ∧
  t_conv_tol (td s') = t_conv_tol (td s) ∧ t_lindep (td s') = t_lindep (td s) ∧
  t_max_space (td s') = t_max_space (td s) ∧ t_verbose (td s') = t_verbose (td s) ∧
  (∀ key, key ≠ "tddft/e" → key ≠ "tddft/xy" → chkfile s' !! key = chkfile s !! key).
Proof.
  cbn zeta. destruct (kernel_effects x0 nstates s) as (t & Hp & Ht & Hend).
  split; [intros l o Hl; eapply prefix_lookup_Some; eassumption|].
  assert (Hcfg : ∀ t' : solver F,
            (t' = t ∨ (∃ conv, t' = set_converged conv t) ∨
             ∃ v conv, t' = set_xy (snd v) (set_e (fst v) (set_converged conv t))) →
            t_scf t' = t_scf (td s) ∧ t_wfnsym t' = t_wfnsym (td s) ∧
            t_conv_tol t' = t_conv_tol (td s) ∧ t_lindep t' = t_lindep (td s) ∧
            t_max_space t' = t_max_space (td s) ∧ t_verbose t' = t_verbose (td s)).
  { intros t' Ht'.
    assert (Hbase : t_scf t = t_scf (td s) ∧ t_wfnsym t = t_wfnsym (td s) ∧
              t_conv_tol t = t_conv_tol (td s) ∧ t_lindep t = t_lindep (td s) ∧
              t_max_space t = t_max_space (td s) ∧ t_verbose t = t_verbose (td s))
      by (destruct Ht as [->|[n ->]]; auto 10).
    destruct Ht' as [->|[[conv ->]|(v & conv & ->)]]; exact Hbase. }
  destruct Hend as [(e & _ & Hchk & Htd)|(v & conv & Htd & Hchk)].
  - destruct (Hcfg (td (snd (the_kernel x0 nstates s)))) as (? & ? & ? & ? & ? & ?).
    { destruct Htd as [->|[conv ->]]; eauto. }
    repeat (split; [assumption|]). intros key _ _. rewrite Hchk. reflexivity.
  - destruct (Hcfg (td (snd (the_kernel x0 nstates s)))) as (? & ? & ? & ? & ? & ?).
    { right. right. eauto. }
    repeat (split; [assumption|]). intros key Hk1 Hk2. cbn zeta in Hchk.
    destruct Hchk as [(e1 & l1 & _ & _ & ->)|[(e2 & l2 & _ & _ & _ & ->)|[_ ->]]];
      rewrite ?lookup_partial_alter_ne by auto;
      rewrite ?lookup_insert_ne by auto; reflexivity.
Qed.

(** X23.  The preconditioner of a successful setup is built from
    [hdiag = e_ai ** 2] of the very vector [e_ai], symmetry mask applied,
    from which the operator's [d = sqrt(e_ai)] and [ed = e_ai * d] are
    derived; all three are in place when the solver is called. *)
Theorem preconditioner_matches_operator (x0 : option (mat F)) (nstates : option nat)
    (s s1 : state F) (c : closure F) (precond : Precond) (x0' : mat F) (ns : nat) :
  the_setup x0 nstates s = (Ok (c, precond, x0', ns), s1) →
  ∃ e_ai : vec F,
    heap s1 !! c_dai c = Some (OVec (map fsqrt e_ai)) ∧
    heap s1 !! c_edai c = Some (OVec (zip_with fmul e_ai (map fsqrt e_ai))) ∧
    precond = get_precond (map fsq e_ai).
Proof.
  intros (_ & sb & l_hdiag & hdiag & Hg & Hhd & -> & _ & Hheap1 & _)%kernel_setup_run.
  apply get_vind_inv in Hg
    as (ca & cb & ea & eb & oa & ob & orboa & orbob & orbva & orbvb &
        raw_a & raw_b & e_ai & masks & _ & _ & _ & _ & _ & _ & _ & _ &
        _ & Hheap & Hdai & Hedai & Hl & _).
  exists e_ai. rewrite Hheap1, Hdai, Hedai.
  rewrite Hl, Hheap in Hhd. rewrite Hheap.
  rewrite (lookup_after _ _ _ _ (length masks + 3)) in Hhd
    by (cbn [heap before_get_vind length]; lia).
  rewrite (lookup_after _ _ _ _ (length masks + 1))
    by (cbn [heap before_get_vind length]; lia).
  rewrite (lookup_after _ _ _ _ (length masks + 2))
    by (cbn [heap before_get_vind length]; lia).
  rewrite !lookup_app_r by lia. rewrite lookup_app_r in Hhd by lia.
  replace (length masks + 1 - length masks) with 1 by lia.
  replace (length masks + 2 - length masks) with 2 by lia.
  replace (length masks + 3 - length masks) with 3 in Hhd by lia.
  injection Hhd as <-. auto.
Qed.
End DriverRuns.

(** * The further properties at work on the two-orbital system *)

Section FurtherWitnesses.
Import Toy.

Local Abbreviation toy_get_vind := (get_vind orbsym resp).
Local Abbreviation toy_setup := (kernel_setup is_hybrid orbsym resp precond guess).
Local Abbreviation toy_kernel :=
  (kernel is_hybrid orbsym resp e2 precond guess davidson chk_ok).
Local Abbreviation toy_kernel_full :=
  (kernel is_hybrid orbsym resp e2 precond guess davidson chk_full).

Lemma amplitude_block_shapes_witness :
  reconstruct ea ea oa oa w2 x1 = Ok (e_out, xy_out) ∧
  Forall (xy_shaped (length (occidx oa)) (length (viridx oa))
            (length (occidx oa)) (length (viridx oa))) xy_out.
Proof.
  assert (Hr : reconstruct ea ea oa oa w2 x1 = Ok (e_out, xy_out))
    by (vm_compute; reflexivity).
  split; [exact Hr|].
  exact (amplitude_block_shapes ea ea oa oa w2 x1 e_out xy_out Hr).
Defined.

Lemma reconstruct_index_error_witness :
  reconstruct ea ea oa oa [f4] x1 = Err IndexError.
Proof.
  apply (reconstruct_index_error ea ea oa oa [f1] [f1] [f4] x1).
  - vm_compute. reflexivity.
  - vm_compute. reflexivity.
  - repeat constructor.
  - simpl. lia.
Defined.

Lemma surplus_eigenvalues_ignored_witness :
  reconstruct ea ea oa oa (w2 ++ [f1; fm1]) x1 = reconstruct ea ea oa oa w2 x1.
Proof.
  apply (surplus_eigenvalues_ignored ea ea oa oa w2 [f1; fm1] x1). simpl. lia.
Defined.

Lemma energies_from_positive_eigenvalues_witness :
  ∃ w i w2i, e_out = [w] ∧ i < length x1 ∧ w2 !! i = Some w2i ∧
             is_pos_finite w2i = true ∧ w = fsqrt w2i.
Proof.
  assert (Hr : reconstruct ea ea oa oa w2 x1 = Ok (e_out, xy_out))
    by (vm_compute; reflexivity).
  destruct (energies_from_positive_eigenvalues ea ea oa oa w2 x1 e_out xy_out Hr
              (fsqrt f4))
    as (i & w2i & Hi & Hw & Hp & He).
  - vm_compute. apply list_elem_of_here.
  - exists (fsqrt f4), i, w2i. split; [vm_compute; reflexivity|]. auto.
Defined.

Lemma norm_in_exact_arithmetic_witness :
  ∃ x y, amplitudes (F:=R) [1%R] 2%R [3%R] = Ok (x, y) ∧
         xy_norm x y = (2 * sumsq [3%R])%R.
Proof.
  eexists _, _. split; [apply amplitudes_same_length; reflexivity|].
  apply (norm_in_exact_arithmetic [1%R] [3%R]).
  - repeat constructor. apply R1_neq_R0.
  - reflexivity.
  - apply amplitudes_same_length. reflexivity.
Defined.

Lemma operator_dimension_witness :
  ∃ c l s' d,
    toy_get_vind (mf true "lda") (st true "lda" (Some 1%Z)) = (Ok (c, l), s') ∧
    heap s' !! c_dai c = Some (OVec d) ∧
    length d = c_nvira c * c_nocca c + c_nvirb c * c_noccb c.
Proof.
  eexists _, _, _. 
  match goal with
  | |- ∃ d, ?A ∧ _ => assert (Hg : A) by (vm_compute; reflexivity)
  end.
  destruct (operator_dimension orbsym resp _ _ _ _ _ Hg)
    as (d & ed & hd & Hd & _ & _ & Hl & _).
  exists d. auto.
Defined.

Lemma forbidden_places_witness :
  ∃ c l s' lm mask,
    toy_get_vind (mf true "lda") (st true "lda" (Some 1%Z)) = (Ok (c, l), s') ∧
    c_sym_forbid c = Some lm ∧ heap s' !! lm = Some (OMask mask) ∧
    mask !! 0 = Some (negb (Z.eqb (Z.lxor 1 0) 1)) ∧
    mask !! 1 = Some (negb (Z.eqb (Z.lxor 0 0) 1)).
Proof.
  eexists _, _, _.
  match goal with
  | |- ∃ lm mask, ?A ∧ _ => assert (Hg : A) by (vm_compute; reflexivity)
  end.
  destruct (forbidden_places orbsym resp _ _ _ _ _ 1%Z Hg eq_refl eq_refl)
    as (lm & mask & ca & cb & oa' & ob' & sva & soa & svb & sob &
        Hca & Hcb & Hoa & Hob & Hsva & Hsoa & Hsvb & Hsob & Hc & Hm & Hlen & Ha & Hb).
  exists lm, mask. split; [exact Hg|]. split; [exact Hc|]. split; [exact Hm|].
  cbn [heap st heap0 mf mo_coeff mo_occ fst snd] in Hca, Hcb, Hoa, Hob.
  injection Hca as <-. injection Hcb as <-. injection Hoa as <-. injection Hob as <-.
  vm_compute in Hsva, Hsoa, Hsvb, Hsob.
  injection Hsva as <-. injection Hsoa as <-. injection Hsvb as <-. injection Hsob as <-.
  split.
  - exact (Ha 0 0 1%Z 0%Z eq_refl eq_refl).
  - exact (Hb 0 0 0%Z 0%Z eq_refl eq_refl).
Defined.

Lemma operator_output_masked_witness :
  ∃ c l s l_hx s' hx,
    toy_get_vind (mf true "lda") (st true "lda" (Some 1%Z)) = (Ok (c, l), s) ∧
    vind e2 c (length (heap s)) (set_heap (heap s ++ [OMat [[f1; f1]]]) s)
      = (Ok l_hx, s') ∧
    heap s' !! l_hx = Some (OMat hx) ∧ length hx = 1 ∧
    ∀ i row x, hx !! i = Some row → row !! 1 = Some x → is_zero_or_nan x = true.
Proof.
  eexists _, _, _.
  match goal with
  | |- ∃ l_hx s' hx, ?A ∧ _ => assert (Hg : A) by (vm_compute; reflexivity)
  end.
  eexists _, _.
  match goal with
  | |- ∃ hx, _ ∧ ?B ∧ _ => assert (Hv : B) by (vm_compute; reflexivity)
  end.
  edestruct (operator_output_masked e2 _ _ _ _ _ [fsqrt f1; fsqrt f0] Hv)
    as (zs & hx & Hz & Hx & Hlen & Hall).
  - vm_compute. reflexivity.
  - vm_compute in Hz. injection Hz as <-.
    exists hx. split; [exact Hg|]. split; [exact Hv|]. split; [exact Hx|].
    split; [exact Hlen|].
    intros i row x Hi Hrow. exact (Hall i row 1 (fsqrt f0) x Hi eq_refl eq_refl Hrow).
Defined.

Lemma forbidden_components_vanish_witness :
  ∃ c l s hx,
    toy_get_vind (mf true "lda") (st true "lda" (Some 1%Z)) = (Ok (c, l), s) ∧
    vind_apply e2 c s [[f1; f1]] = Ok hx ∧
    length hx = 1 ∧
    ∀ i row x, hx !! i = Some row → row !! 1 = Some x → is_zero_or_nan x = true.
Proof.
  eexists _, _, _.
  match goal with
  | |- ∃ hx, ?A ∧ _ => assert (Hg : A) by (vm_compute; reflexivity)
  end.
  eexists.
  match goal with
  | |- _ ∧ ?B ∧ _ => assert (Hv : B) by (vm_compute; reflexivity)
  end.
  match type of Hg with
  | _ = (Ok (?c, ?l), ?s) =>
      destruct (forbidden_components_vanish orbsym resp e2 _ _ s s c l 10
                  [false; true] [[f1; f1]] _ Hg eq_refl eq_refl
                  ltac:(exists []; symmetry; apply app_nil_r) Hv) as [Hlen Hall]
  end.
  split; [exact Hg|]. split; [exact Hv|]. split; [exact Hlen|].
  intros i row x Hi Hrow. exact (Hall i row 1 x Hi eq_refl Hrow).
Defined.

Lemma hdiag_not_negative_witness :
  ∃ c l s' hdiag,
    toy_get_vind (mf false "lda") (st false "lda" None) = (Ok (c, l), s') ∧
    heap s' !! l = Some (OVec hdiag) ∧
    Forall (fun v => has_sign_or_nan false v = true) hdiag.
Proof.
  eexists _, _, _.
  match goal with
  | |- ∃ hdiag, ?A ∧ _ => assert (Hg : A) by (vm_compute; reflexivity)
  end.
  destruct (hdiag_not_negative orbsym resp _ _ _ _ _ Hg) as (hdiag & Hh & Hall).
  exists hdiag. auto.
Defined.

Lemma empty_batch_rejected_witness :
  ∃ c l s,
    toy_get_vind (mf true "lda") (st true "lda" (Some 1%Z)) = (Ok (c, l), s) ∧
    fst (vind e2 c (length (heap s)) (set_heap (heap s ++ [OMat []]) s))
    = Err IndexError.
Proof.
  eexists _, _, _. split; [vm_compute; reflexivity|].
  eapply (empty_batch_rejected e2).
  - vm_compute. reflexivity.
  - vm_compute. reflexivity.
  - vm_compute. reflexivity.
  - intros _. eexists _, _. split; vm_compute; reflexivity.
Defined.

Lemma wrong_length_rejected_witness :
  ∃ c l s,
    toy_get_vind (mf true "lda") (st true "lda" (Some 1%Z)) = (Ok (c, l), s) ∧
    fst (vind e2 c (length (heap s)) (set_heap (heap s ++ [OMat [[f1]]]) s))
    = Err IndexError.
Proof.
  eexists _, _, _. split; [vm_compute; reflexivity|].
  eapply (proj1 (proj2 (wrong_length_rejected e2 _ _ _ [[f1]] _)) 10 [false; true] 1).
  - reflexivity.
  - reflexivity.
  - reflexivity.
  - discriminate.
  - repeat constructor.
  - simpl. lia.
  Unshelve. reflexivity.
Defined.

Lemma kernel_call_order_witness :
  ∃ r s',
    toy_kernel None None (st false "lda" None) = (Ok r, s') ∧
    trace s' = [EvIsHybridXc "lda"; EvCheckSanity; EvDumpFlags; EvGenResponse;
                EvGetPrecond; EvInitGuess; EvDavidson;
                EvChkSave "tddft/e"; EvChkSave "tddft/xy"].
Proof.
  eexists _, _.
  match goal with
  | |- ?A ∧ _ => assert (Hk : A) by (vm_compute; reflexivity)
  end.
  split; [exact Hk|].
  exact (kernel_call_order is_hybrid orbsym resp e2 precond guess davidson chk_ok
           None None _ _ _ Hk).
Defined.

Lemma kernel_result_stored_witness :
  ∃ e xy s',
    toy_kernel None (Some 2) (st false "lda" None) = (Ok (e, xy), s') ∧
    t_e (td s') = Some e ∧ t_xy (td s') = Some xy ∧
    chkfile s' !! "tddft/e" = Some (ChkE e) ∧ t_nstates (td s') = 2.
Proof.
  eexists _, _, _.
  match goal with
  | |- ?A ∧ _ => assert (Hk : A) by (vm_compute; reflexivity)
  end.
  destruct (kernel_result_stored is_hybrid orbsym resp e2 precond guess davidson
              chk_ok None (Some 2) _ _ _ _ Hk) as (He & Hxy & Hce & _ & _ & _ & Hn).
  auto.
Defined.

Lemma kernel_setup_roots_witness :
  ∃ c p x0' ns s1,
    toy_setup (Some [[f1; f1]]) (Some 2) (st false "lda" None)
      = (Ok (c, p, x0', ns), s1) ∧
    ns = 2 ∧ t_nstates (td s1) = ns ∧ x0' = [[f1; f1]].
Proof.
  eexists _, _, _, _, _.
  match goal with
  | |- ?A ∧ _ => assert (Hs : A) by (vm_compute; reflexivity)
  end.
  split; [exact Hs|].
  exact (kernel_setup_roots is_hybrid orbsym resp e2 precond guess davidson chk_ok
           (Some [[f1; f1]]) (Some 2) _ _ _ _ _ _ Hs).
Defined.

Lemma kernel_failure_keeps_results_witness :
  ∃ s' v,
    toy_kernel_full None (Some 2) (st false "lda" None) = (Err OSError, s') ∧
    t_e (td s') = Some (fst v) ∧ t_xy (td s') = Some (snd v) ∧
    chkfile s' !! "tddft/e" = None.
Proof.
  assert (Hk : ∃ s', toy_kernel_full None (Some 2) (st false "lda" None)
                     = (Err OSError, s') ∧ t_e (td s') = Some e_out)
    by (eexists; split; vm_compute; reflexivity).
  destruct Hk as (s' & Hk & He).
  destruct (kernel_failure_keeps_results is_hybrid orbsym resp e2 precond guess
              davidson chk_full None (Some 2) _ _ _ Hk)
    as [(He' & _)|(v & kept & Hv & Hxy & [(Hf & Hc & _)|(Hf & _)])].
  - rewrite He in He'. discriminate.
  - exists s', v. injection Hf as <-. auto.
  - discriminate.
Defined.

Lemma preconditioner_matches_operator_witness :
  ∃ c p x0' ns s1 e_ai,
    toy_setup None None (st true "lda" (Some 1%Z)) = (Ok (c, p, x0', ns), s1) ∧
    heap s1 !! c_dai c = Some (OVec (map fsqrt e_ai)) ∧
    p = precond (map fsq e_ai).
Proof.
  eexists _, _, _, _, _.
  match goal with
  | |- ∃ e_ai, ?A ∧ _ => assert (Hs : A) by (vm_compute; reflexivity)
  end.
  destruct (preconditioner_matches_operator is_hybrid orbsym resp e2 precond guess
              davidson chk_ok None None _ _ _ _ _ _ Hs) as (e_ai & Hd & _ & Hp).
  exists e_ai. auto.
Defined.
Lemma orbital_blocks_witness :
  ∃ c l s' orboa orbva,
    toy_get_vind (mf false "lda") (st false "lda" None) = (Ok (c, l), s') ∧
    heap s' !! c_orboa c = Some (OMat orboa) ∧
    heap s' !! c_orbva c = Some (OMat orbva) ∧
    columns_of [[f1; f0]; [f0; f1]] [0] orboa ∧
    columns_of [[f1; f0]; [f0; f1]] [1] orbva.
Proof.
  eexists _, _, _.
  match goal with
  | |- ∃ orboa orbva, ?A ∧ _ => assert (Hg : A) by (vm_compute; reflexivity)
  end.
  destruct (orbital_blocks orbsym resp _ _ _ _ _ Hg)
    as (ca & cb & oa' & ob' & orboa & orbob & orbva & orbvb &
        Hca & Hcb & Hoa & Hob & H1 & H2 & H3 & H4 & _ & _ & _ & _ &
        Hc1 & _ & Hc3 & _).
  cbn [heap st heap0 mf mo_coeff mo_occ fst snd] in Hca, Hoa.
  injection Hca as <-. injection Hoa as <-.
  exists orboa, orbva. auto.
Defined.

Lemma operator_formula_witness :
  ∃ c l s l_hx s' dai edai (hx0 hx : mat spec_float),
    toy_get_vind (mf false "lda") (st false "lda" None) = (Ok (c, l), s) ∧
    vind e2 c (length (heap s)) (set_heap (heap s ++ [OMat [[f1; f1]]]) s)
      = (Ok l_hx, s') ∧
    heap s !! c_dai c = Some (OVec dai) ∧
    heap s !! c_edai c = Some (OVec edai) ∧
    heap s' !! l_hx = Some (OMat hx) ∧ length hx = 1 ∧
    ∃ v r, hx0 !! 0 = Some v ∧ diagonal_row dai edai v [f1; f1] r ∧
           hx !! 0 = Some r.
Proof.
  eexists _, _, _.
  match goal with
  | |- ∃ l_hx s' dai edai hx0 hx, ?A ∧ _ =>
      assert (Hg : A) by (vm_compute; reflexivity)
  end.
  eexists _, _.
  match goal with
  | |- ∃ dai edai hx0 hx, _ ∧ ?B ∧ _ =>
      assert (Hv : B) by (vm_compute; reflexivity)
  end.
  exists [fsqrt f1; fsqrt f1], [fmul f1 (fsqrt f1); fmul f1 (fsqrt f1)].
  pose proof Hv as Hrun.
  eapply (operator_formula e2 _ _ _ _ _
            [fsqrt f1; fsqrt f1] [fmul f1 (fsqrt f1); fmul f1 (fsqrt f1)]) in Hrun
    as (zs & zs' & da & db & ra & rb & hx0 & hx &
        Hz & Hm & _ & _ & _ & _ & _ & _ & _ & Hx & Hlen & Hrows);
    [|vm_compute; reflexivity..].
  vm_compute in Hz. injection Hz as <-.
  cbv [masked_batch filter_on c_wfnsym c_symmetry] in Hm. subst zs'.
  exists hx0, hx. split; [exact Hg|]. split; [exact Hv|].
  split; [vm_compute; reflexivity|]. split; [vm_compute; reflexivity|].
  split; [exact Hx|]. split; [exact Hlen|]. apply (Hrows 0 [f1; f1] eq_refl).
Defined.
End FurtherWitnesses.
